(** * hwacctools.comp_graph: tiling and window lowering

    A shallow embedding of [hwacctools/comp_graph/splitter.py] and
    [hwacctools/comp_graph/compute.py], and of the lookup helpers of
    [hwacctools/onnx_utils.py].  Python integers are [Z], numpy
    arrays are nested lists that carry their shape, raised exceptions are
    the [Raise] case of an error monad. *)

From Stdlib Require Import String Ascii DecimalString ZArith List Lia Bool.
From Stdlib Require DecimalNat.
Import ListNotations.

Set Implicit Arguments.

(** ** Python runtime: exceptions, integer operators, ranges, slices *)

Module Py.

Inductive exn : Type :=
| ZeroDivisionError
| IndexError
| AttributeError
| ValueError.

Inductive result (T : Type) : Type :=
| Ok (v : T)
| Raise (e : exn).

Arguments Ok {T} v.
Arguments Raise {T} e.

Definition bind {T U : Type} (c : result T) (k : T -> result U) : result U :=
  match c with
  | Ok v => k v
  | Raise e => Raise e
  end.

Fixpoint mapM {T U : Type} (f : T -> result U) (l : list T) : result (list U) :=
  match l with
  | [] => Ok []
  | x :: l' =>
      bind (f x) (fun y => bind (mapM f l') (fun ys => Ok (y :: ys)))
  end.

(** A [for] loop whose body may raise: the state is threaded left to right
    and the first exception leaves the loop. *)
Fixpoint foldM {S T : Type} (body : S -> T -> result S) (l : list T) (s : S)
  : result S :=
  match l with
  | [] => Ok s
  | x :: l' => bind (body s x) (foldM body l')
  end.

(** [a // b] and [a % b]: floor division, the sign of the divisor. *)
Definition floordiv (a b : Z) : result Z :=
  if (b =? 0)%Z then Raise ZeroDivisionError else Ok (a / b)%Z.

Definition modulo (a b : Z) : result Z :=
  if (b =? 0)%Z then Raise ZeroDivisionError else Ok (a mod b)%Z.

(** [range(n)]: empty when [n <= 0]. *)
Definition range (n : Z) : list Z := map Z.of_nat (seq 0 (Z.to_nat n)).

(** [enumerate(l)] *)
Definition enumerate {T : Type} (l : list T) : list (nat * T) :=
  combine (seq 0 (length l)) l.

(** One bound of a slice [l[lo:hi]] on a sequence of length [n]: a negative
    bound counts from the end, and every bound is clamped to [0..n]. *)
Definition slice_bound (n i : Z) : nat :=
  Z.to_nat (if (i <? 0)%Z then Z.max 0 (i + n) else Z.min i n).

Definition slice_len (n : nat) (lo hi : Z) : nat :=
  slice_bound (Z.of_nat n) hi - slice_bound (Z.of_nat n) lo.

Definition slice {T : Type} (l : list T) (lo hi : Z) : list T :=
  firstn (slice_len (length l) lo hi)
         (skipn (slice_bound (Z.of_nat (length l)) lo) l).

(** [l[i]] with a negative index counting from the end. *)
Definition index {T : Type} (l : list T) (i : Z) : result T :=
  let n := Z.of_nat (length l) in
  let k := if (i <? 0)%Z then (i + n)%Z else i in
  if (k <? 0)%Z then Raise IndexError
  else match nth_error l (Z.to_nat k) with
       | Some x => Ok x
       | None => Raise IndexError
       end.

(** [str(n)] of a non-negative integer, as an f-string renders it. *)
Definition str (n : nat) : string := NilEmpty.string_of_uint (Nat.to_uint n).

End Py.

Import Py.

Declare Scope py_scope.
Delimit Scope py_scope with py.
Notation "x <- c ;; k" := (bind c (fun x => k))
  (at level 61, c at next level, right associativity) : py_scope.
Notation "' p <- c ;; k" := (bind c (fun x => let 'p := x in k))
  (at level 61, p pattern, c at next level, right associativity) : py_scope.
Open Scope py_scope.
Open Scope string_scope.
Open Scope list_scope.

(** ** numpy arrays *)

Section Arrays.

Context {A : Type}.

(** A two-dimensional array.  [shape] is [(nrows, ncols)]; the column count
    is kept next to the rows so that a matrix without rows still has one. *)
Record matrix : Type := mk_matrix {
  ncols : nat;
  rows : list (list A)
}.

Definition nrows (m : matrix) : nat := length (rows m).

Definition shape (m : matrix) : nat * nat := (nrows m, ncols m).

(** Every row of a numpy matrix has [ncols] entries. *)
Definition wf_matrix (m : matrix) : Prop :=
  Forall (fun r => length r = ncols m) (rows m).

(** [m[:, lo:hi]] *)
Definition col_slice (m : matrix) (lo hi : Z) : matrix :=
  {| ncols := slice_len (ncols m) lo hi;
     rows := map (fun r => slice r lo hi) (rows m) |}.

(** [m[lo:hi]] *)
Definition row_slice (m : matrix) (lo hi : Z) : matrix :=
  {| ncols := ncols m;
     rows := slice (rows m) lo hi |}.

(** [np.empty(shape)]: the entries are whatever the buffer held, [uninit]. *)
Definition np_empty (uninit : A) (shp : nat * nat) : matrix :=
  {| ncols := snd shp;
     rows := repeat (repeat uninit (snd shp)) (fst shp) |}.

(** [np.concatenate(ms, axis=0)]: needs one array at least, and equal
    column counts. *)
Definition vstack2 (a b : matrix) : result matrix :=
  if Nat.eqb (ncols a) (ncols b)
  then Ok {| ncols := ncols a; rows := rows a ++ rows b |}
  else Raise ValueError.

(** [np.concatenate(ms, axis=1)]: needs one array at least, and equal row
    counts. *)
Fixpoint zip_app (xs ys : list (list A)) : list (list A) :=
  match xs, ys with
  | x :: xs', y :: ys' => (x ++ y) :: zip_app xs' ys'
  | _, _ => []
  end.

Definition hstack2 (a b : matrix) : result matrix :=
  if Nat.eqb (nrows a) (nrows b)
  then Ok {| ncols := ncols a + ncols b; rows := zip_app (rows a) (rows b) |}
  else Raise ValueError.

Definition concatenate (stack2 : matrix -> matrix -> result matrix)
  (ms : list matrix) : result matrix :=
  match ms with
  | [] => Raise ValueError
  | m :: ms' => foldM stack2 ms' m
  end.

Definition vstack : list matrix -> result matrix := concatenate vstack2.
Definition hstack : list matrix -> result matrix := concatenate hstack2.

(** A bias: a one-dimensional array, or a zero-dimensional one (a scalar,
    [shape == ()]). *)
Inductive ndarray1 : Type :=
| Scalar (x : A)
| Arr1 (l : list A).

End Arrays.

Arguments matrix A : clear implicits.
Arguments ndarray1 A : clear implicits.

(** ** splitter.py: the tilers *)

Section Tilers.

Context {A : Type}.

(** [n//W + (n%W != 0)], the [#ceil func] of the source. *)
Definition ceil_reps (n W : Z) : result Z :=
  q <- floordiv n W ;;
  r <- modulo n W ;;
  Ok (q + (if (r =? 0)%Z then 0 else 1))%Z.

(** First loop of [split_matrix_into_chunks]: the column groups. *)
Definition split_columns (m : matrix A) (W : Z) : result (list (matrix A)) :=
  if (Z.of_nat (ncols m) >? W)%Z then
    reps <- ceil_reps (Z.of_nat (ncols m)) W ;;
    Ok (map (fun i => col_slice m (W * i) (W * i + W)) (range reps))
  else Ok [m].

(** Body of the second loop: the row groups of one column group. *)
Definition split_rows (H : Z) (mat : matrix A) : result (list (matrix A)) :=
  if (Z.of_nat (nrows mat) >? H)%Z then
    reps <- ceil_reps (Z.of_nat (nrows mat)) H ;;
    Ok (map (fun i => row_slice mat (H * i) (H * i + H)) (range reps))
  else Ok [mat].

Definition split_matrix_into_chunks (m : matrix A) (H W : Z)
  : result (list (list (matrix A))) :=
  out <- split_columns m W ;;
  mapM (split_rows H) out.

(** [split_shape_into_chunks]: the same two loops, run on [np.empty(shape)],
    and the shapes of the result. *)
Definition split_shape_into_chunks (uninit : A) (shp : nat * nat) (H W : Z)
  : result (list (list (nat * nat))) :=
  let matrix := np_empty uninit shp in
  out <- (if (Z.of_nat (ncols matrix) >? W)%Z then
            reps <- ceil_reps (Z.of_nat (ncols matrix)) W ;;
            Ok (map (fun i => col_slice matrix (W * i) (W * i + W)) (range reps))
          else Ok [matrix]) ;;
  out2 <- mapM (fun mat =>
            if (Z.of_nat (nrows mat) >? H)%Z then
              reps <- ceil_reps (Z.of_nat (nrows mat)) H ;;
              Ok (map (fun i => row_slice mat (H * i) (H * i + H)) (range reps))
            else Ok [mat]) out ;;
  Ok (map (fun c => map (fun i => shape i) c) out2).

(** [zip_longest] over the same [iter(vector)] repeated [W] times: each
    tuple takes the next [W] items and the last one is filled with [None].
    No iterator at all ([W <= 0]) gives no tuple. *)
Fixpoint grouper (fuel : nat) (W : nat) (l : list A) : list (list (option A)) :=
  match fuel with
  | O => []
  | S fuel' =>
      match l with
      | [] => []
      | _ => (map Some (firstn W l) ++ repeat None (W - length l))
               :: grouper fuel' W (skipn W l)
      end
  end.

Definition zip_longest_same_iter (l : list A) (W : Z) : list (list (option A)) :=
  if (W <=? 0)%Z then [] else grouper (length l) (Z.to_nat W) l.

(** [i[i != np.array(None)]] *)
Fixpoint drop_none (t : list (option A)) : list A :=
  match t with
  | [] => []
  | Some x :: t' => x :: drop_none t'
  | None :: t' => drop_none t'
  end.

Definition split_vector_into_chunks (vector : ndarray1 A) (W : Z)
  : list (list A) :=
  let vector :=
    match vector with
    | Scalar x => [x]          (* np.expand_dims(vector,-1) *)
    | Arr1 l => l
    end in
  let b := zip_longest_same_iter vector W in
  map drop_none b.

End Tilers.

(** [split_kernel_into_channels]: a kernel is a four-dimensional array laid
    out [K, C, Fy, Fx] (output channels, input channels, filter rows, filter
    columns). *)
Section ChannelTiler.

Context {A : Type}.

Record kernel : Type := mk_kernel {
  kshape : nat * nat * nat * nat;
  kdata : list (list (list (list A)))
}.

Definition in_channels (k : kernel) : nat :=
  let '(_, c, _, _) := kshape k in c.

(** [kernel.shape[-1]] *)
Definition kernel_width (k : kernel) : nat :=
  let '(_, _, _, fx) := kshape k in fx.

(** [kernel[:, lo:hi]] *)
Definition channel_slice (k : kernel) (lo hi : Z) : kernel :=
  let '(o, c, fy, fx) := kshape k in
  {| kshape := (o, slice_len c lo hi, fy, fx);
     kdata := map (fun per_out => slice per_out lo hi) (kdata k) |}.

Definition split_kernel_into_channels (k : kernel) (C : Z)
  : result (list kernel) :=
  let subkernels := [] in
  if (Z.of_nat (in_channels k) >? C)%Z then
    reps <- ceil_reps (Z.of_nat (in_channels k)) C ;;
    Ok (subkernels
          ++ map (fun i => channel_slice k (C * i) (C * i + C)) (range reps))
  else Ok subkernels.

End ChannelTiler.

Arguments kernel A : clear implicits.

(** ** Graph nodes

    [splitter.py] only constructs and reads the node classes of [cnodes];
    the module itself is not part of the sources at hand. *)

Section Nodes.

Context {A : Type}.

(** Modelled from the spec: the operator kinds of the [cnodes] node classes
    with their operator-specific fields (weight matrix, kernel, kernel size,
    stride, channel-layout flag, slice bounds). *)
Inductive op : Type :=
| toeplitzizer (ksize strides : Z)
| slicer (col_lim : Z * Z)
| gemm (matrix : matrix A)
| add
| cat (axis : Z)
| reshaper (channels : nat)
| conv (kernel : kernel A) (matrix : matrix A) (strides : Z)
       (channel_minor : bool).

(** Modelled from the spec: a [cnodes] node.  It has its ordered input and
    output edge identifiers, an optional bias, and the provenance tag
    [from_type], which is unset until an emitter assigns it. *)
Record node : Type := mk_node {
  operator : op;
  inputs : list string;
  outputs : list string;
  biases : option (ndarray1 A);
  from_type : option string
}.

(** Modelled from the spec: [cnodes.toeplitzizer_node(inputs, outputs,
    ksize=, strides=)]. *)
Definition toeplitzizer_node (ins outs : list string) (ksize strides : Z)
  : node :=
  mk_node (toeplitzizer ksize strides) ins outs None None.

(** Modelled from the spec: [cnodes.slicer_node(inputs, outputs, col_lim=)]. *)
Definition slicer_node (ins outs : list string) (col_lim : Z * Z) : node :=
  mk_node (slicer col_lim) ins outs None None.

(** Modelled from the spec: [cnodes.gemm_node(inputs, outputs, matrix)]; the
    bias is optional, and a node built without one has none. *)
Definition gemm_node (ins outs : list string) (m : matrix A) : node :=
  mk_node (gemm m) ins outs None None.

(** Modelled from the spec: [cnodes.add_node(inputs, outputs)]. *)
Definition add_node (ins outs : list string) : node :=
  mk_node add ins outs None None.

(** Modelled from the spec: [cnodes.cat_node(inputs, outputs, axis=)]. *)
Definition cat_node (ins outs : list string) (axis : Z) : node :=
  mk_node (cat axis) ins outs None None.

(** Modelled from the spec: [cnodes.reshaper_node(inputs, outputs,
    channels=)]. *)
Definition reshaper_node (ins outs : list string) (channels : nat) : node :=
  mk_node (reshaper channels) ins outs None None.

(** [n.biases = b] and [n.from_type = t] *)
Definition set_biases (b : ndarray1 A) (n : node) : node :=
  mk_node (operator n) (inputs n) (outputs n) (Some b) (from_type n).

Definition set_from_type (t : string) (n : node) : node :=
  mk_node (operator n) (inputs n) (outputs n) (biases n) (Some t).

(** Attribute reads that fail on a node of another kind. *)
Definition attr_matrix (n : node) : result (matrix A) :=
  match operator n with
  | gemm m => Ok m
  | conv _ m _ _ => Ok m
  | _ => Raise AttributeError
  end.

Definition attr_ksize (n : node) : result Z :=
  match operator n with
  | conv k _ _ _ => Ok (Z.of_nat (kernel_width k))
  | _ => Raise AttributeError
  end.

Definition attr_strides (n : node) : result Z :=
  match operator n with
  | conv _ _ s _ => Ok s
  | toeplitzizer _ s => Ok s
  | _ => Raise AttributeError
  end.

(** [cnode.biases] handed to [split_vector_into_chunks], whose first line
    reads [vector.shape]: [None] has no such attribute. *)
Definition attr_biases (n : node) : result (ndarray1 A) :=
  match biases n with
  | Some b => Ok b
  | None => Raise AttributeError
  end.

(** [nodes[-1].biases = b] *)
Definition set_last_biases (nodes : list node) (b : ndarray1 A)
  : result (list node) :=
  match rev nodes with
  | [] => Raise IndexError
  | n :: before => Ok (rev before ++ [set_biases b n])
  end.

End Nodes.

Arguments op A : clear implicits.
Arguments node A : clear implicits.

(** ** splitter.py: the subgraph emitters *)

Section Emitters.

Context {A : Type}.

(** [len(submatrices) == 1 and len(submatrices[0]) == 1] *)
Definition fits_one_tile (submatrices : list (list (matrix A))) : bool :=
  match submatrices with
  | [[_]] => true
  | _ => false
  end.

(** Body of the inner loop [for j,matrix in enumerate(col)], the same in
    [split_gemm_into_chunks] and [split_conv_into_chunks] but for the edge
    the slicer reads. *)
Definition emit_chunk (cnode : node A) (slicer_inputs : list string) (H : Z)
  (i : nat) (st : list (node A) * list string) (jm : nat * matrix A)
  : result (list (node A) * list string) :=
  let '(nodes, adder_inputs) := st in
  let '(j, matrix) := jm in
  let input_cols := (H * Z.of_nat j, H * Z.of_nat j + H)%Z in
  out0 <- index (outputs cnode) 0 ;;
  let slicer_output_edge :=
    (out0 ++ "_slicer_" ++ str i ++ "-" ++ str j)%string in
  let slicer := slicer_node slicer_inputs [slicer_output_edge] input_cols in
  let gemm_output_edge :=
    (out0 ++ "_gemm_" ++ str i ++ "-" ++ str j)%string in
  let gemm := gemm_node [slicer_output_edge] [gemm_output_edge] matrix in
  let nodes := nodes ++ [slicer] in
  let nodes := nodes ++ [gemm] in
  Ok (nodes, adder_inputs ++ [gemm_output_edge]).

(** Body of [for i,col in enumerate(submatrices)] in
    [split_gemm_into_chunks]. *)
Definition gemm_column (cnode : node A) (H : Z) (subbiases : list (list A))
  (st : list (node A) * list string) (ic : nat * list (matrix A))
  : result (list (node A) * list string) :=
  let '(nodes, cat_inputs) := st in
  let '(i, col) := ic in
  '(nodes, adder_inputs) <-
     foldM (emit_chunk cnode (inputs cnode) H i) (enumerate col) (nodes, []) ;;
  b <- index subbiases (Z.of_nat i) ;;
  nodes <- set_last_biases nodes (Arr1 b) ;;
  out0 <- index (outputs cnode) 0 ;;
  let adder_output_edge := (out0 ++ "_adder_" ++ str i)%string in
  let adder := add_node adder_inputs [adder_output_edge] in
  let nodes := nodes ++ [adder] in
  Ok (nodes, cat_inputs ++ [adder_output_edge]).

Definition split_gemm_into_chunks (cnode : node A) (H W : Z)
  : result (list (node A)) :=
  matrix <- attr_matrix cnode ;;
  submatrices <- split_matrix_into_chunks matrix H W ;;
  biases <- attr_biases cnode ;;
  let subbiases := split_vector_into_chunks biases W in
  if fits_one_tile submatrices then Ok [cnode]
  else
    '(nodes, cat_inputs) <-
       foldM (gemm_column cnode H subbiases) (enumerate submatrices) ([], []) ;;
    let cat := cat_node cat_inputs (outputs cnode) 0 in
    let nodes := nodes ++ [cat] in
    Ok (map (set_from_type "gemm") nodes).

(** Body of [for i,col in enumerate(submatrices)] in
    [split_conv_into_chunks]: the adder is emitted only for two addends or
    more. *)
Definition conv_column (cnode : node A) (tplitz_output_edge : string) (H : Z)
  (subbiases : list (list A))
  (st : list (node A) * list string) (ic : nat * list (matrix A))
  : result (list (node A) * list string) :=
  let '(nodes, cat_inputs) := st in
  let '(i, col) := ic in
  '(nodes, adder_inputs) <-
     foldM (emit_chunk cnode [tplitz_output_edge] H i) (enumerate col)
           (nodes, []) ;;
  b <- index subbiases (Z.of_nat i) ;;
  nodes <- set_last_biases nodes (Arr1 b) ;;
  if Nat.ltb 1 (length adder_inputs) then
    out0 <- index (outputs cnode) 0 ;;
    let adder_output_edge := (out0 ++ "_adder_" ++ str i)%string in
    let adder := add_node adder_inputs [adder_output_edge] in
    let nodes := nodes ++ [adder] in
    Ok (nodes, cat_inputs ++ [adder_output_edge])
  else Ok (nodes, cat_inputs ++ adder_inputs).

Definition conv_from_type (ksize : Z) : string :=
  if (ksize =? 1)%Z then "pointwise" else "conv".

Definition split_conv_into_chunks (cnode : node A) (H W : Z)
  : result (list (node A)) :=
  matrix <- attr_matrix cnode ;;
  submatrices <- split_matrix_into_chunks matrix H W ;;
  biases <- attr_biases cnode ;;
  let subbiases := split_vector_into_chunks biases W in
  ksize <- attr_ksize cnode ;;
  strides <- attr_strides cnode ;;
  if fits_one_tile submatrices
  then Ok [set_from_type (conv_from_type ksize) cnode]
  else
    out0 <- index (outputs cnode) 0 ;;
    let tplitz_output_edge := (out0 ++ "_tplitz")%string in
    let tplitz_node :=
      toeplitzizer_node (inputs cnode) [tplitz_output_edge] ksize strides in
    '(nodes, cat_inputs) <-
       foldM (conv_column cnode tplitz_output_edge H subbiases)
             (enumerate submatrices) ([tplitz_node], []) ;;
    let cat_output_edge := (out0 ++ "_cat")%string in
    let cat := cat_node cat_inputs [cat_output_edge] (-1) in
    let nodes := nodes ++ [cat] in
    let C := ncols matrix in
    let output_tensorizer :=
      reshaper_node [cat_output_edge] (outputs cnode) C in
    let nodes := nodes ++ [output_tensorizer] in
    Ok (map (set_from_type (conv_from_type ksize)) nodes).

End Emitters.

(** ** compute.py: window lowering *)

Section Compute.

Context {A : Type}.

(** What an uninitialised [np.empty] buffer holds. *)
Variable uninit : A.

(** Storing a scalar into an array converts it to the dtype of the array.
    [astype] is that conversion for the dtype of the input tensor, a dtype
    that [transpose], [np.pad] and [np.empty(..., dtype=tensor.dtype)] all
    keep. *)
Variable astype : A -> A.

(** A three-dimensional array with its shape. *)
Record ndarray3 : Type := mk_ndarray3 {
  shape3 : nat * nat * nat;
  data3 : list (list (list A))
}.

Definition get3 (t : ndarray3) (i j k : nat) : A :=
  nth k (nth j (nth i (data3 t) []) []) uninit.

Definition tabulate {T : Type} (n : nat) (f : nat -> T) : list T :=
  map f (seq 0 n).

(** [t.transpose(1,2,0)]: [result[i,j,k] = t[k,i,j]] *)
Definition transpose_120 (t : ndarray3) : ndarray3 :=
  let '(d0, d1, d2) := shape3 t in
  {| shape3 := (d1, d2, d0);
     data3 := tabulate d1 (fun i =>
                tabulate d2 (fun j =>
                  tabulate d0 (fun k => get3 t k i j))) |}.

(** [t.transpose(2,0,1)]: [result[i,j,k] = t[j,k,i]] *)
Definition transpose_201 (t : ndarray3) : ndarray3 :=
  let '(d0, d1, d2) := shape3 t in
  {| shape3 := (d2, d0, d1);
     data3 := tabulate d2 (fun i =>
                tabulate d0 (fun j =>
                  tabulate d1 (fun k => get3 t j k i))) |}.

(** [np.pad(t, ((1,1),(1,1),(0,0)), mode='constant', constant_values=v)]:
    the result has the dtype of [t], so the border holds [v] converted to
    it. *)
Definition pad_hw (t : ndarray3) (v : A) : ndarray3 :=
  let '(d0, d1, d2) := shape3 t in
  let pixel := repeat (astype v) d2 in
  let border := repeat pixel (d1 + 2) in
  {| shape3 := (d0 + 2, d1 + 2, d2);
     data3 := [border]
                ++ map (fun row => [pixel] ++ row ++ [pixel]) (data3 t)
                ++ [border] |}.

(** [t[r0:r1, c0:c1]] *)
Definition window (t : ndarray3) (r0 r1 c0 c1 : Z) : ndarray3 :=
  let '(d0, d1, d2) := shape3 t in
  {| shape3 := (slice_len d0 r0 r1, slice_len d1 c0 c1, d2);
     data3 := map (fun row => slice row c0 c1) (slice (data3 t) r0 r1) |}.

(** What [get_recfield_for_pixel] hands back: a channel vector, a
    three-dimensional field, or [None] when it falls off its two tests. *)
Inductive recfield : Type :=
| PyNone
| Vec (l : list A)
| Field (t : ndarray3).

Definition get_recfield_for_pixel (r c : Z) (matrix : ndarray3) (ksize : Z)
  : result recfield :=
  if (ksize =? 1)%Z then
    row <- index (data3 matrix) r ;;
    pixel <- index row c ;;
    Ok (Vec pixel)
  else if (ksize =? 3)%Z then
    Ok (Field (transpose_201 (window matrix r (r + 3) c (c + 3))))
  else Ok PyNone.

(** [recfield.flatten()] *)
Definition flatten (f : recfield) : result (list A) :=
  match f with
  | PyNone => Raise AttributeError
  | Vec l => Ok l
  | Field t => Ok (concat (map (@concat A) (data3 t)))
  end.

(** [recfield.transpose(1,2,0)] *)
Definition transpose_field (f : recfield) : result recfield :=
  match f with
  | PyNone => Raise AttributeError
  | Vec _ => Raise ValueError
  | Field t => Ok (Field (transpose_120 t))
  end.

(** [np.empty((n, cols))] with a computed row count. *)
Definition np_empty_rows (n : Z) (cols : nat) : result (matrix A) :=
  if (n <? 0)%Z then Raise ValueError
  else Ok (np_empty uninit (Z.to_nat n, cols)).

Fixpoint update {T : Type} (l : list T) (k : nat) (x : T) : list T :=
  match l, k with
  | [], _ => []
  | _ :: l', O => x :: l'
  | y :: l', S k' => y :: update l' k' x
  end.

(** [out[i] = v]: the index must be in range and [v] must have the length of
    a row, or length one (which numpy broadcasts). *)
Definition set_row (out : matrix A) (i : Z) (v : list A) : result (matrix A) :=
  let n := Z.of_nat (nrows out) in
  let k := if (i <? 0)%Z then (i + n)%Z else i in
  if ((k <? 0) || (n <=? k))%Z then Raise IndexError
  else
    if Nat.eqb (length v) (ncols out) then
      Ok {| ncols := ncols out; rows := update (rows out) (Z.to_nat k) v |}
    else
      match v with
      | [x] => Ok {| ncols := ncols out;
                     rows := update (rows out) (Z.to_nat k)
                                    (repeat x (ncols out)) |}
      | _ => Raise ValueError
      end.

(** Body of the two nested loops of [toeplitzize_input]. *)
Definition toeplitz_pixel (tensor2 : ndarray3) (ksize strides W : Z)
  (channel_minor : bool) (r : Z) (out : matrix A) (c : Z)
  : result (matrix A) :=
  recfield <- get_recfield_for_pixel (strides * r) (strides * c) tensor2 ksize ;;
  if channel_minor && (ksize =? 3)%Z then
    f <- transpose_field recfield ;;
    v <- flatten f ;;
    set_row out (r * W + c) v
  else
    v <- flatten recfield ;;
    set_row out (r * W + c) v.

Definition toeplitzize_input (in_tensor : ndarray3) (ksize strides : Z)
  (channel_minor : bool) (zero_point : A) : result (matrix A) :=
  let tensor := transpose_120 in_tensor in
  let '(s0, s1, s2) := shape3 tensor in
  H <- floordiv (Z.of_nat s0) strides ;;
  W <- floordiv (Z.of_nat s1) strides ;;
  let C := s2 in
  '(tensor2, out) <-
     (if (ksize =? 3)%Z then
        let tensor2 := pad_hw tensor zero_point in
        out <- np_empty_rows (H * W) (C * 9) ;;
        Ok (tensor2, out)
      else
        let tensor2 := tensor in
        out <- np_empty_rows (H * W) C ;;
        Ok (tensor2, out)) ;;
  foldM (fun out r =>
           foldM (toeplitz_pixel tensor2 ksize strides W channel_minor r)
                 (range W) out)
        (range H) out.

End Compute.

Arguments ndarray3 A : clear implicits.
Arguments recfield A : clear implicits.

(** ** Integer dtypes

    The conversion of an integer to a numpy integer dtype, as an array of
    that dtype stores a scalar that numpy reads as a 64-bit integer: the
    value is reduced modulo [2^bits], into the signed or the unsigned
    range. *)
Inductive int_dtype : Type :=
| int8 | uint8 | int16 | uint16 | int32 | uint32 | int64 | uint64.

Definition bits (d : int_dtype) : Z :=
  match d with
  | int8 | uint8 => 8
  | int16 | uint16 => 16
  | int32 | uint32 => 32
  | int64 | uint64 => 64
  end.

Definition signed (d : int_dtype) : bool :=
  match d with
  | int8 | int16 | int32 | int64 => true
  | uint8 | uint16 | uint32 | uint64 => false
  end.

Definition astype_int (d : int_dtype) (z : Z) : Z :=
  let m := (2 ^ bits d)%Z in
  if signed d then ((z + m / 2) mod m - m / 2)%Z else (z mod m)%Z.

(** ** Reassembling a chunk grid

    The reconstruction the tiling-exactness property speaks of: the row
    groups of each column group are concatenated vertically, then the
    column groups horizontally. *)
Definition reassemble {A : Type} (grid : list (list (matrix A)))
  : result (matrix A) :=
  cols <- mapM vstack grid ;;
  hstack cols.

(** ** The two loops read on shapes

    What the column loop and the row loop do to a shape [(r, c)]; both
    [split_matrix_into_chunks] and [split_shape_into_chunks] are compared
    with these. *)
Definition shape_columns (W : Z) (shp : nat * nat) : result (list (nat * nat)) :=
  let '(r, c) := shp in
  if (Z.of_nat c >? W)%Z then
    reps <- ceil_reps (Z.of_nat c) W ;;
    Ok (map (fun i => (r, slice_len c (W * i) (W * i + W))) (range reps))
  else Ok [(r, c)].

Definition shape_rows (H : Z) (shp : nat * nat) : result (list (nat * nat)) :=
  let '(r, c) := shp in
  if (Z.of_nat r >? H)%Z then
    reps <- ceil_reps (Z.of_nat r) H ;;
    Ok (map (fun i => (slice_len r (H * i) (H * i + H), c)) (range reps))
  else Ok [(r, c)].

(** ** Reading an emitted subgraph *)

Section Subgraphs.

Context {A : Type}.

Definition is_matmul (n : node A) : bool :=
  match operator n with gemm _ => true | _ => false end.

Definition is_slice (n : node A) : bool :=
  match operator n with slicer _ => true | _ => false end.

Definition is_add (n : node A) : bool :=
  match operator n with add => true | _ => false end.

Definition is_concat (n : node A) : bool :=
  match operator n with cat _ => true | _ => false end.

Definition count (p : node A -> bool) (nodes : list (node A)) : nat :=
  length (filter p nodes).

(** The primary output identifier of a node, [cnode.outputs[0]]. *)
Definition primary_output (cnode : node A) : string :=
  hd EmptyString (outputs cnode).

(** The edge naming convention: the role of a generated edge with its chunk
    indices, and the identifier it gets from the primary output. *)
Inductive role : Type :=
| Tplitz
| SlicerOut (i j : nat)
| GemmOut (i j : nat)
| AdderOut (i : nat)
| CatOut.

Definition edge_name (out0 : string) (r : role) : string :=
  match r with
  | Tplitz => out0 ++ "_tplitz"
  | SlicerOut i j => out0 ++ "_slicer_" ++ str i ++ "-" ++ str j
  | GemmOut i j => out0 ++ "_gemm_" ++ str i ++ "-" ++ str j
  | AdderOut i => out0 ++ "_adder_" ++ str i
  | CatOut => out0 ++ "_cat"
  end%string.

(** The MatMul node of chunk [(i, j)] as an emitter leaves it: reading the
    slicer of the chunk, tagged with [tag], and carrying the bias chunk [b]
    exactly when [j] is the last of the [rowgroups] row groups of its column
    group. *)
Definition matmul_of_chunk (tag : option string) (out0 : string) (b : list A)
  (rowgroups : nat) (i : nat) (jm : nat * matrix A) : node A :=
  let '(j, m) := jm in
  mk_node (gemm m)
          [edge_name out0 (SlicerOut i j)] [edge_name out0 (GemmOut i j)]
          (if Nat.eqb (j + 1) rowgroups then Some (Arr1 b) else None)
          tag.

Definition expected_matmuls (tag : option string) (out0 : string)
  (subbiases : list (list A))
  (grid : list (list (matrix A))) : list (node A) :=
  flat_map (fun ic : nat * list (matrix A) =>
              let '(i, col) := ic in
              map (matmul_of_chunk tag out0 (nth i subbiases []) (length col) i)
                  (enumerate col))
           (enumerate grid).

(** The slicer and the MatMul node that one pass of the inner loop appends. *)
Definition chunk_nodes (out0 : string) (slicer_inputs : list string) (H : Z)
  (i : nat) (jm : nat * matrix A) : list (node A) :=
  let '(j, m) := jm in
  [ slicer_node slicer_inputs [edge_name out0 (SlicerOut i j)]
                (H * Z.of_nat j, H * Z.of_nat j + H)%Z;
    gemm_node [edge_name out0 (SlicerOut i j)]
              [edge_name out0 (GemmOut i j)] m ].

End Subgraphs.

(** ** Reading a lowered window

    [padded_at] is the input tensor seen through its border of width one:
    padded row [y] and column [x] lie outside the tensor when [y] or [x] is
    zero or beyond its height or width.  [receptive_row] lists the 3x3xC
    field of output pixel [(r, c)], channels outermost or innermost. *)

Section WindowSpec.

Context {A : Type}.

Variable uninit : A.

Definition out_of_bounds (in_tensor : ndarray3 A) (y x : nat) : bool :=
  let '(_, h, w) := shape3 in_tensor in
  (y =? 0)%nat || (x =? 0)%nat || (h <? y)%nat || (w <? x)%nat.

Definition padded_at (in_tensor : ndarray3 A) (zero_point : A)
  (y x ch : nat) : A :=
  if out_of_bounds in_tensor y x then zero_point
  else get3 uninit in_tensor ch (y - 1) (x - 1).

Definition receptive_row (in_tensor : ndarray3 A) (zero_point : A)
  (strides : nat) (channel_minor : bool) (r c : nat) : list A :=
  let '(C, _, _) := shape3 in_tensor in
  let field y x ch :=
    padded_at in_tensor zero_point (strides * r + y) (strides * c + x) ch in
  if channel_minor then
    flat_map (fun y =>
      flat_map (fun x => map (fun ch => field y x ch) (seq 0 C)) (seq 0 3))
      (seq 0 3)
  else
    flat_map (fun ch =>
      flat_map (fun y => map (fun x => field y x ch) (seq 0 3)) (seq 0 3))
      (seq 0 C).

(** The rows of the lowered matrix for the first [ho] output rows, [wo]
    output pixels each. *)
Definition lowered_rows (in_tensor : ndarray3 A) (zero_point : A)
  (strides : nat) (channel_minor : bool) (wo ho : nat) : list (list A) :=
  flat_map (fun r =>
              map (receptive_row in_tensor zero_point strides channel_minor r)
                  (seq 0 wo))
           (seq 0 ho).

End WindowSpec.

(** ** Counting tiles

    [ceildiv n w] is the ceiling of [n / w]; [groups n w] is the number of
    groups either loop of the tilers makes of [n] rows or columns under a
    limit [w]: one when [n] fits, the ceiling otherwise. *)
Definition ceildiv (n w : nat) : nat := (n + w - 1) / w.

Definition groups (n w : nat) : nat :=
  if (w <? n)%nat then ceildiv n w else 1.

(** [m[rlo:rhi, clo:chi]] *)
Definition submatrix {A : Type} (m : matrix A) (rlo rhi clo chi : Z)
  : matrix A :=
  row_slice (col_slice m clo chi) rlo rhi.

(** The entries a shape or a list of shapes holds. *)
Definition area (shp : nat * nat) : nat := fst shp * snd shp.

Definition total_area (shapes : list (nat * nat)) : nat :=
  list_sum (map area shapes).

(** [m[r, c]], when it exists. *)
Definition entry {A : Type} (m : matrix A) (r c : nat) : option A :=
  match nth_error (rows m) r with
  | Some row => nth_error row c
  | None => None
  end.

(** ** splitter.py: planning a list of shapes *)

Section ShapeList.

Context {A : Type}.

(** [np.array(chunk_shape_list).reshape(-1,2)]: the nested list of pairs
    becomes an array of shape (columns, rows, 2), read back as its pairs in
    order; numpy (1.24 and later) refuses a nested list whose inner lists
    differ in length. *)
Definition array_reshape_pairs (chunk_shape_list : list (list (nat * nat)))
  : result (list (nat * nat)) :=
  match chunk_shape_list with
  | [] => Ok []
  | c :: cs =>
      if forallb (fun c' => Nat.eqb (length c') (length c)) cs
      then Ok (concat chunk_shape_list)
      else Raise ValueError
  end.

Definition split_shapelist_into_chunks (uninit : A)
  (shapelist : list (nat * nat)) (H W : Z) : result (list (nat * nat)) :=
  foldM (fun outlist shp =>
           chunk_shape_list <- split_shape_into_chunks uninit shp H W ;;
           flat <- array_reshape_pairs chunk_shape_list ;;
           Ok (outlist ++ flat))
        shapelist [].

End ShapeList.

(** A shape fits a tile of [H] rows and [W] columns. *)
Definition fits_tile (H W : Z) (shp : nat * nat) : Prop :=
  (Z.of_nat (fst shp) <= H)%Z /\ (Z.of_nat (snd shp) <= W)%Z.

(** The tiles [split_shape_into_chunks] makes of one shape, column group by
    column group. *)
Definition tiles_of (H W : Z) (shp : nat * nat) : list (nat * nat) :=
  flat_map (fun i =>
    map (fun j => (slice_len (fst shp) (H * j) (H * j + H),
                   slice_len (snd shp) (W * i) (W * i + W)))
        (range (Z.of_nat (groups (fst shp) (Z.to_nat H)))))
    (range (Z.of_nat (groups (snd shp) (Z.to_nat W)))).

(** The entries of a bias: a scalar counts as a vector of one. *)
Definition entries {A : Type} (vector : ndarray1 A) : list A :=
  match vector with
  | Scalar x => [x]
  | Arr1 l => l
  end.

(** ** Putting channel groups back together *)

Section ChannelConcat.

Context {A : Type}.

(** The kernel holds [shape[0]] output channels of [shape[1]] input
    channels each. *)
Definition wf_kernel (k : kernel A) : Prop :=
  let '(o, c, _, _) := kshape k in
  length (kdata k) = o /\ Forall (fun per_out => length per_out = c) (kdata k).

(** [np.concatenate([a, b], axis=1)] on kernels: the other three axes have
    to agree. *)
Definition concat_channels2 (a b : kernel A) : result (kernel A) :=
  let '(oa, ca, fya, fxa) := kshape a in
  let '(ob, cb, fyb, fxb) := kshape b in
  if Nat.eqb oa ob && Nat.eqb fya fyb && Nat.eqb fxa fxb
  then Ok {| kshape := (oa, ca + cb, fya, fxa);
             kdata := zip_app (kdata a) (kdata b) |}
  else Raise ValueError.

Definition concat_channels (ks : list (kernel A)) : result (kernel A) :=
  match ks with
  | [] => Raise ValueError
  | k :: ks' => foldM concat_channels2 ks' k
  end.

End ChannelConcat.

(** ** splitter.py: the channel emitters *)

Section ChannelEmitters.

Context {A : Type}.

(** Modelled from the spec: [cnodes.channel_slicing_node(inputs=, outputs=,
    channel_lim_low=, channel_lim_high=, channel_minor=)]. *)
Record channel_slicing_node : Type := mk_channel_slicing_node {
  cs_inputs : list string;
  cs_outputs : list string;
  channel_lim_low : Z;
  channel_lim_high : Z;
  cs_channel_minor : bool
}.

(** Modelled from the spec: [cnodes.conv_node(inputs=, outputs=, kernel=,
    strides=, biases=, channel_minor=)] as [split_conv_into_channels] calls
    it, the bias being one entry of the original bias or [None]. *)
Record channel_conv_node : Type := mk_channel_conv_node {
  cc_inputs : list string;
  cc_outputs : list string;
  cc_kernel : kernel A;
  cc_strides : Z;
  cc_biases : option A;
  cc_channel_minor : bool
}.

Definition attr_kernel (n : node A) : result (kernel A) :=
  match operator n with
  | conv k _ _ _ => Ok k
  | _ => Raise AttributeError
  end.

Definition attr_channel_minor (n : node A) : result bool :=
  match operator n with
  | conv _ _ _ cm => Ok cm
  | _ => Raise AttributeError
  end.

(** [cnode.biases[i] if cnode.biases is not None else None]; a
    zero-dimensional array cannot be indexed. *)
Definition bias_entry (b : option (ndarray1 A)) (i : nat)
  : result (option A) :=
  match b with
  | None => Ok None
  | Some (Scalar _) => Raise IndexError
  | Some (Arr1 l) => x <- index l (Z.of_nat i) ;; Ok (Some x)
  end.

(** Body of [for i,kernel_subC in enumerate(kernels)]. *)
Definition channel_group (cnode : node A) (C : Z)
  (nodes : list (channel_slicing_node + channel_conv_node))
  (ik : nat * kernel A)
  : result (list (channel_slicing_node + channel_conv_node)) :=
  let '(i, kernel_subC) := ik in
  out0 <- index (outputs cnode) 0 ;;
  let channel_slicer_output := (out0 ++ "_ch_" ++ str i)%string in
  let conv_output := (out0 ++ "_conv_ch_" ++ str i)%string in
  channel_minor <- attr_channel_minor cnode ;;
  let channel_slicer :=
    mk_channel_slicing_node (inputs cnode) [channel_slicer_output]
      (C * Z.of_nat i) (C * Z.of_nat i + C) channel_minor in
  strides <- attr_strides cnode ;;
  b <- bias_entry (biases cnode) i ;;
  let new_conv :=
    mk_channel_conv_node [channel_slicer_output] [conv_output] kernel_subC
      strides b channel_minor in
  let nodes := nodes ++ [inl channel_slicer] in
  let nodes := nodes ++ [inr new_conv] in
  Ok nodes.

(** [split_conv_into_channels]: the function ends in a bare [return], so
    past the first test it hands back [None]. *)
Definition split_conv_into_channels (cnode : node A) (C : Z)
  : result (option (list (node A))) :=
  kernel <- attr_kernel cnode ;;
  kernels <- split_kernel_into_channels kernel C ;;
  if Nat.eqb (length kernels) 1 then Ok (Some [cnode])
  else
    nodes <- foldM (channel_group cnode C) (enumerate kernels) [] ;;
    Ok None.

(** Modelled from the spec: a [cnodes.dwc_node], of which
    [split_dwc_into_chunks] reads the kernel, the strides and the edges. *)
Record dwc_node : Type := mk_dwc_node {
  dwc_kernel : kernel A;
  dwc_strides : Z;
  dwc_inputs : list string;
  dwc_outputs : list string
}.

(** How a call of [split_dwc_into_chunks] ends: with a value, with one of
    the exceptions above, or with the [NameError] of a name that is bound
    nowhere. *)
Inductive outcome (T : Type) : Type :=
| Returns (v : T)
| Raises (e : exn)
| NameError (name : string).

Arguments Returns {T} v.
Arguments Raises {T} e.
Arguments NameError {T} name.

(** [split_dwc_into_chunks]: the call that builds the toeplitzizer node
    passes [ksize=ksize], and [ksize] is bound neither in the function nor
    in the module, so the call raises [NameError] while its arguments are
    evaluated ([cnode.inputs] and the output edge come first); no statement
    after it is reached. *)
Definition split_dwc_into_chunks (cnode : dwc_node) (C : Z)
  : outcome (list dwc_node) :=
  match split_kernel_into_channels (dwc_kernel cnode) C with
  | Raise e => Raises e
  | Ok subkernels =>
      let strides := dwc_strides cnode in
      if Nat.eqb (length subkernels) 1 then Returns [cnode]
      else
        match index (dwc_outputs cnode) 0 with
        | Raise e => Raises e
        | Ok out0 =>
            let tplitz_output_edge := (out0 ++ "_tplitz")%string in
            NameError "ksize"
        end
  end.

End ChannelEmitters.

Arguments Returns {T} v.
Arguments Raises {T} e.
Arguments NameError {T} name.

(** ** The shape of an emitted subgraph

    [wiring] is what a node computes on which edges: its operator with its
    inputs and outputs, leaving out the bias and the provenance tag that
    the emitters set afterwards.  [gemm_plan] and [conv_plan] lay out the
    subgraph of a grid of chunks, column group by column group. *)

Section Plans.

Context {A : Type}.

Definition wiring (n : node A) : op A * list string * list string :=
  (operator n, inputs n, outputs n).

(** The partial products of column group [i]. *)
Definition addends (out0 : string) (i : nat) (l : list (nat * matrix A))
  : list string :=
  map (fun jm => edge_name out0 (GemmOut i (fst jm))) l.

Definition gemm_column_plan (out0 : string) (ins : list string) (H : Z)
  (ic : nat * list (matrix A)) : list (node A) :=
  let '(i, col) := ic in
  flat_map (chunk_nodes out0 ins H i) (enumerate col)
    ++ [add_node (addends out0 i (enumerate col))
                 [edge_name out0 (AdderOut i)]].

Definition gemm_plan (cnode : node A) (H : Z) (grid : list (list (matrix A)))
  : list (node A) :=
  let out0 := primary_output cnode in
  flat_map (gemm_column_plan out0 (inputs cnode) H) (enumerate grid)
    ++ [cat_node (map (fun ic => edge_name out0 (AdderOut (fst ic)))
                      (enumerate grid))
                 (outputs cnode) 0].

Definition conv_column_plan (out0 : string) (H : Z)
  (ic : nat * list (matrix A)) : list (node A) :=
  let '(i, col) := ic in
  flat_map (chunk_nodes out0 [edge_name out0 Tplitz] H i) (enumerate col)
    ++ (if Nat.ltb 1 (length col)
        then [add_node (addends out0 i (enumerate col))
                       [edge_name out0 (AdderOut i)]]
        else []).

(** What column group [i] hands to the final concatenation: its sum, or
    its partial products when there is no sum. *)
Definition conv_column_result (out0 : string) (ic : nat * list (matrix A))
  : list string :=
  let '(i, col) := ic in
  if Nat.ltb 1 (length col) then [edge_name out0 (AdderOut i)]
  else addends out0 i (enumerate col).

Definition conv_plan (cnode : node A) (ksize strides : Z) (channels : nat)
  (H : Z) (grid : list (list (matrix A))) : list (node A) :=
  let out0 := primary_output cnode in
  [toeplitzizer_node (inputs cnode) [edge_name out0 Tplitz] ksize strides]
    ++ flat_map (conv_column_plan out0 H) (enumerate grid)
    ++ [cat_node (flat_map (conv_column_result out0) (enumerate grid))
                 [edge_name out0 CatOut] (-1);
        reshaper_node [edge_name out0 CatOut] (outputs cnode) channels].

(** A node sequence is wired when every node reads only edges that are
    available: the edges in [avail] and the outputs of earlier nodes. *)
Fixpoint wired (avail : list string) (nodes : list (node A)) : Prop :=
  match nodes with
  | [] => True
  | n :: rest => incl (inputs n) avail /\ wired (outputs n ++ avail) rest
  end.

Definition is_toeplitz (n : node A) : bool :=
  match operator n with toeplitzizer _ _ => true | _ => false end.

Definition is_reshape (n : node A) : bool :=
  match operator n with reshaper _ => true | _ => false end.

(** The six operator counts of a node list that holds no convolution. *)
Definition census (l : list (node A)) : nat * nat * nat * nat * nat * nat :=
  (count is_toeplitz l, count is_slice l, count is_matmul l,
   count is_add l, count is_concat l, count is_reshape l).

End Plans.

Definition census_add (a b : nat * nat * nat * nat * nat * nat)
  : nat * nat * nat * nat * nat * nat :=
  let '(a1, a2, a3, a4, a5, a6) := a in
  let '(b1, b2, b3, b4, b5, b6) := b in
  (a1 + b1, a2 + b2, a3 + b3, a4 + b4, a5 + b5, a6 + b6).

(** ** The edges a subgraph writes

    The roles of the edges that the loop over column group [(i, col)]
    writes: a slicer and a partial product per chunk, and the sum of the
    group when the emitter makes one. *)

Section Roles.

Context {A : Type}.

Definition chunk_roles (i : nat) (jm : nat * matrix A) : list role :=
  [SlicerOut i (fst jm); GemmOut i (fst jm)].

Definition column_roles (with_sum : list (matrix A) -> bool)
  (ic : nat * list (matrix A)) : list role :=
  let '(i, col) := ic in
  flat_map (chunk_roles i) (enumerate col)
    ++ (if with_sum col then [AdderOut i] else []).

End Roles.

(** The column group and the row group a role belongs to. *)
Definition role_column (r : role) : nat :=
  match r with
  | SlicerOut i _ | GemmOut i _ | AdderOut i => i
  | Tplitz | CatOut => 0
  end.

Definition role_row (r : role) : nat :=
  match r with
  | SlicerOut _ j | GemmOut _ j => j
  | _ => 0
  end.

Definition of_column (r : role) : bool :=
  match r with
  | SlicerOut _ _ | GemmOut _ _ | AdderOut _ => true
  | Tplitz | CatOut => false
  end.

Fixpoint has_dash (s : string) : bool :=
  match s with
  | EmptyString => false
  | String c s' => Ascii.eqb c "-" || has_dash s'
  end.

(** ** onnx_utils.py: looking up and replacing initializers

    The protobuf messages are records with the fields the helpers read; a
    raised exception is the left case of a sum.  The model is mutated in
    place by the source, so the helpers that change it return the new
    model. *)

Module Onnx.

Inductive error : Type :=
| LookupError (message : string)
| IndexError.

Section Protos.

(** The payload of a tensor and the value of an attribute. *)
Variables V W : Type.

Record TensorProto : Type := mk_tensor {
  tensor_name : string;
  raw_data : V
}.

Record AttributeProto : Type := mk_attribute {
  attribute_name : string;
  attribute_value : W
}.

Record NodeProto : Type := mk_node_proto {
  op_type : string;
  input : list string;
  output : list string;
  attribute : list AttributeProto
}.

Record ValueInfoProto : Type := mk_value_info {
  value_name : string
}.

Record GraphProto : Type := mk_graph {
  initializer : list TensorProto;
  node : list NodeProto;
  graph_output : list ValueInfoProto
}.

Record ModelProto : Type := mk_model {
  graph : GraphProto
}.

(** The loop [for init in initializers: if init.name == name: return init] *)
Fixpoint first_named (inits : list TensorProto) (name : string)
  : option TensorProto :=
  match inits with
  | [] => None
  | init :: rest =>
      if String.eqb (tensor_name init) name then Some init
      else first_named rest name
  end.

(** [is_initializer]: the string ['initializer'], or [False]. *)
Definition is_initializer (onnx_model : ModelProto) (name : string)
  : string + bool :=
  match first_named (initializer (graph onnx_model)) name with
  | Some _ => inl "initializer"
  | None => inr false
  end.

Definition get_initializer_by_name (onnx_model : ModelProto) (name : string)
  : error + TensorProto :=
  match first_named (initializer (graph onnx_model)) name with
  | Some init => inr init
  | None =>
      inl (LookupError ("Could not find initializer with name " ++ name))
  end.

(** The loop of [get_node_by_output]: [node.output[0]] raises on a node
    without outputs. *)
Fixpoint first_writing (nodes : list NodeProto) (output_name : string)
  : error + NodeProto :=
  match nodes with
  | [] => inl (LookupError ("Could not find node with output " ++ output_name))
  | n :: rest =>
      match output n with
      | [] => inl IndexError
      | o :: _ =>
          if String.eqb o output_name then inr n
          else first_writing rest output_name
      end
  end.

Definition get_node_by_output (onnx_model : ModelProto) (output_name : string)
  : error + NodeProto :=
  first_writing (node (graph onnx_model)) output_name.

(** The loop of [delete_initializer_by_name]: the first match is deleted
    and the loop left. *)
Fixpoint delete_first (inits : list TensorProto) (initializer_name : string)
  : list TensorProto :=
  match inits with
  | [] => []
  | init :: rest =>
      if String.eqb (tensor_name init) initializer_name then rest
      else init :: delete_first rest initializer_name
  end.

Definition delete_initializer_by_name (model : ModelProto)
  (initializer_name : string) : ModelProto :=
  mk_model (mk_graph (delete_first (initializer (graph model)) initializer_name)
                     (node (graph model)) (graph_output (graph model))).

(** [randomize_initializer_to_binary], given the array [new_value] that
    [np.random.randint] draws: the tensor is looked up, deleted, and a
    tensor of the same name with the drawn value is appended. *)
Definition randomize_initializer_to_binary (model : ModelProto)
  (initializer_name : string) (new_value : V) : error + ModelProto :=
  match get_initializer_by_name model initializer_name with
  | inl e => inl e
  | inr _ =>
      let tensor := mk_tensor initializer_name new_value in
      let model := delete_initializer_by_name model initializer_name in
      inr (mk_model (mk_graph (initializer (graph model) ++ [tensor])
                              (node (graph model))
                              (graph_output (graph model))))
  end.

End Protos.

End Onnx.

(** ** Sample inputs *)

Module Samples.

Definition m2x3 : matrix Z :=
  {| ncols := 3; rows := [[1; 2; 3]; [4; 5; 6]]%Z |}.

Definition m1x1 : matrix Z := {| ncols := 1; rows := [[7]]%Z |}.

Definition m1x5 : matrix Z := {| ncols := 5; rows := [[1; 2; 3; 4; 5]]%Z |}.

Definition m5x1 : matrix Z :=
  {| ncols := 1; rows := [[1]; [2]; [3]; [4]; [5]]%Z |}.

(** The 4x10 scenario: weight [m4x10], bias of length 10. *)
Definition m4x10 : matrix Z :=
  {| ncols := 10; rows := repeat (map Z.of_nat (seq 0 10)) 4 |}.

Definition bias10 : list Z := map Z.of_nat (seq 100 10).

Definition gemm4x10 : node Z :=
  mk_node (gemm m4x10) ["x"] ["y"] (Some (Arr1 bias10)) None.

(** A pointwise convolution whose flattened weight is 5x6: with [H = 2] and
    [W = 4] it has two column groups of three row groups each. *)
Definition m5x6 : matrix Z :=
  {| ncols := 6; rows := repeat (map Z.of_nat (seq 0 6)) 5 |}.

Definition bias6 : list Z := map Z.of_nat (seq 100 6).

Definition k6x5 : kernel Z :=
  {| kshape := (6, 5, 1, 1); kdata := repeat (repeat [[1%Z]] 5) 6 |}.

Definition conv5x6 : node Z :=
  mk_node (conv k6x5 m5x6 1 false) ["x"] ["y"] (Some (Arr1 bias6)) None.

Definition grid5x6 : list (list (matrix Z)) :=
  Eval vm_compute in
    match split_matrix_into_chunks m5x6 2 4 with
    | Ok grid => grid
    | Raise _ => []
    end.

(** A kernel with a single input channel. *)
Definition k1x1 : kernel Z :=
  {| kshape := (1, 1, 1, 1); kdata := [[[[1%Z]]]] |}.

(** One-channel tensors: 2x2 and 1x1. *)
Definition t1x2x2 : ndarray3 Z :=
  {| shape3 := (1, 2, 2); data3 := [[[1; 2]; [3; 4]]]%Z |}.

Definition t1x1x1 : ndarray3 Z :=
  {| shape3 := (1, 1, 1); data3 := [[[7]]]%Z |}.

End Samples.

(** ** Further sample inputs *)

Module MoreSamples.

(** A two-channel 2x2 tensor. *)
Definition t2x2x2 : ndarray3 Z :=
  {| shape3 := (2, 2, 2);
     data3 := [[[1; 2]; [3; 4]]; [[5; 6]; [7; 8]]]%Z |}.

(** The pointwise convolution of [Samples], without a bias. *)
Definition conv5x6_nobias : node Z :=
  mk_node (conv Samples.k6x5 Samples.m5x6 1 false) ["x"] ["y"] None None.

End MoreSamples.

(** * Properties *)

(** ** The error monad *)

Lemma bind_Ok_inv {T U : Type} (c : result T) (k : T -> result U) (u : U) :
  bind c k = Ok u -> exists v, c = Ok v /\ k v = Ok u.
Proof. destruct c as [v|e]; simpl; intros E; [eauto | discriminate]. Qed.

Lemma mapM_Ok_map {T U : Type} (f : T -> result U) (g : T -> U) (l : list T) :
  (forall x, In x l -> f x = Ok (g x)) -> mapM f l = Ok (map g l).
Proof.
  induction l as [|x l IH]; simpl; intros Hf; [reflexivity|].
  rewrite Hf by auto. simpl. rewrite IH by auto. reflexivity.
Qed.

Lemma mapM_length {T U : Type} (f : T -> result U) (l : list T) (r : list U) :
  mapM f l = Ok r -> length r = length l.
Proof.
  revert r. induction l as [|x l IH]; simpl; intros r E.
  - inversion E. reflexivity.
  - apply bind_Ok_inv in E. destruct E as (y & _ & E).
    apply bind_Ok_inv in E. destruct E as (ys & E1 & E2).
    inversion E2. simpl. f_equal. auto.
Qed.

(** ** Slices, ranges and the ceiling count *)

Lemma slice_bound_nat (n : nat) (a : nat) :
  slice_bound (Z.of_nat n) (Z.of_nat a) = Nat.min a n.
Proof.
  unfold slice_bound.
  destruct (Z.ltb_spec (Z.of_nat a) 0); lia.
Qed.

Lemma firstn_add_skipn {T : Type} (a b : nat) (l : list T) :
  firstn (a + b) l = firstn a l ++ firstn b (skipn a l).
Proof.
  revert l. induction a as [|a IH]; intros l; simpl; [reflexivity|].
  destruct l as [|x l]; simpl.
  - now rewrite firstn_nil.
  - now rewrite IH.
Qed.

Lemma slice_nat {T : Type} (l : list T) (a b : nat) :
  a <= b ->
  slice l (Z.of_nat a) (Z.of_nat b) = firstn (b - a) (skipn a l).
Proof.
  intros Hab. unfold slice, slice_len. rewrite !slice_bound_nat.
  destruct (Nat.le_gt_cases (length l) a) as [Hge|Hlt].
  - rewrite Nat.min_r by lia. rewrite !skipn_all2 by lia.
    now rewrite !firstn_nil.
  - rewrite (Nat.min_l a) by lia.
    destruct (Nat.le_gt_cases b (length l)) as [Hb|Hb].
    + now rewrite Nat.min_l by lia.
    + rewrite Nat.min_r by lia.
      rewrite !firstn_all2; try reflexivity; rewrite length_skipn; lia.
Qed.

Lemma slice_len_nat (n a b : nat) :
  a <= b -> slice_len n (Z.of_nat a) (Z.of_nat b) = Nat.min b n - Nat.min a n.
Proof. intros _. unfold slice_len. now rewrite !slice_bound_nat. Qed.

Lemma slice_length {T : Type} (l : list T) (lo hi : Z) :
  length (slice l lo hi) = slice_len (length l) lo hi.
Proof.
  unfold slice, slice_len.
  set (a := slice_bound (Z.of_nat (length l)) lo).
  set (b := slice_bound (Z.of_nat (length l)) hi).
  rewrite length_firstn, length_skipn.
  assert (b <= length l).
  { unfold b, slice_bound. destruct (Z.ltb_spec hi 0); lia. }
  lia.
Qed.

(** The [k]-th chunk of width [W]. *)
Lemma chunk_bounds (W : Z) (k : nat) :
  (0 < W)%Z ->
  (W * Z.of_nat k)%Z = Z.of_nat (Z.to_nat W * k) /\
  (W * Z.of_nat k + W)%Z = Z.of_nat (Z.to_nat W * k + Z.to_nat W).
Proof. intros HW. split; nia. Qed.

Lemma chunk_slice {T : Type} (l : list T) (W : Z) (k : nat) :
  (0 < W)%Z ->
  slice l (W * Z.of_nat k) (W * Z.of_nat k + W)
  = firstn (Z.to_nat W) (skipn (Z.to_nat W * k) l).
Proof.
  intros HW. destruct (chunk_bounds k HW) as [E1 E2]. rewrite E2, E1.
  rewrite slice_nat by lia. f_equal. lia.
Qed.

Lemma chunk_slice_len (n : nat) (W : Z) (k : nat) :
  (0 < W)%Z ->
  slice_len n (W * Z.of_nat k) (W * Z.of_nat k + W)
  = Nat.min (Z.to_nat W * k + Z.to_nat W) n - Nat.min (Z.to_nat W * k) n.
Proof.
  intros HW. destruct (chunk_bounds k HW) as [E1 E2]. rewrite E2, E1.
  apply slice_len_nat. lia.
Qed.

(** For a positive limit the count is the ceiling of [n / W]. *)
Lemma ceil_reps_pos (n : nat) (W : Z) :
  (0 < W)%Z ->
  exists reps : nat,
    ceil_reps (Z.of_nat n) W = Ok (Z.of_nat reps) /\
    n <= Z.to_nat W * reps /\
    (n = 0 -> reps = 0) /\
    (0 < n -> Z.to_nat W * (reps - 1) < n /\ 0 < reps).
Proof.
  intros HW. unfold ceil_reps, floordiv, modulo.
  destruct (Z.eqb_spec W 0) as [->|_]; [lia|]. simpl.
  pose proof (Z.div_mod (Z.of_nat n) W ltac:(lia)) as Hdm.
  pose proof (Z.mod_pos_bound (Z.of_nat n) W HW) as Hm.
  assert (0 <= Z.of_nat n / W)%Z by (apply Z.div_pos; lia).
  destruct (Z.eqb_spec (Z.of_nat n mod W) 0) as [E0|N0].
  - exists (Z.to_nat (Z.of_nat n / W)). split; [f_equal; lia|].
    repeat split; try nia.
  - exists (Z.to_nat (Z.of_nat n / W + 1)). split; [f_equal; lia|].
    repeat split; nia.
Qed.

Lemma range_of_nat (n : nat) : range (Z.of_nat n) = map Z.of_nat (seq 0 n).
Proof. unfold range. now rewrite Nat2Z.id. Qed.

Lemma concat_chunks {T : Type} (w : nat) (l : list T) (n : nat) :
  concat (map (fun k => firstn w (skipn (w * k) l)) (seq 0 n))
  = firstn (w * n) l.
Proof.
  induction n as [|n IH].
  - simpl. now rewrite Nat.mul_0_r.
  - rewrite seq_S, map_app, concat_app, IH. simpl. rewrite app_nil_r.
    replace (w * S n) with (w * n + w) by lia.
    now rewrite firstn_add_skipn.
Qed.

(** ** MatrixTiler: splitting and reassembling *)

Section MatrixTiler.

Context {A : Type}.
Implicit Types (m mat : matrix A).

Lemma vstack_row_chunks m (H : Z) (n k : nat) :
  (0 < H)%Z ->
  foldM vstack2
    (map (fun i => row_slice m (H * i) (H * i + H)) (map Z.of_nat (seq k n)))
    {| ncols := ncols m; rows := firstn (Z.to_nat H * k) (rows m) |}
  = Ok {| ncols := ncols m; rows := firstn (Z.to_nat H * (k + n)) (rows m) |}.
Proof.
  intros HH. revert k. induction n as [|n IH]; intros k; simpl.
  - now rewrite Nat.add_0_r.
  - unfold vstack2 at 1. simpl. rewrite Nat.eqb_refl. simpl.
    rewrite chunk_slice by assumption.
    rewrite <- firstn_add_skipn.
    replace (Z.to_nat H * k + Z.to_nat H) with (Z.to_nat H * S k) by lia.
    rewrite IH. now replace (S k + n) with (k + S n) by lia.
Qed.

Lemma split_rows_vstack (H : Z) mat :
  (0 < H)%Z ->
  exists col, split_rows H mat = Ok col /\ vstack col = Ok mat.
Proof.
  intros HH. unfold split_rows.
  destruct (Z.gtb_spec (Z.of_nat (nrows mat)) H) as [Hgt|Hle].
  - destruct (ceil_reps_pos (nrows mat) HH) as (reps & -> & Hcov & _ & Hpos).
    simpl. eexists. split; [reflexivity|].
    destruct Hpos as [_ Hpos]; [lia|].
    rewrite range_of_nat. destruct reps as [|reps]; [lia|].
    simpl. unfold vstack, concatenate.
    pose proof (vstack_row_chunks mat reps 1 HH) as E.
    rewrite Nat.mul_1_r in E.
    replace (row_slice mat (H * 0) (H * 0 + H))
      with {| ncols := ncols mat; rows := firstn (Z.to_nat H) (rows mat) |}.
    + rewrite <- seq_shift, map_map in E. rewrite <- seq_shift, map_map.
      rewrite E. destruct mat as [c rs]. simpl. f_equal. f_equal.
      apply firstn_all2. unfold nrows in Hcov. simpl in *. lia.
    + unfold row_slice. f_equal.
      change 0%Z with (Z.of_nat 0). rewrite chunk_slice by assumption.
      now rewrite Nat.mul_0_r.
  - exists [mat]. split; reflexivity.
Qed.

Lemma zip_app_map {T : Type} (f g : T -> list A) (l : list T) :
  zip_app (map f l) (map g l) = map (fun x => f x ++ g x) l.
Proof. induction l as [|x l IH]; simpl; [reflexivity | now rewrite IH]. Qed.

Lemma hstack_col_chunks m (W : Z) (n k : nat) :
  (0 < W)%Z ->
  foldM hstack2
    (map (fun i => col_slice m (W * i) (W * i + W)) (map Z.of_nat (seq k n)))
    {| ncols := Nat.min (Z.to_nat W * k) (ncols m);
       rows := map (firstn (Z.to_nat W * k)) (rows m) |}
  = Ok {| ncols := Nat.min (Z.to_nat W * (k + n)) (ncols m);
          rows := map (firstn (Z.to_nat W * (k + n))) (rows m) |}.
Proof.
  intros HW. revert k. induction n as [|n IH]; intros k; simpl.
  - now rewrite Nat.add_0_r.
  - unfold hstack2 at 1, nrows. simpl. rewrite !length_map, Nat.eqb_refl.
    simpl. rewrite chunk_slice_len by assumption.
    rewrite zip_app_map.
    replace (map (fun x => firstn (Z.to_nat W * k) x
                           ++ slice x (W * Z.of_nat k) (W * Z.of_nat k + W))
                 (rows m))
      with (map (firstn (Z.to_nat W * S k)) (rows m)).
    + replace (Nat.min (Z.to_nat W * k) (ncols m)
               + (Nat.min (Z.to_nat W * k + Z.to_nat W) (ncols m)
                  - Nat.min (Z.to_nat W * k) (ncols m)))
        with (Nat.min (Z.to_nat W * S k) (ncols m)) by lia.
      rewrite IH. now replace (S k + n) with (k + S n) by lia.
    + apply map_ext. intros r. rewrite chunk_slice by assumption.
      rewrite <- firstn_add_skipn. f_equal. lia.
Qed.

Lemma split_columns_hstack (W : Z) m :
  (0 < W)%Z -> wf_matrix m ->
  exists out, split_columns m W = Ok out /\ hstack out = Ok m.
Proof.
  intros HW Hwf. unfold split_columns.
  destruct (Z.gtb_spec (Z.of_nat (ncols m)) W) as [Hgt|Hle].
  - destruct (ceil_reps_pos (ncols m) HW) as (reps & -> & Hcov & _ & Hpos).
    simpl. eexists. split; [reflexivity|].
    destruct Hpos as [_ Hpos]; [lia|].
    rewrite range_of_nat. destruct reps as [|reps]; [lia|].
    simpl. unfold hstack, concatenate.
    pose proof (hstack_col_chunks m reps 1 HW) as E.
    rewrite Nat.mul_1_r in E.
    replace (col_slice m (W * 0) (W * 0 + W))
      with {| ncols := Nat.min (Z.to_nat W) (ncols m);
              rows := map (firstn (Z.to_nat W)) (rows m) |}.
    + rewrite <- seq_shift, map_map in E. rewrite <- seq_shift, map_map.
      rewrite E. destruct m as [c rs]. unfold wf_matrix in Hwf. simpl in *.
      f_equal. f_equal; [lia|].
      rewrite <- (map_id rs) at 2. apply map_ext_in.
      intros r Hr. apply firstn_all2.
      rewrite Forall_forall in Hwf. rewrite (Hwf r Hr). lia.
    + unfold col_slice. change 0%Z with (Z.of_nat 0).
      rewrite chunk_slice_len by assumption. f_equal; [lia|].
      apply map_ext. intros r. rewrite chunk_slice by assumption.
      now rewrite Nat.mul_0_r.
  - exists [m]. split; reflexivity.
Qed.

Lemma mapM_split_rows_vstack (H : Z) (out : list (matrix A)) :
  (0 < H)%Z ->
  exists grid, mapM (split_rows H) out = Ok grid /\ mapM vstack grid = Ok out.
Proof.
  intros HH. induction out as [|mat out (grid & E1 & E2)]; simpl.
  - exists []. split; reflexivity.
  - destruct (split_rows_vstack mat HH) as (col & Ec & Ev).
    rewrite Ec, E1. simpl. eexists. split; [reflexivity|].
    simpl. rewrite Ev, E2. reflexivity.
Qed.

(** C1. For every (rectangular) matrix [m] and positive tile limits [H] and
    [W], [split_matrix_into_chunks] returns a chunk grid, and concatenating
    the row groups of each column group vertically, then the column groups
    horizontally, gives back [m] exactly. *)
Theorem split_matrix_reassemble m (H W : Z) :
  wf_matrix m -> (0 < H)%Z -> (0 < W)%Z ->
  exists grid,
    split_matrix_into_chunks m H W = Ok grid /\ reassemble grid = Ok m.
Proof.
  intros Hwf HH HW. unfold split_matrix_into_chunks, reassemble.
  destruct (split_columns_hstack HW Hwf) as (out & -> & Eh). simpl.
  destruct (mapM_split_rows_vstack out HH) as (grid & -> & Ev).
  exists grid. split; [reflexivity|]. rewrite Ev. exact Eh.
Qed.

End MatrixTiler.

(** ** ShapePlanner: the shapes of the chunks *)

Section ShapePlanner.

Context {A : Type}.
Implicit Types (m mat : matrix A).

Lemma shape_col_slice m (lo hi : Z) :
  shape (col_slice m lo hi) = (nrows m, slice_len (ncols m) lo hi).
Proof. unfold shape, nrows. simpl. now rewrite length_map. Qed.

Lemma shape_row_slice m (lo hi : Z) :
  shape (row_slice m lo hi) = (slice_len (nrows m) lo hi, ncols m).
Proof. unfold shape, nrows. simpl. now rewrite slice_length. Qed.

Lemma shape_np_empty (uninit : A) (shp : nat * nat) :
  shape (np_empty uninit shp) = shp.
Proof.
  destruct shp as [r c]. unfold shape, nrows. simpl.
  now rewrite repeat_length.
Qed.

Lemma split_columns_shapes (W : Z) m :
  (out <- split_columns m W ;; Ok (map shape out))
  = shape_columns W (shape m).
Proof.
  unfold split_columns, shape_columns, shape.
  destruct (Z.of_nat (ncols m) >? W)%Z; [|reflexivity].
  destruct (ceil_reps (Z.of_nat (ncols m)) W) as [reps|e]; [|reflexivity].
  simpl. rewrite map_map. f_equal. apply map_ext. intros i.
  apply shape_col_slice.
Qed.

Lemma split_rows_shapes (H : Z) mat :
  (col <- split_rows H mat ;; Ok (map shape col))
  = shape_rows H (shape mat).
Proof.
  unfold split_rows, shape_rows, shape.
  destruct (Z.of_nat (nrows mat) >? H)%Z; [|reflexivity].
  destruct (ceil_reps (Z.of_nat (nrows mat)) H) as [reps|e]; [|reflexivity].
  simpl. rewrite map_map. f_equal. apply map_ext. intros i.
  apply shape_row_slice.
Qed.

Lemma mapM_split_rows_shapes (H : Z) (out : list (matrix A)) :
  (grid <- mapM (split_rows H) out ;; Ok (map (fun c => map shape c) grid))
  = mapM (shape_rows H) (map shape out).
Proof.
  induction out as [|mat out IH]; [reflexivity|].
  cbn [mapM map]. rewrite <- split_rows_shapes, <- IH.
  destruct (split_rows H mat) as [col|e]; [|reflexivity].
  destruct (mapM (split_rows H) out) as [grid|e]; reflexivity.
Qed.

(** The shapes of the chunks of a matrix depend on its shape alone. *)
Lemma split_matrix_shapes m (H W : Z) :
  (grid <- split_matrix_into_chunks m H W ;;
   Ok (map (fun c => map shape c) grid))
  = (cols <- shape_columns W (shape m) ;; mapM (shape_rows H) cols).
Proof.
  unfold split_matrix_into_chunks.
  rewrite <- split_columns_shapes.
  destruct (split_columns m W) as [out|e]; simpl; [|reflexivity].
  apply mapM_split_rows_shapes.
Qed.

Lemma split_shape_as_matrix (uninit : A) (shp : nat * nat) (H W : Z) :
  split_shape_into_chunks uninit shp H W
  = (grid <- split_matrix_into_chunks (np_empty uninit shp) H W ;;
     Ok (map (fun c => map shape c) grid)).
Proof.
  unfold split_shape_into_chunks, split_matrix_into_chunks, split_columns.
  destruct (Z.of_nat (ncols (np_empty uninit shp)) >? W)%Z; simpl.
  - destruct (ceil_reps (Z.of_nat (snd shp)) W) as [reps|e]; reflexivity.
  - reflexivity.
Qed.

(** C2. For every matrix [m] and every pair of limits [H], [W], the nested
    list of shapes returned by [split_shape_into_chunks] on the shape of [m]
    is the [.shape] of every chunk of [split_matrix_into_chunks m H W], in
    the same arrangement; when the matrix tiler raises, so does the shape
    planner, with the same exception. *)
Theorem split_shape_matches_matrix (uninit : A) m (H W : Z) :
  split_shape_into_chunks uninit (shape m) H W
  = (grid <- split_matrix_into_chunks m H W ;;
     Ok (map (fun c => map shape c) grid)).
Proof.
  rewrite split_shape_as_matrix, !split_matrix_shapes.
  now rewrite shape_np_empty.
Qed.

End ShapePlanner.

(** ** VectorTiler: the bias chunks *)

Section VectorTiler.

Context {A : Type}.

Lemma drop_none_padded (l : list A) (k : nat) :
  drop_none (map Some l ++ repeat None k) = l.
Proof.
  induction l as [|x l IH]; simpl.
  - induction k as [|k IHk]; simpl; auto.
  - now rewrite IH.
Qed.

Lemma grouper_nil (fuel W : nat) : @grouper A fuel W [] = [].
Proof. destruct fuel; reflexivity. Qed.

Lemma grouper_chunks (W : nat) (fuel : nat) (l : list A) :
  1 <= W -> length l <= fuel -> l <> [] ->
  exists init tail_chunk,
    map drop_none (grouper fuel W l) = init ++ [tail_chunk] /\
    Forall (fun c => length c = W) init /\
    1 <= length tail_chunk <= W /\
    concat (init ++ [tail_chunk]) = l.
Proof.
  intros HW. revert l. induction fuel as [|fuel IH]; intros l Hlen Hne.
  - destruct l; [congruence | simpl in Hlen; lia].
  - destruct l as [|x l']; [congruence|].
    assert (E : grouper (S fuel) W (x :: l')
                = (map Some (firstn W (x :: l'))
                     ++ repeat None (W - length (x :: l')))
                    :: grouper fuel W (skipn W (x :: l'))) by reflexivity.
    remember (x :: l') as l eqn:El.
    assert (Hpos : 1 <= length l) by (subst l; simpl; lia).
    clear El x l' Hne.
    rewrite E. cbn [map]. rewrite drop_none_padded.
    destruct (skipn W l) as [|y rest] eqn:Es.
    + rewrite grouper_nil. exists [], (firstn W l).
      assert (length l <= W).
      { pose proof (length_skipn W l) as L. rewrite Es in L. simpl in L. lia. }
      rewrite firstn_all2 by assumption.
      repeat split; auto; simpl; try lia. apply app_nil_r.
    + assert (Hlong : W < length l).
      { pose proof (length_skipn W l) as L. rewrite Es in L. simpl in L. lia. }
      destruct (IH (y :: rest)) as (init & tc & E1 & F & B & C).
      * rewrite <- Es, length_skipn. simpl in Hlen. lia.
      * discriminate.
      * exists (firstn W l :: init), tc. rewrite E1.
        repeat split; auto; try lia.
        -- constructor; [|assumption]. rewrite length_firstn. lia.
        -- cbn [app concat]. rewrite C, <- Es. apply firstn_skipn.
Qed.

(** C10. For a non-empty one-dimensional vector [v] and a limit [W >= 1]:
    the chunks of [split_vector_into_chunks], concatenated in order, are [v];
    every chunk but the last has exactly [W] entries and the last has between
    1 and [W]; and a zero-dimensional (scalar) input is split as the
    one-entry vector holding it. *)
Theorem split_vector_chunks (v : list A) (W : Z) :
  v <> [] -> (1 <= W)%Z ->
  (exists init tail_chunk,
     split_vector_into_chunks (Arr1 v) W = init ++ [tail_chunk] /\
     Forall (fun c => Z.of_nat (length c) = W) init /\
     (1 <= Z.of_nat (length tail_chunk) <= W)%Z /\
     concat (split_vector_into_chunks (Arr1 v) W) = v) /\
  (forall x : A,
     split_vector_into_chunks (Scalar x) W
     = split_vector_into_chunks (Arr1 [x]) W).
Proof.
  intros Hne HW. split; [|reflexivity].
  unfold split_vector_into_chunks, zip_longest_same_iter.
  destruct (Z.leb_spec W 0) as [|_]; [lia|].
  destruct (@grouper_chunks (Z.to_nat W) (length v) v) as (init & tc & E & F & B & C);
    try lia; try assumption.
  exists init, tc. rewrite E. repeat split; try lia; try assumption.
  eapply Forall_impl; [|exact F]. simpl. intros c Hc. lia.
Qed.

End VectorTiler.

(** ** ChannelTiler: the channel groups of a kernel *)

Section ChannelTilerFacts.

Context {A : Type}.
Implicit Types (k : kernel A).

Lemma in_channels_channel_slice k (lo hi : Z) :
  in_channels (channel_slice k lo hi) = slice_len (in_channels k) lo hi.
Proof.
  unfold in_channels, channel_slice.
  destruct (kshape k) as [[[o c] fy] fx]. reflexivity.
Qed.

(** C4, what the code does when no split is needed.  For a kernel whose
    input channels number at most [C], [split_kernel_into_channels] returns
    the empty list: the branch that would hand back the whole kernel as the
    only group is missing. *)
Theorem split_kernel_no_split k (C : Z) :
  (Z.of_nat (in_channels k) <= C)%Z ->
  split_kernel_into_channels k C = Ok [].
Proof.
  intros Hle. unfold split_kernel_into_channels.
  destruct (Z.gtb_spec (Z.of_nat (in_channels k)) C); [lia | reflexivity].
Qed.

(** With more than [C >= 1] input channels the kernel is cut into
    [ceil(in_channels / C)] groups of between 1 and [C] channels. *)
Lemma split_kernel_groups k (C : Z) :
  (1 <= C)%Z -> (C < Z.of_nat (in_channels k))%Z ->
  exists groups,
    split_kernel_into_channels k C = Ok groups /\
    in_channels k <= Z.to_nat C * length groups /\
    Z.to_nat C * (length groups - 1) < in_channels k /\
    Forall (fun g => 1 <= in_channels g <= Z.to_nat C) groups.
Proof.
  intros HC Hgt. unfold split_kernel_into_channels.
  destruct (Z.gtb_spec (Z.of_nat (in_channels k)) C) as [_|]; [|lia].
  destruct (@ceil_reps_pos (in_channels k) C) as (reps & -> & Hcov & _ & Hpos);
    [lia|].
  destruct Hpos as [Hlast Hreps]; [lia|].
  simpl. eexists. split; [reflexivity|].
  rewrite range_of_nat, !length_map, length_seq.
  repeat split; try assumption.
  rewrite map_map. apply Forall_forall. intros g Hg.
  apply in_map_iff in Hg. destruct Hg as (i & <- & Hi).
  apply in_seq in Hi. rewrite in_channels_channel_slice.
  rewrite chunk_slice_len by lia. nia.
Qed.

Lemma ceil_reps_neg (n : nat) (W reps : Z) :
  (W < 0)%Z -> ceil_reps (Z.of_nat n) W = Ok reps -> (reps <= 0)%Z.
Proof.
  intros HW. unfold ceil_reps, floordiv, modulo.
  destruct (Z.eqb_spec W 0) as [|_]; [lia|]. simpl.
  pose proof (Z.div_mod (Z.of_nat n) W ltac:(lia)) as Hdm.
  pose proof (Z.mod_neg_bound (Z.of_nat n) W HW) as Hm.
  intros E. inversion E. clear E.
  destruct (Z.eqb_spec (Z.of_nat n mod W) 0); nia.
Qed.

(** Whatever the kernel and the limit, the list returned never has exactly
    one group, so the test [len(kernels) == 1] of the callers never holds. *)
Lemma split_kernel_never_single k (C : Z) (groups : list (kernel A)) :
  split_kernel_into_channels k C = Ok groups -> length groups <> 1.
Proof.
  unfold split_kernel_into_channels.
  destruct (Z.gtb_spec (Z.of_nat (in_channels k)) C) as [Hgt|Hle].
  - destruct (Z.compare_spec C 0) as [->|Hneg|Hpos].
    + discriminate.
    + destruct (ceil_reps (Z.of_nat (in_channels k)) C) as [reps|e] eqn:Er;
        [|discriminate].
      apply ceil_reps_neg in Er; [|assumption].
      simpl. intros E. inversion E. unfold range.
      replace (Z.to_nat reps) with 0 by lia. discriminate.
    + destruct (@ceil_reps_pos (in_channels k) C Hpos)
        as (reps & -> & Hcov & _ & _).
      simpl. intros E. inversion E.
      rewrite range_of_nat, !length_map, length_seq. nia.
  - intros E. inversion E. discriminate.
Qed.

End ChannelTilerFacts.

(** ** SubgraphEmitter: GEMM and convolution *)

Section EmitterFacts.

Context {A : Type}.
Implicit Types (cnode n : node A) (m : matrix A).

Lemma split_matrix_fits m (H W : Z) :
  (Z.of_nat (nrows m) <= H)%Z -> (Z.of_nat (ncols m) <= W)%Z ->
  split_matrix_into_chunks m H W = Ok [[m]].
Proof.
  intros HH HW. unfold split_matrix_into_chunks, split_columns.
  destruct (Z.gtb_spec (Z.of_nat (ncols m)) W); [lia|].
  simpl. unfold split_rows.
  destruct (Z.gtb_spec (Z.of_nat (nrows m)) H); [lia|]. reflexivity.
Qed.

(** C7, as the code has it.  The bias is read before the fit is tested,
    so the node has to carry one.  For every GEMM node that carries a bias
    and whose weight matrix has at most [H] rows and at most [W] columns,
    [split_gemm_into_chunks] returns the list holding the original node
    alone, unchanged: no node is created, so no edge identifier is. *)
Theorem split_gemm_fits_unchanged cnode m (b : ndarray1 A) (H W : Z) :
  operator cnode = gemm m -> biases cnode = Some b ->
  (Z.of_nat (nrows m) <= H)%Z -> (Z.of_nat (ncols m) <= W)%Z ->
  split_gemm_into_chunks cnode H W = Ok [cnode].
Proof.
  intros Hop Hb HH HW. unfold split_gemm_into_chunks, attr_matrix, attr_biases.
  rewrite Hop, Hb. simpl. rewrite split_matrix_fits by assumption.
  reflexivity.
Qed.

(** *** Loop invariants *)

Lemma foldM_invariant {S T : Type} (P : S -> Prop)
  (body : S -> T -> result S) (l : list T) :
  (forall s x s', In x l -> P s -> body s x = Ok s' -> P s') ->
  forall s s', P s -> foldM body l s = Ok s' -> P s'.
Proof.
  induction l as [|x l IH]; simpl; intros Hstep s s' Hs E.
  - inversion E. now subst.
  - apply bind_Ok_inv in E. destruct E as (s1 & E1 & E2).
    apply (IH (fun s0 y s0' Hy => Hstep s0 y s0' (or_intror Hy)) s1 s');
      [|assumption].
    apply (Hstep s x s1); auto.
Qed.

Lemma index_zero cnode (o : string) :
  index (outputs cnode) 0 = Ok o ->
  primary_output cnode = o /\ exists rest, outputs cnode = o :: rest.
Proof.
  unfold index, primary_output. simpl.
  destruct (outputs cnode) as [|x rest]; simpl; intros E; inversion E.
  split; [reflexivity | now exists rest].
Qed.

Lemma index_of_nat {T : Type} (l : list T) (i : nat) (x d : T) :
  index l (Z.of_nat i) = Ok x -> i < length l /\ nth i l d = x.
Proof.
  unfold index.
  destruct (Z.ltb_spec (Z.of_nat i) 0); [lia|].
  destruct (Z.ltb_spec (Z.of_nat i) 0); [lia|].
  rewrite Nat2Z.id. destruct (nth_error l i) as [y|] eqn:E; intros E'; inversion E'.
  subst y. split.
  - apply nth_error_Some. congruence.
  - now apply nth_error_nth.
Qed.

Lemma set_last_biases_inv (nodes nodes' : list (node A)) (b : ndarray1 A) :
  set_last_biases nodes b = Ok nodes' ->
  exists before n, nodes = before ++ [n] /\ nodes' = before ++ [set_biases b n].
Proof.
  unfold set_last_biases. destruct (rev nodes) as [|n before] eqn:E; intros E'.
  - discriminate.
  - inversion E'. exists (rev before), n. split; [|reflexivity].
    rewrite <- (rev_involutive nodes), E. reflexivity.
Qed.

Lemma set_last_biases_last (before : list (node A)) n (b : ndarray1 A) :
  set_last_biases (before ++ [n]) b = Ok (before ++ [set_biases b n]).
Proof.
  unfold set_last_biases. rewrite rev_app_distr. simpl.
  now rewrite rev_involutive.
Qed.

Lemma set_last_biases_two (before mid : list (node A)) (x n : node A)
  (b : ndarray1 A) :
  set_last_biases (before ++ mid ++ [x; n]) b
  = Ok (before ++ mid ++ [x; set_biases b n]).
Proof.
  change [x; n] with ([x] ++ [n]). rewrite !app_assoc.
  rewrite set_last_biases_last. now rewrite <- !app_assoc.
Qed.

(** *** Where the bias goes *)

Lemma emit_chunks_closed cnode (sl : list string) (H : Z) (i : nat)
  (out0 : string) (l : list (nat * matrix A))
  (nodes : list (node A)) (adders : list string) :
  index (outputs cnode) 0 = Ok out0 ->
  foldM (emit_chunk cnode sl H i) l (nodes, adders)
  = Ok (nodes ++ flat_map (chunk_nodes out0 sl H i) l,
        adders ++ map (fun jm => edge_name out0 (GemmOut i (fst jm))) l).
Proof.
  intros Eo. revert nodes adders.
  induction l as [|[j m] l IH]; intros nodes adders; simpl.
  - now rewrite !app_nil_r.
  - rewrite Eo. simpl. rewrite IH. f_equal. f_equal.
    + now rewrite <- !app_assoc.
    + now rewrite <- app_assoc.
Qed.

Lemma emit_chunks_raise cnode (sl : list string) (H : Z) (i : nat)
  (e : exn) (l : list (nat * matrix A)) (st : list (node A) * list string) :
  index (outputs cnode) 0 = Raise e -> l <> [] ->
  foldM (emit_chunk cnode sl H i) l st = Raise e.
Proof.
  intros Eo Hne. destruct l as [|[j m] l]; [congruence|].
  destruct st as [nodes adders]. simpl. now rewrite Eo.
Qed.

Lemma enumerate_from_snoc {T : Type} (k : nat) (l : list T) (x : T) :
  combine (seq k (length (l ++ [x]))) (l ++ [x])
  = combine (seq k (length l)) l ++ [(k + length l, x)].
Proof.
  revert k. induction l as [|y l IH]; intros k; simpl.
  - now rewrite Nat.add_0_r.
  - rewrite IH. simpl. now rewrite Nat.add_succ_r.
Qed.

Lemma enumerate_snoc {T : Type} (l : list T) (x : T) :
  enumerate (l ++ [x]) = enumerate l ++ [(length l, x)].
Proof. unfold enumerate. now rewrite enumerate_from_snoc. Qed.

Lemma enumerate_index_bound {T : Type} (l : list T) (j : nat) (x : T) :
  In (j, x) (enumerate l) -> j < length l.
Proof.
  unfold enumerate. intros Hin. apply in_combine_l in Hin.
  apply in_seq in Hin. lia.
Qed.

Lemma filter_matmul_chunks (out0 : string) (sl : list string) (H : Z)
  (b : list A) (rowgroups i : nat) (l : list (nat * matrix A)) :
  (forall j m, In (j, m) l -> j + 1 <> rowgroups) ->
  filter is_matmul (flat_map (chunk_nodes out0 sl H i) l)
  = map (matmul_of_chunk None out0 b rowgroups i) l.
Proof.
  induction l as [|[j m] l IH]; intros Hj; simpl; [reflexivity|].
  rewrite IH by (intros j' m' Hin; apply (Hj j' m'); now right).
  destruct (Nat.eqb_spec (j + 1) rowgroups) as [E|_].
  - exfalso. apply (Hj j m); [now left | exact E].
  - reflexivity.
Qed.

(** After the inner loop and [nodes[-1].biases = b], the MatMul nodes of the
    column group are its chunks in order, the last one alone with the bias. *)
Lemma column_matmuls cnode (sl : list string) (H : Z) (i : nat)
  (col : list (matrix A)) (b : list A)
  (nodes nodes1 nodes2 : list (node A)) (adders : list string) :
  col <> [] ->
  foldM (emit_chunk cnode sl H i) (enumerate col) (nodes, [])
  = Ok (nodes1, adders) ->
  set_last_biases nodes1 (Arr1 b) = Ok nodes2 ->
  filter is_matmul nodes2
  = filter is_matmul nodes
      ++ map (matmul_of_chunk None (primary_output cnode) b (length col) i)
             (enumerate col).
Proof.
  intros Hne E1 E2.
  destruct (exists_last Hne) as (col0 & mlast & ->).
  assert (Hen : enumerate (col0 ++ [mlast]) <> []).
  { rewrite enumerate_snoc. now destruct (enumerate col0). }
  destruct (index (outputs cnode) 0) as [out0|e] eqn:Eo.
  2:{ rewrite (emit_chunks_raise cnode sl H i _ Eo Hen) in E1. discriminate. }
  rewrite (emit_chunks_closed cnode sl H i _ _ _ Eo) in E1.
  apply index_zero in Eo. destruct Eo as [<- _].
  inversion E1. subst nodes1 adders. clear E1.
  rewrite enumerate_snoc, flat_map_app in E2.
  cbn [flat_map chunk_nodes app] in E2.
  rewrite set_last_biases_two in E2.
  inversion E2. subst nodes2. clear E2.
  rewrite enumerate_snoc, map_app, !filter_app.
  rewrite (@filter_matmul_chunks (primary_output cnode) sl H b
             (length (col0 ++ [mlast])) i (enumerate col0)).
  - simpl. rewrite length_app. simpl. rewrite Nat.eqb_refl. reflexivity.
  - intros j m Hin. apply enumerate_index_bound in Hin.
    rewrite length_app. simpl. lia.
Qed.

Lemma gemm_column_matmuls cnode (H : Z) (sb : list (list A)) (i : nat)
  (col : list (matrix A)) (nodes nodes' : list (node A))
  (cats cats' : list string) :
  col <> [] ->
  gemm_column cnode H sb (nodes, cats) (i, col) = Ok (nodes', cats') ->
  filter is_matmul nodes'
  = filter is_matmul nodes
      ++ map (matmul_of_chunk None (primary_output cnode) (nth i sb [])
                              (length col) i) (enumerate col)
  /\ i < length sb.
Proof.
  intros Hne E. simpl in E.
  apply bind_Ok_inv in E. destruct E as ([nodes1 adders] & E1 & E).
  apply bind_Ok_inv in E. destruct E as (b & Eb & E).
  apply bind_Ok_inv in E. destruct E as (nodes2 & E2 & E).
  apply bind_Ok_inv in E. destruct E as (o & _ & E).
  inversion E. subst nodes' cats'. clear E.
  apply (index_of_nat _ _ []) in Eb. destruct Eb as [Hi <-].
  split; [|assumption].
  rewrite filter_app. simpl. rewrite app_nil_r.
  eapply column_matmuls; eauto.
Qed.

Lemma conv_column_matmuls cnode (tpl : string) (H : Z) (sb : list (list A))
  (i : nat) (col : list (matrix A)) (nodes nodes' : list (node A))
  (cats cats' : list string) :
  col <> [] ->
  conv_column cnode tpl H sb (nodes, cats) (i, col) = Ok (nodes', cats') ->
  filter is_matmul nodes'
  = filter is_matmul nodes
      ++ map (matmul_of_chunk None (primary_output cnode) (nth i sb [])
                              (length col) i) (enumerate col)
  /\ i < length sb.
Proof.
  intros Hne E. simpl in E.
  apply bind_Ok_inv in E. destruct E as ([nodes1 adders] & E1 & E).
  apply bind_Ok_inv in E. destruct E as (b & Eb & E).
  apply bind_Ok_inv in E. destruct E as (nodes2 & E2 & E).
  apply (index_of_nat _ _ []) in Eb. destruct Eb as [Hi <-].
  split; [|assumption].
  assert (Hm : filter is_matmul nodes2
               = filter is_matmul nodes
                   ++ map (matmul_of_chunk None (primary_output cnode)
                             (nth i sb []) (length col) i) (enumerate col))
    by (eapply column_matmuls; eauto).
  destruct (Nat.ltb 1 (length adders)).
  - apply bind_Ok_inv in E. destruct E as (o & _ & E).
    inversion E. subst nodes' cats'.
    rewrite filter_app. simpl. rewrite app_nil_r. exact Hm.
  - inversion E. subst nodes' cats'. exact Hm.
Qed.

(** The outer loop, for any body that treats a column group as above. *)
Lemma columns_matmuls
  (body : list (node A) * list string -> nat * list (matrix A)
          -> result (list (node A) * list string))
  (out0 : string) (sb : list (list A)) :
  (forall nodes cats i col nodes' cats',
      col <> [] ->
      body (nodes, cats) (i, col) = Ok (nodes', cats') ->
      filter is_matmul nodes'
      = filter is_matmul nodes
          ++ map (matmul_of_chunk None out0 (nth i sb []) (length col) i)
                 (enumerate col)
      /\ i < length sb) ->
  forall (grid : list (list (matrix A))) (k : nat)
         (nodes nodes' : list (node A)) (cats cats' : list string),
    Forall (fun col => col <> []) grid ->
    foldM body (combine (seq k (length grid)) grid) (nodes, cats)
    = Ok (nodes', cats') ->
    filter is_matmul nodes'
    = filter is_matmul nodes
        ++ flat_map (fun ic : nat * list (matrix A) =>
                       let '(i, col) := ic in
                       map (matmul_of_chunk None out0 (nth i sb [])
                                            (length col) i) (enumerate col))
                    (combine (seq k (length grid)) grid)
    /\ (grid <> [] -> k + length grid <= length sb).
Proof.
  intros Hbody grid.
  induction grid as [|col grid IH]; intros k nodes nodes' cats cats' Hne E.
  - simpl in E. inversion E. simpl. rewrite app_nil_r. split; congruence.
  - simpl in E. apply bind_Ok_inv in E. destruct E as ([nodes1 cats1] & E1 & E).
    inversion Hne as [|? ? Hcol Hrest]. subst.
    destruct (Hbody _ _ _ _ _ _ Hcol E1) as [F1 B1].
    destruct (IH _ _ _ _ _ Hrest E) as [F2 B2].
    split.
    + rewrite F2, F1. simpl. now rewrite <- app_assoc.
    + intros _. simpl. destruct grid as [|col' grid']; [simpl; lia|].
      specialize (B2 ltac:(discriminate)). simpl in *. lia.
Qed.

Lemma split_rows_nonempty (H : Z) (mat : matrix A) (col : list (matrix A)) :
  (0 < H)%Z -> split_rows H mat = Ok col -> col <> [].
Proof.
  intros HH. unfold split_rows.
  destruct (Z.gtb_spec (Z.of_nat (nrows mat)) H) as [Hgt|Hle].
  - destruct (@ceil_reps_pos (nrows mat) H HH) as (reps & -> & _ & _ & Hpos).
    simpl. intros E. inversion E. destruct Hpos as [_ Hpos]; [lia|].
    rewrite range_of_nat. destruct reps; [lia|]. discriminate.
  - intros E. inversion E. discriminate.
Qed.

Lemma split_matrix_columns_nonempty m (H W : Z) (grid : list (list (matrix A))) :
  (0 < H)%Z -> split_matrix_into_chunks m H W = Ok grid ->
  Forall (fun col => col <> []) grid.
Proof.
  intros HH. unfold split_matrix_into_chunks. intros E.
  apply bind_Ok_inv in E. destruct E as (out & _ & E).
  revert grid E. induction out as [|mat out IH]; simpl; intros grid E.
  - inversion E. constructor.
  - apply bind_Ok_inv in E. destruct E as (col & Ec & E).
    apply bind_Ok_inv in E. destruct E as (rest & Er & E).
    inversion E. constructor; [|now apply IH].
    eapply split_rows_nonempty; eauto.
Qed.

Lemma filter_matmul_tagged (t : string) (nodes : list (node A)) :
  filter is_matmul (map (set_from_type t) nodes)
  = map (set_from_type t) (filter is_matmul nodes).
Proof.
  induction nodes as [|n nodes IH]; simpl; [reflexivity|].
  change (is_matmul (set_from_type t n)) with (is_matmul n).
  destruct (is_matmul n); simpl; now rewrite IH.
Qed.

Lemma tag_expected_matmuls (t out0 : string) (sb : list (list A))
  (grid : list (list (matrix A))) :
  map (set_from_type t) (expected_matmuls None out0 sb grid)
  = expected_matmuls (Some t) out0 sb grid.
Proof.
  unfold expected_matmuls. induction (enumerate grid) as [|[i col] l IH]; simpl.
  - reflexivity.
  - rewrite map_app, IH. f_equal. rewrite map_map.
    apply map_ext. intros [j m]. reflexivity.
Qed.

(** *** The emitters return

    With a positive row limit, a primary output and a bias chunk for every
    column group, both emitters return a subgraph. *)

Lemma index_in_range {T : Type} (l : list T) (i : nat) :
  i < length l -> exists x, index l (Z.of_nat i) = Ok x.
Proof.
  intros Hi. unfold index.
  destruct (Z.ltb_spec (Z.of_nat i) 0); [lia|].
  destruct (Z.ltb_spec (Z.of_nat i) 0); [lia|].
  rewrite Nat2Z.id. destruct (nth_error l i) as [x|] eqn:E; [eauto|].
  apply nth_error_None in E. lia.
Qed.

Lemma set_last_biases_nonempty (nodes : list (node A)) (b : ndarray1 A) :
  nodes <> [] -> exists nodes', set_last_biases nodes b = Ok nodes'.
Proof.
  intros Hne. destruct (exists_last Hne) as (before & n & ->).
  rewrite set_last_biases_last. eauto.
Qed.

Lemma column_nodes_nonempty (out0 : string) (sl : list string) (H : Z)
  (i : nat) (col : list (matrix A)) (nodes : list (node A)) :
  col <> [] -> nodes ++ flat_map (chunk_nodes out0 sl H i) (enumerate col) <> [].
Proof.
  intros Hne. destruct col as [|m col]; [congruence|].
  unfold enumerate. simpl. now destruct nodes.
Qed.

Lemma gemm_columns_total cnode (H : Z) (sb : list (list A)) (out0 : string) :
  index (outputs cnode) 0 = Ok out0 ->
  forall (grid : list (list (matrix A))) (k : nat)
         (st : list (node A) * list string),
    Forall (fun col => col <> []) grid ->
    k + length grid <= length sb ->
    exists st',
      foldM (gemm_column cnode H sb) (combine (seq k (length grid)) grid) st
      = Ok st'.
Proof.
  intros Eo grid. induction grid as [|col grid IH]; intros k [nodes cats] Hne Hk.
  - simpl. eauto.
  - inversion Hne as [|? ? Hcol Hrest]. subst. cbn [length seq combine foldM].
    unfold gemm_column at 1.
    rewrite (emit_chunks_closed cnode (inputs cnode) H k _ _ _ Eo).
    cbn [bind].
    destruct (@index_in_range _ sb k ltac:(simpl in Hk; lia)) as (b & ->).
    cbn [bind].
    destruct (@set_last_biases_nonempty
                (nodes ++ flat_map (chunk_nodes out0 (inputs cnode) H k)
                                   (enumerate col))
                (Arr1 b) (column_nodes_nonempty out0 _ H k nodes Hcol))
      as (nodes2 & ->).
    cbn [bind]. rewrite Eo. cbn [bind].
    apply IH; [assumption | simpl in Hk; lia].
Qed.

Lemma conv_columns_total cnode (tpl : string) (H : Z) (sb : list (list A))
  (out0 : string) :
  index (outputs cnode) 0 = Ok out0 ->
  forall (grid : list (list (matrix A))) (k : nat)
         (st : list (node A) * list string),
    Forall (fun col => col <> []) grid ->
    k + length grid <= length sb ->
    exists st',
      foldM (conv_column cnode tpl H sb) (combine (seq k (length grid)) grid) st
      = Ok st'.
Proof.
  intros Eo grid. induction grid as [|col grid IH]; intros k [nodes cats] Hne Hk.
  - simpl. eauto.
  - inversion Hne as [|? ? Hcol Hrest]. subst. cbn [length seq combine foldM].
    unfold conv_column at 1.
    rewrite (emit_chunks_closed cnode [tpl] H k _ _ _ Eo).
    cbn [bind].
    destruct (@index_in_range _ sb k ltac:(simpl in Hk; lia)) as (b & ->).
    cbn [bind].
    destruct (@set_last_biases_nonempty
                (nodes ++ flat_map (chunk_nodes out0 [tpl] H k) (enumerate col))
                (Arr1 b) (column_nodes_nonempty out0 _ H k nodes Hcol))
      as (nodes2 & ->).
    cbn [bind].
    destruct (Nat.ltb 1 _).
    + rewrite Eo. cbn [bind]. apply IH; [assumption | simpl in Hk; lia].
    + apply IH; [assumption | simpl in Hk; lia].
Qed.

Lemma emitters_return cnode m (bias : ndarray1 A) (H W : Z)
  (grid : list (list (matrix A))) :
  (0 < H)%Z ->
  attr_matrix cnode = Ok m ->
  attr_biases cnode = Ok bias ->
  split_matrix_into_chunks m H W = Ok grid ->
  length grid <= length (split_vector_into_chunks bias W) ->
  outputs cnode <> [] ->
  (exists nodes, split_gemm_into_chunks cnode H W = Ok nodes) /\
  (forall ksize strides,
      attr_ksize cnode = Ok ksize -> attr_strides cnode = Ok strides ->
      exists nodes, split_conv_into_chunks cnode H W = Ok nodes).
Proof.
  intros HH Em Eb Eg Hlen Hout.
  pose proof (split_matrix_columns_nonempty m W HH Eg) as Hne.
  assert (Eo : exists out0, index (outputs cnode) 0 = Ok out0).
  { destruct (outputs cnode) as [|o rest]; [congruence|].
    exists o. reflexivity. }
  destruct Eo as (out0 & Eo). split.
  - unfold split_gemm_into_chunks. rewrite Em. cbn [bind]. rewrite Eg.
    cbn [bind]. rewrite Eb. cbn [bind].
    destruct (fits_one_tile grid); [eauto|].
    destruct (@gemm_columns_total cnode H (split_vector_into_chunks bias W)
                out0 Eo grid 0 ([], []) Hne Hlen) as ([nodes cats] & E).
    unfold enumerate. rewrite E. cbn [bind]. eauto.
  - intros ksize strides Ek Es.
    unfold split_conv_into_chunks. rewrite Em. cbn [bind]. rewrite Eg.
    cbn [bind]. rewrite Eb. cbn [bind]. rewrite Ek. cbn [bind].
    rewrite Es. cbn [bind].
    destruct (fits_one_tile grid); [eauto|].
    rewrite Eo. cbn [bind].
    match goal with
    | |- context [foldM ?body (enumerate grid) ?st] =>
        destruct (@conv_columns_total cnode (out0 ++ "_tplitz")%string H
                    (split_vector_into_chunks bias W) out0 Eo grid 0 st
                    Hne Hlen) as ([nodes cats] & E)
    end.
    unfold enumerate. rewrite E. cbn [bind]. eauto.
Qed.

(** C5. For a positive row limit [H], in every subgraph that
    [split_gemm_into_chunks] or [split_conv_into_chunks] emits for a node
    that does not fit one tile, the MatMul nodes are, in order, one per chunk
    [(i, j)] of the grid, and the MatMul of chunk [(i, j)] carries the bias
    chunk [i] exactly when [j] is the last row group of column group [i];
    every other MatMul node has no bias.  Each column group has its bias
    chunk. *)
Theorem bias_on_last_matmul cnode m (bias : ndarray1 A) (H W : Z)
  (grid : list (list (matrix A))) :
  (0 < H)%Z ->
  attr_matrix cnode = Ok m ->
  attr_biases cnode = Ok bias ->
  split_matrix_into_chunks m H W = Ok grid ->
  fits_one_tile grid = false ->
  (forall nodes,
   split_gemm_into_chunks cnode H W = Ok nodes ->
   filter is_matmul nodes
   = expected_matmuls (Some "gemm") (primary_output cnode)
                      (split_vector_into_chunks bias W) grid
   /\ length grid <= length (split_vector_into_chunks bias W))
  /\
  (forall nodes,
   split_conv_into_chunks cnode H W = Ok nodes ->
   exists ksize,
     attr_ksize cnode = Ok ksize /\
     filter is_matmul nodes
     = expected_matmuls (Some (conv_from_type ksize)) (primary_output cnode)
                        (split_vector_into_chunks bias W) grid
     /\ length grid <= length (split_vector_into_chunks bias W)).
Proof.
  intros HH Em Eb Eg Hfit.
  pose proof (split_matrix_columns_nonempty m W HH Eg) as Hne.
  split.
  - unfold split_gemm_into_chunks. rewrite Em. simpl. rewrite Eg. simpl.
    rewrite Eb. simpl. rewrite Hfit. intros nodes E.
    apply bind_Ok_inv in E. destruct E as ([nodes1 cats] & E1 & E).
    inversion E. subst nodes. clear E.
    destruct (@columns_matmuls (gemm_column cnode H _) (primary_output cnode) _
                (fun nodes cats i col nodes' cats' =>
                   @gemm_column_matmuls cnode H _ i col nodes nodes' cats cats')
                grid 0 [] nodes1 [] cats Hne E1) as [F B].
    split.
    + rewrite filter_matmul_tagged, filter_app, F. simpl.
      rewrite app_nil_r. apply tag_expected_matmuls.
    + destruct grid; [simpl; lia|]. apply B. discriminate.
  - unfold split_conv_into_chunks. rewrite Em. simpl. rewrite Eg. simpl.
    rewrite Eb. simpl. intros nodes E.
    apply bind_Ok_inv in E. destruct E as (ksize & Ek & E).
    apply bind_Ok_inv in E. destruct E as (strides & _ & E).
    rewrite Hfit in E.
    apply bind_Ok_inv in E. destruct E as (o & _ & E).
    apply bind_Ok_inv in E. destruct E as ([nodes1 cats] & E1 & E).
    inversion E. subst nodes. clear E.
    exists ksize. split; [assumption|].
    destruct (@columns_matmuls (conv_column cnode _ H _) (primary_output cnode) _
                (fun nodes cats i col nodes' cats' =>
                   @conv_column_matmuls cnode _ H _ i col nodes nodes' cats cats')
                grid 0 _ nodes1 [] cats Hne E1) as [F B].
    split.
    + rewrite filter_matmul_tagged, !filter_app, F. simpl.
      rewrite !app_nil_r. apply tag_expected_matmuls.
    + destruct grid; [simpl; lia|]. apply B. discriminate.
Qed.

(** C3, what the code emits.  For every GEMM node with a 4x10 weight matrix
    and a bias of length 10, and limits [H = 4], [W = 4],
    [split_gemm_into_chunks] emits ten nodes: 3 Slice nodes, 3 MatMul nodes,
    one Concat node, and 3 Add nodes, one per column group, each with the
    single partial product of its group as its only input. *)
Theorem split_gemm_4x10_counts cnode m (b : list A) :
  operator cnode = gemm m -> shape m = (4, 10) ->
  biases cnode = Some (Arr1 b) -> length b = 10 ->
  outputs cnode <> [] ->
  exists nodes,
    split_gemm_into_chunks cnode 4 4 = Ok nodes /\
    count is_matmul nodes = 3 /\ count is_slice nodes = 3 /\
    count is_add nodes = 3 /\ count is_concat nodes = 1 /\
    length nodes = 10 /\
    Forall (fun n => is_add n = true -> length (inputs n) = 1) nodes.
Proof.
  destruct cnode as [o ins outs bs ft], m as [c rs].
  unfold shape, nrows. simpl. intros -> Es -> Hb Hout.
  inversion Es as [[Hr Hc]]. subst c. clear Es.
  destruct rs as [|r1 [|r2 [|r3 [|r4 [|r5 rs]]]]]; try discriminate. clear Hr.
  do 10 (destruct b as [|? b]; [discriminate|]).
  destruct b; [|discriminate]. clear Hb.
  destruct outs as [|out0 outs]; [congruence|]. clear Hout.
  eexists. split; [reflexivity|].
  repeat split; try reflexivity.
  repeat (apply Forall_cons; [simpl; try discriminate; auto|]).
  apply Forall_nil.
Qed.

End EmitterFacts.

(** ** WindowLowering *)

Section WindowLowering.

Context {A : Type}.

Variable uninit : A.
Variable astype : A -> A.

Implicit Types (t : ndarray3 A).

Lemma nth_tabulate {T : Type} (n : nat) (f : nat -> T) (i : nat) (d : T) :
  i < n -> nth i (tabulate n f) d = f i.
Proof.
  intros Hi. unfold tabulate.
  rewrite (nth_indep _ d (f 0)) by now rewrite length_map, length_seq.
  rewrite map_nth, seq_nth by assumption. reflexivity.
Qed.

Lemma tabulate_ext {T : Type} (n : nat) (f g : nat -> T) :
  (forall i, i < n -> f i = g i) -> tabulate n f = tabulate n g.
Proof.
  intros E. unfold tabulate. apply map_ext_in. intros i Hi.
  apply in_seq in Hi. apply E. lia.
Qed.

Lemma length_tabulate {T : Type} (n : nat) (f : nat -> T) :
  length (tabulate n f) = n.
Proof. unfold tabulate. now rewrite length_map, length_seq. Qed.

Lemma get3_tabulate (sh : nat * nat * nat) (a b c : nat)
  (F : nat -> nat -> nat -> A) (i j k : nat) :
  i < a -> j < b -> k < c ->
  get3 uninit
       {| shape3 := sh;
          data3 := tabulate a (fun i =>
                     tabulate b (fun j => tabulate c (fun k => F i j k))) |}
       i j k
  = F i j k.
Proof.
  intros Hi Hj Hk. unfold get3. simpl.
  now rewrite !nth_tabulate by assumption.
Qed.

Lemma flatten_tabulate (a b c : nat) (F : nat -> nat -> nat -> A) :
  concat (map (@concat A)
              (tabulate a (fun i =>
                 tabulate b (fun j => tabulate c (fun k => F i j k)))))
  = flat_map (fun i =>
      flat_map (fun j => map (fun k => F i j k) (seq 0 c)) (seq 0 b))
      (seq 0 a).
Proof.
  unfold tabulate. rewrite map_map, flat_map_concat_map. f_equal.
  apply map_ext. intros i. now rewrite flat_map_concat_map.
Qed.

Lemma length_flat_map_const {T U : Type} (f : T -> list U) (n : nat)
  (l : list T) :
  (forall x, length (f x) = n) -> length (flat_map f l) = length l * n.
Proof.
  intros Hf. induction l as [|x l IH]; simpl; [reflexivity|].
  now rewrite length_app, Hf, IH.
Qed.

Lemma length_receptive_row (in_tensor : ndarray3 A) (zp : A) (s : nat)
  (cm : bool) (r c C h w : nat) :
  shape3 in_tensor = (C, h, w) ->
  length (receptive_row uninit in_tensor zp s cm r c) = C * 9.
Proof.
  intros Hs. unfold receptive_row. rewrite Hs. destruct cm.
  - rewrite length_flat_map_const with (n := 3 * C).
    + rewrite length_seq. lia.
    + intros y. rewrite length_flat_map_const with (n := C).
      * now rewrite length_seq.
      * intros x. now rewrite length_map, length_seq.
  - rewrite length_flat_map_const with (n := 9).
    + now rewrite length_seq.
    + intros ch. rewrite length_flat_map_const with (n := 3).
      * now rewrite length_seq.
      * intros y. now rewrite length_map, length_seq.
Qed.

(** *** The padded tensor *)

Lemma transpose_120_shape t (C h w : nat) :
  shape3 t = (C, h, w) ->
  transpose_120 uninit t
  = {| shape3 := (h, w, C);
       data3 := tabulate h (fun i =>
                  tabulate w (fun j =>
                    tabulate C (fun k => get3 uninit t k i j))) |}.
Proof. intros Hs. unfold transpose_120. now rewrite Hs. Qed.

Lemma nth_map_default {T U : Type} (f : T -> U) (l : list T) (n : nat)
  (d : T) (d' : U) :
  f d = d' -> nth n (map f l) d' = f (nth n l d).
Proof. intros <-. apply map_nth. Qed.

Lemma pad_hw_get (h w C : nat) (F : nat -> nat -> nat -> A) (zp : A)
  (y x ch : nat) :
  y < h + 2 -> x < w + 2 -> ch < C ->
  get3 uninit
       (pad_hw astype
               {| shape3 := (h, w, C);
                  data3 := tabulate h (fun i =>
                             tabulate w (fun j =>
                               tabulate C (fun k => F i j k))) |} zp)
       y x ch
  = if (y =? 0)%nat || (x =? 0)%nat || (h <? y)%nat || (w <? x)%nat
    then astype zp else F (y - 1) (x - 1) ch.
Proof.
  intros Hy Hx Hc. unfold get3, pad_hw. cbn [shape3 data3].
  assert (Hpix : forall n, n < w + 2 ->
            nth ch (nth n (repeat (repeat (astype zp) C) (w + 2)) []) uninit
            = astype zp).
  { intros n Hn. rewrite nth_repeat_lt by assumption.
    now apply nth_repeat_lt. }
  destruct y as [|y].
  - simpl. now apply Hpix.
  - cbn [app nth]. destruct (Nat.ltb_spec h (S y)) as [Hlast|Hin].
    + rewrite app_nth2 by (rewrite length_map, length_tabulate; lia).
      rewrite length_map, length_tabulate.
      replace (y - h) with 0 by lia. cbn [nth].
      rewrite Bool.orb_true_r. now apply Hpix.
    + rewrite app_nth1 by (rewrite length_map, length_tabulate; lia).
      rewrite (nth_indep _ []
                 ([repeat (astype zp) C] ++ [] ++ [repeat (astype zp) C]))
        by (rewrite length_map, length_tabulate; lia).
      rewrite (map_nth (fun row => [repeat (astype zp) C] ++ row
                                     ++ [repeat (astype zp) C])).
      rewrite nth_tabulate by lia.
      replace (S y - 1) with y by lia.
      destruct x as [|x].
      * simpl. now apply nth_repeat_lt.
      * cbn [app nth]. destruct (Nat.ltb_spec w (S x)) as [Hxl|Hxin].
        -- rewrite app_nth2 by (rewrite length_tabulate; lia).
           rewrite length_tabulate. replace (x - w) with 0 by lia.
           cbn [nth]. rewrite Bool.orb_true_r. now apply nth_repeat_lt.
        -- rewrite app_nth1 by (rewrite length_tabulate; lia).
           rewrite !nth_tabulate by lia.
           replace (S x - 1) with x by lia. reflexivity.
Qed.

Lemma padded_tensor_get (in_tensor : ndarray3 A) (C h w : nat) (zp : A)
  (y x ch : nat) :
  shape3 in_tensor = (C, h, w) ->
  y < h + 2 -> x < w + 2 -> ch < C ->
  get3 uninit (pad_hw astype (transpose_120 uninit in_tensor) zp) y x ch
  = padded_at uninit in_tensor (astype zp) y x ch.
Proof.
  intros Hs Hy Hx Hc. rewrite (transpose_120_shape _ Hs).
  rewrite pad_hw_get by assumption.
  unfold padded_at, out_of_bounds. rewrite Hs. reflexivity.
Qed.

Lemma flat_map_ext_in {T U : Type} (f g : T -> list U) (l : list T) :
  (forall x, In x l -> f x = g x) -> flat_map f l = flat_map g l.
Proof.
  intros E. rewrite !flat_map_concat_map. f_equal. now apply map_ext_in.
Qed.

Lemma flat_map_ext_in_seq3 {T : Type} (a b c : nat)
  (F G : nat -> nat -> nat -> T) :
  (forall i j k, i < a -> j < b -> k < c -> F i j k = G i j k) ->
  flat_map (fun i =>
    flat_map (fun j => map (fun k => F i j k) (seq 0 c)) (seq 0 b)) (seq 0 a)
  = flat_map (fun i =>
    flat_map (fun j => map (fun k => G i j k) (seq 0 c)) (seq 0 b)) (seq 0 a).
Proof.
  intros E. apply flat_map_ext_in. intros i Hi. apply in_seq in Hi.
  apply flat_map_ext_in. intros j Hj. apply in_seq in Hj.
  apply map_ext_in. intros k Hk. apply in_seq in Hk.
  apply E; lia.
Qed.

(** *** One output pixel *)

Lemma slice_nil {T : Type} (lo hi : Z) : slice (@nil T) lo hi = [].
Proof. unfold slice. now rewrite skipn_nil, firstn_nil. Qed.

Lemma nth_slice3 {T : Type} (l : list T) (a y : nat) (d : T) :
  y < 3 ->
  nth y (slice l (Z.of_nat a) (Z.of_nat a + 3)) d = nth (a + y) l d.
Proof.
  intros Hy. replace (Z.of_nat a + 3)%Z with (Z.of_nat (a + 3)) by lia.
  rewrite slice_nat by lia. replace (a + 3 - a) with 3 by lia.
  rewrite nth_firstn. destruct (Nat.ltb_spec y 3); [|lia].
  apply nth_skipn.
Qed.

Lemma window_get t (a b y x ch : nat) :
  y < 3 -> x < 3 ->
  get3 uninit (window t (Z.of_nat a) (Z.of_nat a + 3)
                        (Z.of_nat b) (Z.of_nat b + 3)) y x ch
  = get3 uninit t (a + y) (b + x) ch.
Proof.
  intros Hy Hx. unfold get3, window.
  destruct (shape3 t) as [[d0 d1] d2]. cbn [data3].
  rewrite (nth_map_default _ _ _ [] (d' := [])) by apply slice_nil.
  now rewrite !nth_slice3 by assumption.
Qed.

Lemma window_shape t (d0 d1 d2 a b : nat) :
  shape3 t = (d0, d1, d2) -> a + 3 <= d0 -> b + 3 <= d1 ->
  shape3 (window t (Z.of_nat a) (Z.of_nat a + 3) (Z.of_nat b) (Z.of_nat b + 3))
  = (3, 3, d2).
Proof.
  intros Hs Ha Hb. unfold window. rewrite Hs. cbn [shape3].
  replace (Z.of_nat a + 3)%Z with (Z.of_nat (a + 3)) by lia.
  replace (Z.of_nat b + 3)%Z with (Z.of_nat (b + 3)) by lia.
  rewrite !slice_len_nat by lia. do 2 f_equal; lia.
Qed.

Lemma pad_hw_shape t (d0 d1 d2 : nat) (zp : A) :
  shape3 t = (d0, d1, d2) ->
  shape3 (pad_hw astype t zp) = (d0 + 2, d1 + 2, d2).
Proof. intros Hs. unfold pad_hw. now rewrite Hs. Qed.

(** The flattened field of the pixel whose window starts at padded row [a]
    and padded column [b]. *)
Lemma pixel_flatten (in_tensor : ndarray3 A) (C h w : nat) (zp : A)
  (cm : bool) (a b : nat) :
  shape3 in_tensor = (C, h, w) -> a + 3 <= h + 2 -> b + 3 <= w + 2 ->
  (recfield <- get_recfield_for_pixel uninit (Z.of_nat a) (Z.of_nat b)
                 (pad_hw astype (transpose_120 uninit in_tensor) zp) 3 ;;
   if cm then f <- transpose_field uninit recfield ;; flatten f
   else flatten recfield)
  = Ok (if cm then
          flat_map (fun y =>
            flat_map (fun x =>
              map (fun ch => padded_at uninit in_tensor (astype zp)
                                       (a + y) (b + x) ch)
                  (seq 0 C)) (seq 0 3)) (seq 0 3)
        else
          flat_map (fun ch =>
            flat_map (fun y =>
              map (fun x => padded_at uninit in_tensor (astype zp)
                                      (a + y) (b + x) ch)
                  (seq 0 3)) (seq 0 3)) (seq 0 C)).
Proof.
  intros Hs Ha Hb.
  set (t2 := pad_hw astype (transpose_120 uninit in_tensor) zp).
  assert (Hs2 : shape3 t2 = (h + 2, w + 2, C)).
  { unfold t2. apply pad_hw_shape. now rewrite (transpose_120_shape _ Hs). }
  set (win := window t2 (Z.of_nat a) (Z.of_nat a + 3)
                        (Z.of_nat b) (Z.of_nat b + 3)).
  assert (Hsw : shape3 win = (3, 3, C)) by (now apply window_shape with (d0 := h + 2) (d1 := w + 2)).
  assert (Hget : forall y x ch, y < 3 -> x < 3 -> ch < C ->
            get3 uninit win y x ch
            = padded_at uninit in_tensor (astype zp) (a + y) (b + x) ch).
  { intros y x ch Hy Hx Hc. unfold win. rewrite window_get by assumption.
    unfold t2. apply padded_tensor_get with (C := C) (h := h) (w := w);
      try assumption; lia. }
  unfold get_recfield_for_pixel. cbn [Z.eqb Pos.eqb bind].
  fold win.
  destruct cm; cbn [transpose_field bind flatten];
    unfold transpose_201; rewrite Hsw; cbn [data3].
  - unfold transpose_120. cbn [shape3].
    cbn [data3]. f_equal. etransitivity; [apply flatten_tabulate|].
    apply flat_map_ext_in_seq3.
    intros y x ch Hy Hx Hc.
    rewrite get3_tabulate by assumption. now apply Hget.
  - f_equal. etransitivity; [apply flatten_tabulate|].
    apply flat_map_ext_in_seq3.
    intros ch y x Hc Hy Hx. now apply Hget.
Qed.

Lemma receptive_row_unfold (in_tensor : ndarray3 A) (C h w : nat) (zp : A)
  (s : nat) (cm : bool) (r c : nat) :
  shape3 in_tensor = (C, h, w) ->
  receptive_row uninit in_tensor zp s cm r c
  = if cm then
      flat_map (fun y =>
        flat_map (fun x =>
          map (fun ch => padded_at uninit in_tensor zp (s * r + y) (s * c + x) ch)
              (seq 0 C)) (seq 0 3)) (seq 0 3)
    else
      flat_map (fun ch =>
        flat_map (fun y =>
          map (fun x => padded_at uninit in_tensor zp (s * r + y) (s * c + x) ch)
              (seq 0 3)) (seq 0 3)) (seq 0 C).
Proof. intros Hs. unfold receptive_row. now rewrite Hs. Qed.

Lemma update_app_exact {T : Type} (l1 l2 : list T) (x y : T) :
  update (l1 ++ x :: l2) (length l1) y = l1 ++ y :: l2.
Proof. induction l1 as [|z l1 IH]; simpl; [reflexivity | now rewrite IH]. Qed.

Lemma skipn_cons {T : Type} (k : nat) (l : list T) :
  k < length l -> exists x, skipn k l = x :: skipn (S k) l.
Proof.
  revert l. induction k as [|k IH]; intros [|y l] Hk; simpl in Hk; try lia.
  - now exists y.
  - apply IH. lia.
Qed.

Lemma set_row_ok (out : matrix A) (idx : nat) (v : list A) :
  idx < nrows out -> length v = ncols out ->
  set_row out (Z.of_nat idx) v
  = Ok {| ncols := ncols out; rows := update (rows out) idx v |}.
Proof.
  intros Hi Hv. unfold set_row.
  destruct (Z.ltb_spec (Z.of_nat idx) 0); [lia|].
  destruct (Z.ltb_spec (Z.of_nat idx) 0); [lia|].
  destruct (Z.leb_spec (Z.of_nat (nrows out)) (Z.of_nat idx)); [lia|].
  cbn [orb]. rewrite Hv, Nat.eqb_refl. now rewrite Nat2Z.id.
Qed.

Lemma toeplitz_pixel_ok (in_tensor : ndarray3 A) (C h w : nat) (zp : A)
  (cm : bool) (s wo r c : nat) (out : matrix A) :
  shape3 in_tensor = (C, h, w) ->
  s * r + 3 <= h + 2 -> s * c + 3 <= w + 2 ->
  ncols out = C * 9 -> r * wo + c < nrows out ->
  toeplitz_pixel uninit
                 (pad_hw astype (transpose_120 uninit in_tensor) zp) 3
                 (Z.of_nat s) (Z.of_nat wo) cm (Z.of_nat r) out (Z.of_nat c)
  = Ok {| ncols := ncols out;
          rows := update (rows out) (r * wo + c)
                         (receptive_row uninit in_tensor (astype zp) s cm
                                        r c) |}.
Proof.
  intros Hs Hr Hc Hn Hi. unfold toeplitz_pixel.
  replace (Z.of_nat s * Z.of_nat r)%Z with (Z.of_nat (s * r)) by lia.
  replace (Z.of_nat s * Z.of_nat c)%Z with (Z.of_nat (s * c)) by lia.
  replace (Z.of_nat r * Z.of_nat wo + Z.of_nat c)%Z
    with (Z.of_nat (r * wo + c)) by lia.
  pose proof (@pixel_flatten in_tensor C h w zp cm (s * r) (s * c) Hs Hr Hc) as E.
  rewrite <- (@receptive_row_unfold in_tensor C h w (astype zp) s cm r c Hs)
    in E.
  assert (Hlen : length (receptive_row uninit in_tensor (astype zp) s cm r c)
                 = ncols out)
    by (rewrite Hn; now apply length_receptive_row with (h := h) (w := w)).
  destruct (get_recfield_for_pixel uninit (Z.of_nat (s * r)) (Z.of_nat (s * c))
              (pad_hw astype (transpose_120 uninit in_tensor) zp) 3)
    as [rf|e];
    cbn [bind] in E |- *; [|discriminate].
  destruct cm; cbn [andb Z.eqb Pos.eqb].
  - destruct (transpose_field uninit rf) as [f|e]; cbn [bind] in E |- *;
      [|discriminate].
    rewrite E. cbn [bind]. now apply set_row_ok.
  - rewrite E. cbn [bind]. now apply set_row_ok.
Qed.

(** *** The two loops fill the buffer row by row *)

Section Fill.

Variables (in_tensor : ndarray3 A) (C h w : nat) (zp : A) (cm : bool).
Variables (s : nat).

Hypothesis Hshape : shape3 in_tensor = (C, h, w).
Hypothesis Hs : 1 <= s.

Local Abbreviation ho := (h / s).
Local Abbreviation wo := (w / s).
Local Abbreviation tensor2 :=
  (pad_hw astype (transpose_120 uninit in_tensor) zp).
Local Abbreviation row_of :=
  (receptive_row uninit in_tensor (astype zp) s cm).
Local Abbreviation rows_upto :=
  (lowered_rows uninit in_tensor (astype zp) s cm wo).

Lemma window_fits_rows (r : nat) : r < ho -> s * r + 3 <= h + 2.
Proof.
  intros Hr.
  pose proof (Nat.Div0.mul_div_le h s). nia.
Qed.

Lemma window_fits_cols (c : nat) : c < wo -> s * c + 3 <= w + 2.
Proof.
  intros Hc.
  pose proof (Nat.Div0.mul_div_le w s). nia.
Qed.

Lemma length_rows_upto (r : nat) : length (rows_upto r) = r * wo.
Proof.
  unfold lowered_rows. rewrite length_flat_map_const with (n := wo).
  - now rewrite length_seq.
  - intros x. now rewrite length_map, length_seq.
Qed.

Lemma fill_row (r : nat) (pre old : list (list A)) (n k : nat) :
  r < ho -> length pre = r * wo -> wo <= length old -> k + n <= wo ->
  foldM (toeplitz_pixel uninit tensor2 3 (Z.of_nat s) (Z.of_nat wo) cm
                        (Z.of_nat r))
        (map Z.of_nat (seq k n))
        {| ncols := C * 9;
           rows := pre ++ map (row_of r) (seq 0 k) ++ skipn k old |}
  = Ok {| ncols := C * 9;
          rows := pre ++ map (row_of r) (seq 0 (k + n))
                      ++ skipn (k + n) old |}.
Proof.
  intros Hr Hpre Hold. revert k. induction n as [|n IH]; intros k Hk.
  - simpl. now rewrite Nat.add_0_r.
  - cbn [seq map foldM].
    rewrite (@toeplitz_pixel_ok in_tensor C h w zp cm s wo r k); try assumption.
    + cbn [bind ncols rows].
      destruct (@skipn_cons _ k old ltac:(lia)) as (x & Ex).
      rewrite Ex, app_assoc.
      replace (r * wo + k) with (length (pre ++ map (row_of r) (seq 0 k)))
        by (rewrite length_app, length_map, length_seq; lia).
      rewrite update_app_exact.
      specialize (IH (S k) ltac:(lia)).
      rewrite seq_S, map_app in IH. cbn [map Nat.add] in IH.
      rewrite <- !app_assoc in IH. cbn [app] in IH.
      rewrite <- app_assoc. rewrite IH.
      now rewrite Nat.add_succ_r.
    + now apply window_fits_rows.
    + apply window_fits_cols. lia.
    + reflexivity.
    + unfold nrows. cbn [rows].
      rewrite !length_app, length_map, length_seq, length_skipn. lia.
Qed.

Lemma fill_rows (init : list (list A)) (n k : nat) :
  length init = ho * wo -> k + n <= ho ->
  foldM (fun out r =>
           foldM (toeplitz_pixel uninit tensor2 3 (Z.of_nat s) (Z.of_nat wo)
                                 cm r)
                 (range (Z.of_nat wo)) out)
        (map Z.of_nat (seq k n))
        {| ncols := C * 9; rows := rows_upto k ++ skipn (k * wo) init |}
  = Ok {| ncols := C * 9;
          rows := rows_upto (k + n) ++ skipn ((k + n) * wo) init |}.
Proof.
  intros Hinit. rewrite range_of_nat.
  revert k. induction n as [|n IH]; intros k Hk.
  - simpl. now rewrite Nat.add_0_r.
  - cbn [seq map foldM].
    pose proof (@fill_row k (rows_upto k) (skipn (k * wo) init) wo 0) as E.
    cbn [seq map skipn app Nat.add] in E. rewrite E; clear E.
    + cbn [bind]. rewrite skipn_skipn.
      specialize (IH (S k) ltac:(lia)).
      replace (rows_upto (S k))
        with (rows_upto k ++ map (row_of k) (seq 0 wo)) in IH.
      * rewrite <- app_assoc in IH.
        replace (S k * wo) with (wo + k * wo) in IH by lia.
        rewrite IH. now rewrite Nat.add_succ_r.
      * unfold lowered_rows. rewrite seq_S, flat_map_app. simpl.
        now rewrite app_nil_r.
    + lia.
    + apply length_rows_upto.
    + rewrite length_skipn, Hinit. nia.
    + lia.
Qed.

(** For kernel size 3 and a stride of one or more, the lowering returns the
    matrix whose row [r * W_out + c] is the flattened 3x3xC field of output
    pixel [(r, c)]. *)
Lemma lowering_kernel3_closed_form :
  toeplitzize_input uninit astype in_tensor 3 (Z.of_nat s) cm zp
  = Ok {| ncols := C * 9; rows := rows_upto ho |}.
Proof.
  unfold toeplitzize_input.
  rewrite (transpose_120_shape _ Hshape). cbn [shape3].
  unfold floordiv. destruct (Z.eqb_spec (Z.of_nat s) 0) as [|_]; [lia|].
  cbn [bind Z.eqb Pos.eqb].
  rewrite <- !Nat2Z.inj_div.
  unfold np_empty_rows.
  destruct (Z.ltb_spec (Z.of_nat ho * Z.of_nat wo) 0) as [|_]; [lia|].
  cbn [bind]. rewrite !range_of_nat.
  rewrite <- (transpose_120_shape _ Hshape).
  replace (Z.to_nat (Z.of_nat ho * Z.of_nat wo)) with (ho * wo) by lia.
  pose proof (@fill_rows (repeat (repeat uninit (C * 9)) (ho * wo)) ho 0) as E.
  cbn [lowered_rows seq flat_map app Nat.mul skipn Nat.add] in E.
  rewrite range_of_nat in E.
  unfold np_empty. cbn [fst snd].
  rewrite E.
  - rewrite skipn_all2 by (rewrite repeat_length; lia).
    now rewrite app_nil_r.
  - apply repeat_length.
  - lia.
Qed.

End Fill.

End WindowLowering.

Lemma nth_error_flat_rows {T : Type} (f : nat -> nat -> T) (wo ho r c : nat) :
  r < ho -> c < wo ->
  nth_error (flat_map (fun r => map (f r) (seq 0 wo)) (seq 0 ho)) (r * wo + c)
  = Some (f r c).
Proof.
  intros Hr Hc. induction ho as [|ho IH]; [lia|].
  rewrite seq_S, flat_map_app. cbn [flat_map Nat.add]. rewrite app_nil_r.
  assert (Hlen : length (flat_map (fun r => map (f r) (seq 0 wo)) (seq 0 ho))
                 = ho * wo).
  { rewrite length_flat_map_const with (n := wo).
    - now rewrite length_seq.
    - intros x. now rewrite length_map, length_seq. }
  destruct (Nat.eq_dec r ho) as [->|Hne].
  - rewrite nth_error_app2 by lia. rewrite Hlen.
    replace (ho * wo + c - ho * wo) with c by lia.
    rewrite nth_error_map.
    rewrite (nth_error_nth' _ 0) by (rewrite length_seq; lia).
    now rewrite seq_nth.
  - rewrite nth_error_app1 by (rewrite Hlen; nia). apply IH. lia.
Qed.

(** C6, as the code has it.  For kernel size 3 and a stride of one or more,
    [toeplitzize_input] on a (channel, height, width) tensor returns a
    matrix of shape [(H_out * W_out, C * 9)] whose row [r * W_out + c] is
    the 3x3xC field of output pixel [(r, c)] read off the tensor padded by
    one on height and width with the zero point converted to the dtype of
    the tensor, flattened channels outermost or innermost.  In particular,
    for one channel, stride 1 and zero point 128, every position of an
    output row that corresponds to an out-of-bounds entry of the field
    holds 128 converted to that dtype, which is 128 itself when the dtype
    can hold 128. *)
Theorem toeplitz_kernel3_rows (uninit : Z) (astype : Z -> Z)
  (in_tensor : ndarray3 Z) (C h w : nat) :
  shape3 in_tensor = (C, h, w) ->
  (forall (strides : Z) (channel_minor : bool) (zero_point : Z),
      (1 <= strides)%Z ->
      let s := Z.to_nat strides in
      exists out,
        toeplitzize_input uninit astype in_tensor 3 strides channel_minor
                          zero_point
        = Ok out /\
        shape out = ((h / s) * (w / s), C * 9) /\
        forall r c, r < h / s -> c < w / s ->
          nth_error (rows out) (r * (w / s) + c)
          = Some (receptive_row uninit in_tensor (astype zero_point) s
                                channel_minor r c))
  /\
  (C = 1 ->
   forall channel_minor : bool,
   exists out,
     toeplitzize_input uninit astype in_tensor 3 1 channel_minor 128%Z
     = Ok out /\
     forall r c y x, r < h -> c < w -> y < 3 -> x < 3 ->
       out_of_bounds in_tensor (r + y) (c + x) = true ->
       nth (y * 3 + x) (nth (r * w + c) (rows out) []) uninit
       = astype 128%Z /\
       (astype 128%Z = 128%Z ->
        nth (y * 3 + x) (nth (r * w + c) (rows out) []) uninit = 128%Z)).
Proof.
  intros Hshape.
  assert (General : forall (strides : Z) (cm : bool) (zp : Z),
      (1 <= strides)%Z ->
      exists out,
        toeplitzize_input uninit astype in_tensor 3 strides cm zp = Ok out /\
        shape out = ((h / Z.to_nat strides) * (w / Z.to_nat strides), C * 9) /\
        forall r c, r < h / Z.to_nat strides -> c < w / Z.to_nat strides ->
          nth_error (rows out) (r * (w / Z.to_nat strides) + c)
          = Some (receptive_row uninit in_tensor (astype zp)
                                (Z.to_nat strides) cm r c)).
  { intros strides cm zp Hs.
    pose proof (@lowering_kernel3_closed_form Z uninit astype in_tensor C h w
                  zp cm (Z.to_nat strides) Hshape ltac:(lia)) as E.
    rewrite Z2Nat.id in E by lia. cbv zeta in E.
    eexists. split; [exact E|]. split.
    - unfold shape, nrows, lowered_rows. cbn [rows ncols]. f_equal.
      rewrite length_flat_map_const with (n := w / Z.to_nat strides).
      + now rewrite length_seq.
      + intros x. now rewrite length_map, length_seq.
    - intros r c Hr Hc. cbn [rows]. unfold lowered_rows.
      now apply (nth_error_flat_rows
                   (fun r c => receptive_row uninit in_tensor (astype zp)
                                 (Z.to_nat strides) cm r c)). }
  split; [exact General|].
  intros -> cm.
  destruct (General 1%Z cm 128%Z ltac:(lia)) as (out & E & _ & Hrow).
  exists out. split; [exact E|].
  intros r c y x Hr Hc Hy Hx Hoob.
  change (Z.to_nat 1) with 1 in Hrow. rewrite !Nat.div_1_r in Hrow.
  rewrite (nth_error_nth _ _ _ (Hrow r c Hr Hc)).
  rewrite (@receptive_row_unfold Z uninit in_tensor 1 h w (astype 128%Z) 1 cm
             r c Hshape).
  rewrite !Nat.mul_1_l.
  assert (Hpad : padded_at uninit in_tensor (astype 128%Z) (r + y) (c + x) 0
                 = astype 128%Z)
    by (unfold padded_at; now rewrite Hoob).
  assert (Hentry :
    nth (y * 3 + x)
        (if cm
         then flat_map (fun y0 =>
                flat_map (fun x0 =>
                  map (fun ch => padded_at uninit in_tensor (astype 128%Z)
                                   (r + y0) (c + x0) ch) (seq 0 1))
                  (seq 0 3)) (seq 0 3)
         else flat_map (fun ch =>
                flat_map (fun y0 =>
                  map (fun x0 => padded_at uninit in_tensor (astype 128%Z)
                                   (r + y0) (c + x0) ch) (seq 0 3))
                  (seq 0 3)) (seq 0 1))
        uninit
    = astype 128%Z).
  { destruct y as [|[|[|y]]]; try lia;
      (destruct x as [|[|[|x]]]; try lia);
      destruct cm; exact Hpad. }
  split; [exact Hentry|]. intros Hrep. now rewrite Hentry.
Qed.

Section UnsupportedKernel.

Context {A : Type}.

Variable uninit : A.
Variable astype : A -> A.

Lemma range_pos (n : Z) : (1 <= n)%Z -> exists rest, range n = 0%Z :: rest.
Proof.
  intros Hn. unfold range. destruct (Z.to_nat n) as [|k] eqn:E; [lia|].
  simpl. eauto.
Qed.

(** C8, as the code has it.  For a kernel size other than 1 and 3, a stride
    of one or more and an input with at least one output pixel (the stride
    exceeds neither height nor width), [toeplitzize_input] returns no result:
    it raises [AttributeError], when the [None] that
    [get_recfield_for_pixel] handed back is flattened for the first pixel. *)
Theorem toeplitz_other_ksize_raises (in_tensor : ndarray3 A) (C h w : nat)
  (ksize strides : Z) (channel_minor : bool) (zero_point : A) :
  shape3 in_tensor = (C, h, w) ->
  ksize <> 1%Z -> ksize <> 3%Z ->
  (1 <= strides)%Z -> (strides <= Z.of_nat h)%Z -> (strides <= Z.of_nat w)%Z ->
  toeplitzize_input uninit astype in_tensor ksize strides channel_minor
                    zero_point
  = Raise AttributeError.
Proof.
  intros Hshape K1 K3 Hs Hh Hw. unfold toeplitzize_input.
  unfold transpose_120. rewrite Hshape. cbn [shape3].
  unfold floordiv. destruct (Z.eqb_spec strides 0) as [|_]; [lia|].
  cbn [bind]. destruct (Z.eqb_spec ksize 3) as [|_]; [contradiction|].
  assert (HH : (1 <= Z.of_nat h / strides)%Z)
    by (apply Z.div_le_lower_bound; lia).
  assert (HW : (1 <= Z.of_nat w / strides)%Z)
    by (apply Z.div_le_lower_bound; lia).
  unfold np_empty_rows.
  destruct (Z.ltb_spec (Z.of_nat h / strides * (Z.of_nat w / strides)) 0);
    [nia|].
  cbn [bind].
  destruct (range_pos HH) as (rs & ->). destruct (range_pos HW) as (cs & ->).
  cbn [foldM]. unfold toeplitz_pixel at 1, get_recfield_for_pixel.
  destruct (Z.eqb_spec ksize 1) as [|_]; [contradiction|].
  destruct (Z.eqb_spec ksize 3) as [|_]; [contradiction|].
  rewrite Bool.andb_false_r. reflexivity.
Qed.

End UnsupportedKernel.

(** ** MatrixTiler and ShapePlanner: the grid *)

Lemma ceil_reps_ceildiv (n : nat) (W : Z) :
  (0 < W)%Z ->
  ceil_reps (Z.of_nat n) W = Ok (Z.of_nat (ceildiv n (Z.to_nat W))).
Proof.
  intros HW. destruct (@ceil_reps_pos n W HW) as (reps & -> & Hcov & Hz & Hpos).
  do 2 f_equal. unfold ceildiv. set (w := Z.to_nat W) in *.
  assert (Hw : 0 < w) by (unfold w; lia).
  destruct (Nat.eq_dec n 0) as [->|Hn].
  - rewrite (Hz eq_refl). simpl. symmetry. apply Nat.div_small. lia.
  - destruct (Hpos ltac:(lia)) as [Hlast Hreps].
    apply (Nat.div_unique (n + w - 1) w reps (n + w - 1 - w * reps)); nia.
Qed.

Lemma groups_pos (n w : nat) : 0 < w -> 0 < groups n w.
Proof.
  intros Hw. unfold groups, ceildiv. destruct (Nat.ltb_spec w n); [|lia].
  apply Nat.div_str_pos. lia.
Qed.

Lemma ceildiv_covers (n w : nat) :
  0 < w -> n <= w * ceildiv n w /\ (0 < n -> w * (ceildiv n w - 1) < n).
Proof.
  intros Hw. unfold ceildiv.
  pose proof (Nat.div_mod_eq (n + w - 1) w) as E.
  pose proof (Nat.mod_upper_bound (n + w - 1) w ltac:(lia)) as B.
  split; [nia|]. intros Hn.
  assert (0 < (n + w - 1) / w) by (apply Nat.div_str_pos; lia). nia.
Qed.

Lemma groups_covers (n w : nat) :
  0 < w -> n <= w * groups n w /\ (0 < n -> w * (groups n w - 1) < n).
Proof.
  intros Hw. unfold groups. destruct (Nat.ltb_spec w n).
  - now apply ceildiv_covers.
  - simpl. lia.
Qed.

Section Grid.

Context {A : Type}.
Implicit Types (m mat : matrix A).

Lemma col_slice_whole m (W : Z) :
  wf_matrix m -> (Z.of_nat (ncols m) <= W)%Z ->
  col_slice m (W * 0) (W * 0 + W) = m.
Proof.
  intros Hwf Hle. destruct m as [c rs]. unfold col_slice, wf_matrix in *.
  simpl in *. replace (W * 0)%Z with (Z.of_nat 0) by lia.
  replace (Z.of_nat 0 + W)%Z with (Z.of_nat (Z.to_nat W)) by lia.
  rewrite slice_len_nat by lia. f_equal; [lia|].
  rewrite <- (map_id rs) at 2. apply map_ext_in. intros r Hr.
  rewrite slice_nat by lia. simpl. apply firstn_all2.
  rewrite Forall_forall in Hwf. rewrite (Hwf r Hr). lia.
Qed.

Lemma row_slice_whole mat (H : Z) :
  (Z.of_nat (nrows mat) <= H)%Z -> row_slice mat (H * 0) (H * 0 + H) = mat.
Proof.
  intros Hle. destruct mat as [c rs]. unfold row_slice, nrows in *.
  simpl in *. f_equal. replace (H * 0)%Z with (Z.of_nat 0) by lia.
  replace (Z.of_nat 0 + H)%Z with (Z.of_nat (Z.to_nat H)) by lia.
  rewrite slice_nat by lia. simpl. apply firstn_all2. lia.
Qed.

Lemma split_columns_grid m (W : Z) :
  wf_matrix m -> (0 < W)%Z ->
  split_columns m W
  = Ok (map (fun i => col_slice m (W * i) (W * i + W))
            (range (Z.of_nat (groups (ncols m) (Z.to_nat W))))).
Proof.
  intros Hwf HW. unfold split_columns, groups.
  destruct (Z.gtb_spec (Z.of_nat (ncols m)) W) as [Hgt|Hle].
  - destruct (Nat.ltb_spec (Z.to_nat W) (ncols m)); [|lia].
    now rewrite ceil_reps_ceildiv.
  - destruct (Nat.ltb_spec (Z.to_nat W) (ncols m)); [lia|].
    simpl. now rewrite col_slice_whole.
Qed.

Lemma split_rows_grid mat (H : Z) :
  (0 < H)%Z ->
  split_rows H mat
  = Ok (map (fun j => row_slice mat (H * j) (H * j + H))
            (range (Z.of_nat (groups (nrows mat) (Z.to_nat H))))).
Proof.
  intros HH. unfold split_rows, groups.
  destruct (Z.gtb_spec (Z.of_nat (nrows mat)) H) as [Hgt|Hle].
  - destruct (Nat.ltb_spec (Z.to_nat H) (nrows mat)); [|lia].
    now rewrite ceil_reps_ceildiv.
  - destruct (Nat.ltb_spec (Z.to_nat H) (nrows mat)); [lia|].
    simpl. now rewrite row_slice_whole.
Qed.

Lemma nrows_col_slice m (lo hi : Z) : nrows (col_slice m lo hi) = nrows m.
Proof. unfold nrows. simpl. apply length_map. Qed.

(** For a rectangular matrix and positive limits the grid in closed form. *)
Lemma split_matrix_closed m (H W : Z) :
  wf_matrix m -> (0 < H)%Z -> (0 < W)%Z ->
  split_matrix_into_chunks m H W
  = Ok (map (fun i =>
          map (fun j => submatrix m (H * j) (H * j + H) (W * i) (W * i + W))
              (range (Z.of_nat (groups (nrows m) (Z.to_nat H)))))
          (range (Z.of_nat (groups (ncols m) (Z.to_nat W))))).
Proof.
  intros Hwf HH HW. unfold split_matrix_into_chunks.
  rewrite split_columns_grid by assumption. cbn [bind].
  rewrite (mapM_Ok_map (split_rows H)
             (fun mat => map (fun j => row_slice mat (H * j) (H * j + H))
                             (range (Z.of_nat (groups (nrows m) (Z.to_nat H)))))).
  - now rewrite map_map.
  - intros mat Hin. apply in_map_iff in Hin. destruct Hin as (i & <- & _).
    rewrite split_rows_grid by assumption. now rewrite nrows_col_slice.
Qed.

Lemma nth_error_chunk {T : Type} (l : list T) (W : Z) (k b : nat) :
  (0 < W)%Z ->
  nth_error (slice l (W * Z.of_nat k) (W * Z.of_nat k + W)) b
  = if (b <? Z.to_nat W)%nat then nth_error l (Z.to_nat W * k + b) else None.
Proof.
  intros HW. rewrite chunk_slice by assumption.
  now rewrite nth_error_firstn, nth_error_skipn.
Qed.

Lemma entry_submatrix m (H W : Z) (i j a b : nat) :
  (0 < H)%Z -> (0 < W)%Z ->
  entry (submatrix m (H * Z.of_nat j) (H * Z.of_nat j + H)
                     (W * Z.of_nat i) (W * Z.of_nat i + W)) a b
  = if (a <? Z.to_nat H)%nat && (b <? Z.to_nat W)%nat
    then entry m (Z.to_nat H * j + a) (Z.to_nat W * i + b)
    else None.
Proof.
  intros HH HW. unfold entry, submatrix. cbn [rows row_slice col_slice].
  rewrite nth_error_chunk by assumption.
  destruct (a <? Z.to_nat H)%nat; [|reflexivity]. cbn [andb].
  rewrite nth_error_map.
  destruct (nth_error (rows m) (Z.to_nat H * j + a)) as [row|];
    [|now destruct (b <? Z.to_nat W)%nat].
  cbn [option_map]. now apply nth_error_chunk.
Qed.

(** X1. For a rectangular matrix and positive limits the grid has
    [groups cols W] column groups of [groups rows H] row groups each, and
    chunk [(i, j)] holds at [(a, b)], for [a < H] and [b < W], the entry of
    the matrix at [(H*j + a, W*i + b)], and nothing beyond. *)
Theorem split_matrix_grid m (H W : Z) :
  wf_matrix m -> (0 < H)%Z -> (0 < W)%Z ->
  exists grid,
    split_matrix_into_chunks m H W = Ok grid /\
    length grid = groups (ncols m) (Z.to_nat W) /\
    forall i col, nth_error grid i = Some col ->
      length col = groups (nrows m) (Z.to_nat H) /\
      forall j chunk, nth_error col j = Some chunk ->
        forall a b,
          entry chunk a b
          = if (a <? Z.to_nat H)%nat && (b <? Z.to_nat W)%nat
            then entry m (Z.to_nat H * j + a) (Z.to_nat W * i + b)
            else None.
Proof.
  intros Hwf HH HW. rewrite split_matrix_closed by assumption.
  eexists. split; [reflexivity|]. rewrite !range_of_nat. split.
  - now rewrite !length_map, length_seq.
  - intros i col Ei. rewrite map_map, nth_error_map, nth_error_seq in Ei.
    destruct (i <? groups (ncols m) (Z.to_nat W))%nat; [|discriminate].
    cbn [option_map Nat.add] in Ei. inversion Ei. subst col. clear Ei. split.
    + now rewrite !length_map, length_seq.
    + intros j chunk Ej. rewrite map_map, nth_error_map, nth_error_seq in Ej.
      destruct (j <? groups (nrows m) (Z.to_nat H))%nat; [|discriminate].
      cbn [option_map Nat.add] in Ej. inversion Ej. subst chunk. clear Ej.
      intros a b. now apply entry_submatrix.
Qed.

Lemma wf_col_slice m (lo hi : Z) : wf_matrix m -> wf_matrix (col_slice m lo hi).
Proof.
  unfold wf_matrix. simpl. intros Hwf. apply Forall_map.
  eapply Forall_impl; [|exact Hwf]. simpl. intros r Hr.
  now rewrite slice_length, Hr.
Qed.

Lemma Forall_slice {T : Type} (P : T -> Prop) (l : list T) (lo hi : Z) :
  Forall P l -> Forall P (slice l lo hi).
Proof.
  intros Hl. unfold slice.
  set (a := slice_bound (Z.of_nat (length l)) lo).
  set (n := slice_len (length l) lo hi).
  rewrite <- (firstn_skipn a l) in Hl. apply Forall_app in Hl.
  destruct Hl as [_ Hs].
  rewrite <- (firstn_skipn n (skipn a l)) in Hs. apply Forall_app in Hs.
  exact (proj1 Hs).
Qed.

Lemma wf_row_slice mat (lo hi : Z) :
  wf_matrix mat -> wf_matrix (row_slice mat lo hi).
Proof. unfold wf_matrix. simpl. apply Forall_slice. Qed.

Lemma chunk_len_bounds (n : nat) (W : Z) (k : nat) :
  (0 < W)%Z ->
  slice_len n (W * Z.of_nat k) (W * Z.of_nat k + W) <= Z.to_nat W /\
  (Z.to_nat W * k < n ->
   1 <= slice_len n (W * Z.of_nat k) (W * Z.of_nat k + W)).
Proof. intros HW. rewrite chunk_slice_len by assumption. lia. Qed.

(** X2. For a rectangular matrix and positive limits every chunk of the grid
    is itself rectangular, has at most [H] rows and at most [W] columns, and,
    when the matrix has a row and a column, at least one of each: no chunk
    is empty and none exceeds the tile. *)
Theorem split_matrix_chunks_fit m (H W : Z) :
  wf_matrix m -> (0 < H)%Z -> (0 < W)%Z ->
  exists grid,
    split_matrix_into_chunks m H W = Ok grid /\
    Forall (Forall (fun chunk =>
              wf_matrix chunk /\
              (Z.of_nat (nrows chunk) <= H)%Z /\
              (Z.of_nat (ncols chunk) <= W)%Z /\
              (0 < nrows m -> 0 < ncols m ->
               0 < nrows chunk /\ 0 < ncols chunk))) grid.
Proof.
  intros Hwf HH HW. rewrite split_matrix_closed by assumption.
  eexists. split; [reflexivity|].
  apply Forall_map. apply Forall_forall. intros i Hi.
  apply Forall_map. apply Forall_forall. intros j Hj.
  rewrite range_of_nat in Hi, Hj.
  apply in_map_iff in Hi. destruct Hi as (ki & <- & Hki).
  apply in_map_iff in Hj. destruct Hj as (kj & <- & Hkj).
  apply in_seq in Hki. apply in_seq in Hkj.
  unfold submatrix.
  assert (Hr : nrows (row_slice (col_slice m (W * Z.of_nat ki)
                                   (W * Z.of_nat ki + W))
                        (H * Z.of_nat kj) (H * Z.of_nat kj + H))
               = slice_len (nrows m) (H * Z.of_nat kj) (H * Z.of_nat kj + H)).
  { unfold nrows. cbn [rows row_slice col_slice].
    now rewrite slice_length, length_map. }
  rewrite Hr. cbn [ncols row_slice col_slice].
  destruct (chunk_len_bounds (nrows m) kj HH) as [Br1 Br2].
  destruct (chunk_len_bounds (ncols m) ki HW) as [Bc1 Bc2].
  split; [now apply wf_row_slice, wf_col_slice|].
  split; [lia|]. split; [lia|].
  intros Hnr Hnc.
  destruct (@groups_covers (nrows m) (Z.to_nat H) ltac:(lia)) as [_ Gr].
  destruct (@groups_covers (ncols m) (Z.to_nat W) ltac:(lia)) as [_ Gc].
  specialize (Gr Hnr). specialize (Gc Hnc).
  split; [apply Br2 | apply Bc2]; nia.
Qed.

End Grid.

(** ** ShapePlanner: counts, bounds and area *)

Section Planner.

Context {A : Type}.

Variable uninit : A.

Lemma wf_np_empty (shp : nat * nat) : wf_matrix (np_empty uninit shp).
Proof.
  unfold wf_matrix, np_empty. simpl. apply Forall_forall. intros r Hr.
  apply repeat_spec in Hr. subst r. apply repeat_length.
Qed.

Lemma shape_submatrix (m : matrix A) (rlo rhi clo chi : Z) :
  shape (submatrix m rlo rhi clo chi)
  = (slice_len (nrows m) rlo rhi, slice_len (ncols m) clo chi).
Proof.
  unfold submatrix. rewrite shape_row_slice. cbn [ncols col_slice].
  now rewrite nrows_col_slice.
Qed.

Lemma split_shape_grid (shp : nat * nat) (H W : Z) :
  (0 < H)%Z -> (0 < W)%Z ->
  split_shape_into_chunks uninit shp H W
  = Ok (map (fun i =>
          map (fun j => (slice_len (fst shp) (H * j) (H * j + H),
                         slice_len (snd shp) (W * i) (W * i + W)))
              (range (Z.of_nat (groups (fst shp) (Z.to_nat H)))))
          (range (Z.of_nat (groups (snd shp) (Z.to_nat W))))).
Proof.
  intros HH HW. rewrite split_shape_as_matrix.
  rewrite split_matrix_closed by (try apply wf_np_empty; assumption).
  cbn [bind].
  assert (Hr : nrows (np_empty uninit shp) = fst shp)
    by (unfold nrows; simpl; apply repeat_length).
  assert (Hc : ncols (np_empty uninit shp) = snd shp) by reflexivity.
  rewrite Hr, Hc.
  f_equal. rewrite map_map. apply map_ext. intros i.
  rewrite map_map. apply map_ext. intros j.
  rewrite shape_submatrix. now rewrite Hr, Hc.
Qed.

Lemma sum_chunk_lens (n : nat) (W : Z) (g : nat) :
  (0 < W)%Z ->
  list_sum (map (fun k => slice_len n (W * k) (W * k + W))
                (map Z.of_nat (seq 0 g)))
  = Nat.min (Z.to_nat W * g) n.
Proof.
  intros HW. induction g as [|g IH]; [simpl; lia|].
  rewrite seq_S, !map_app, list_sum_app, IH. cbn [map list_sum Nat.add].
  rewrite chunk_slice_len by assumption.
  replace (Z.to_nat W * S g) with (Z.to_nat W * g + Z.to_nat W) by lia.
  cbn [list_sum fold_right]. lia.
Qed.

Lemma sum_group_lens (n : nat) (W : Z) :
  (0 < W)%Z ->
  list_sum (map (fun k => slice_len n (W * k) (W * k + W))
                (range (Z.of_nat (groups n (Z.to_nat W)))))
  = n.
Proof.
  intros HW. rewrite range_of_nat, sum_chunk_lens by assumption.
  destruct (@groups_covers n (Z.to_nat W) ltac:(lia)) as [Hc _]. lia.
Qed.

Lemma list_sum_map_mul_r {T : Type} (f : T -> nat) (c : nat) (l : list T) :
  list_sum (map (fun x => f x * c) l) = list_sum (map f l) * c.
Proof. induction l as [|x l IH]; simpl; [reflexivity | rewrite IH; lia]. Qed.

Lemma list_sum_map_mul_l {T : Type} (f : T -> nat) (c : nat) (l : list T) :
  list_sum (map (fun x => c * f x) l) = c * list_sum (map f l).
Proof. induction l as [|x l IH]; simpl; [lia | rewrite IH; lia]. Qed.

Lemma total_area_app (l1 l2 : list (nat * nat)) :
  total_area (l1 ++ l2) = total_area l1 + total_area l2.
Proof. unfold total_area. now rewrite map_app, list_sum_app. Qed.

Lemma total_area_flat_map {T : Type} (F : T -> list (nat * nat)) (l : list T) :
  total_area (flat_map F l) = list_sum (map (fun x => total_area (F x)) l).
Proof.
  induction l as [|x l IH]; simpl; [reflexivity|].
  now rewrite total_area_app, IH.
Qed.

Lemma total_area_tiles_of (shp : nat * nat) (H W : Z) :
  (0 < H)%Z -> (0 < W)%Z -> total_area (tiles_of H W shp) = area shp.
Proof.
  intros HH HW. unfold tiles_of. rewrite total_area_flat_map.
  rewrite (map_ext _ (fun i => fst shp
                               * slice_len (snd shp) (W * i) (W * i + W))).
  - rewrite list_sum_map_mul_l, sum_group_lens by assumption. reflexivity.
  - intros i. unfold total_area, area. rewrite map_map. cbn [fst snd].
    rewrite (list_sum_map_mul_r
               (fun j => slice_len (fst shp) (H * j) (H * j + H))).
    now rewrite sum_group_lens.
Qed.

Lemma tiles_of_fit (shp : nat * nat) (H W : Z) :
  (0 < H)%Z -> (0 < W)%Z -> Forall (fits_tile H W) (tiles_of H W shp).
Proof.
  intros HH HW. unfold tiles_of. apply Forall_flat_map.
  apply Forall_forall. intros i Hi. apply Forall_map.
  apply Forall_forall. intros j Hj.
  rewrite range_of_nat in Hi, Hj.
  apply in_map_iff in Hi. destruct Hi as (ki & <- & _).
  apply in_map_iff in Hj. destruct Hj as (kj & <- & _).
  unfold fits_tile. cbn [fst snd].
  destruct (chunk_len_bounds (fst shp) kj HH) as [B1 _].
  destruct (chunk_len_bounds (snd shp) ki HW) as [B2 _]. lia.
Qed.

Lemma length_tiles_of (shp : nat * nat) (H W : Z) :
  length (tiles_of H W shp)
  = groups (snd shp) (Z.to_nat W) * groups (fst shp) (Z.to_nat H).
Proof.
  unfold tiles_of.
  rewrite length_flat_map_const
    with (n := groups (fst shp) (Z.to_nat H)).
  - now rewrite range_of_nat, length_map, length_seq.
  - intros i. now rewrite length_map, range_of_nat, length_map, length_seq.
Qed.

(** X3. For positive limits the shape planner returns, for a shape
    [(rows, cols)], [groups cols W] column groups of [groups rows H] shapes
    each; every shape fits the tile, and the areas add up to [rows * cols]:
    the plan covers the matrix exactly once. *)
Theorem split_shape_plan (shp : nat * nat) (H W : Z) :
  (0 < H)%Z -> (0 < W)%Z ->
  exists plan,
    split_shape_into_chunks uninit shp H W = Ok plan /\
    length plan = groups (snd shp) (Z.to_nat W) /\
    Forall (fun col => length col = groups (fst shp) (Z.to_nat H)) plan /\
    Forall (Forall (fits_tile H W)) plan /\
    total_area (concat plan) = area shp.
Proof.
  intros HH HW. rewrite split_shape_grid by assumption.
  eexists. split; [reflexivity|].
  pose proof (tiles_of_fit shp HH HW) as Hfit.
  pose proof (total_area_tiles_of shp HH HW) as Harea.
  unfold tiles_of in Hfit, Harea. rewrite flat_map_concat_map in Hfit, Harea.
  split; [now rewrite length_map, range_of_nat, length_map, length_seq|].
  split.
  - apply Forall_map. apply Forall_forall. intros i _.
    now rewrite length_map, range_of_nat, length_map, length_seq.
  - split; [|exact Harea]. now apply Forall_concat in Hfit.
Qed.

Lemma array_reshape_uniform (n : nat) (grid : list (list (nat * nat))) :
  Forall (fun col => length col = n) grid ->
  array_reshape_pairs grid = Ok (concat grid).
Proof.
  intros Hu. destruct grid as [|c cs]; [reflexivity|].
  unfold array_reshape_pairs.
  inversion Hu as [|? ? Hc Hcs]. subst.
  replace (forallb (fun c' => Nat.eqb (length c') (length c)) cs) with true;
    [reflexivity|].
  symmetry. apply forallb_forall. intros c' Hin.
  rewrite Forall_forall in Hcs. rewrite (Hcs c' Hin). apply Nat.eqb_refl.
Qed.

Lemma tiles_of_concat (H W : Z) (shp : nat * nat) :
  tiles_of H W shp
  = concat (map (fun i =>
              map (fun j => (slice_len (fst shp) (H * j) (H * j + H),
                             slice_len (snd shp) (W * i) (W * i + W)))
                  (range (Z.of_nat (groups (fst shp) (Z.to_nat H)))))
              (range (Z.of_nat (groups (snd shp) (Z.to_nat W))))).
Proof. unfold tiles_of. apply flat_map_concat_map. Qed.

Lemma split_shapelist_closed (shapelist : list (nat * nat)) (H W : Z)
  (acc : list (nat * nat)) :
  (0 < H)%Z -> (0 < W)%Z ->
  foldM (fun outlist shp =>
           chunk_shape_list <- split_shape_into_chunks uninit shp H W ;;
           flat <- array_reshape_pairs chunk_shape_list ;;
           Ok (outlist ++ flat))
        shapelist acc
  = Ok (acc ++ flat_map (tiles_of H W) shapelist).
Proof.
  intros HH HW. revert acc.
  induction shapelist as [|shp l IH]; intros acc; simpl.
  - now rewrite app_nil_r.
  - rewrite split_shape_grid by assumption. cbn [bind].
    rewrite array_reshape_uniform
      with (n := groups (fst shp) (Z.to_nat H)).
    + cbn [bind]. rewrite IH, <- app_assoc.
      now rewrite <- tiles_of_concat.
    + apply Forall_map. apply Forall_forall. intros i _.
      now rewrite length_map, range_of_nat, length_map, length_seq.
Qed.

(** X4. For positive limits [split_shapelist_into_chunks] returns a flat
    list of tiles that all fit, number
    [groups cols W * groups rows H] per shape, and hold together exactly the
    entries of the given shapes. *)
Theorem split_shapelist_tiles (shapelist : list (nat * nat)) (H W : Z) :
  (0 < H)%Z -> (0 < W)%Z ->
  exists tiles,
    split_shapelist_into_chunks uninit shapelist H W = Ok tiles /\
    Forall (fits_tile H W) tiles /\
    total_area tiles = total_area shapelist /\
    length tiles
    = list_sum (map (fun shp => groups (snd shp) (Z.to_nat W)
                                * groups (fst shp) (Z.to_nat H)) shapelist).
Proof.
  intros HH HW. unfold split_shapelist_into_chunks.
  rewrite split_shapelist_closed by assumption. cbn [app].
  eexists. split; [reflexivity|]. split; [|split].
  - apply Forall_flat_map. apply Forall_forall. intros shp _.
    now apply tiles_of_fit.
  - rewrite total_area_flat_map. unfold total_area at 2.
    f_equal. apply map_ext. intros shp. now apply total_area_tiles_of.
  - induction shapelist as [|shp l IH]; [reflexivity|].
    cbn [flat_map map list_sum]. now rewrite length_app, length_tiles_of, IH.
Qed.

Lemma tiles_of_fitting (shp : nat * nat) (H W : Z) :
  (0 < H)%Z -> (0 < W)%Z -> fits_tile H W shp -> tiles_of H W shp = [shp].
Proof.
  intros HH HW [Hr Hc]. unfold tiles_of, groups.
  destruct (Nat.ltb_spec (Z.to_nat W) (snd shp)); [lia|].
  destruct (Nat.ltb_spec (Z.to_nat H) (fst shp)); [lia|].
  change (range (Z.of_nat 1)) with [Z.of_nat 0]. cbn [flat_map map app].
  rewrite !chunk_slice_len by assumption.
  destruct shp as [r c]. cbn [fst snd] in *. f_equal. f_equal; lia.
Qed.

(** X5. Planning is idempotent and distributes over concatenation: for
    positive limits, tiles that already fit are returned as they are, so
    planning the plan of a list of shapes changes nothing; and the plan of
    two lists put together is the two plans put together. *)
Theorem split_shapelist_idempotent (l1 l2 : list (nat * nat)) (H W : Z) :
  (0 < H)%Z -> (0 < W)%Z ->
  exists t1 t2,
    split_shapelist_into_chunks uninit l1 H W = Ok t1 /\
    split_shapelist_into_chunks uninit l2 H W = Ok t2 /\
    split_shapelist_into_chunks uninit (l1 ++ l2) H W = Ok (t1 ++ t2) /\
    split_shapelist_into_chunks uninit t1 H W = Ok t1.
Proof.
  intros HH HW. unfold split_shapelist_into_chunks.
  rewrite !split_shapelist_closed by assumption. cbn [app].
  do 2 eexists. split; [reflexivity|]. split; [reflexivity|].
  split; [now rewrite flat_map_app|].
  rewrite split_shapelist_closed by assumption. cbn [app]. f_equal.
  assert (Hfit : Forall (fits_tile H W) (flat_map (tiles_of H W) l1)).
  { apply Forall_flat_map. apply Forall_forall. intros shp _.
    now apply tiles_of_fit. }
  induction (flat_map (tiles_of H W) l1) as [|t ts IH]; [reflexivity|].
  inversion Hfit as [|? ? Ht Hts]. subst. cbn [flat_map].
  rewrite tiles_of_fitting by assumption. cbn [app]. f_equal. now apply IH.
Qed.

End Planner.

(** ** Limits that are no tile sizes *)

Section BadLimits.

Context {A : Type}.
Implicit Types (m mat : matrix A).

Lemma split_columns_nonempty m (W : Z) :
  (0 < W)%Z ->
  exists out, split_columns m W = Ok out /\ out <> [] /\
              Forall (fun mat => nrows mat = nrows m) out.
Proof.
  intros HW. unfold split_columns.
  destruct (Z.gtb_spec (Z.of_nat (ncols m)) W) as [Hgt|Hle].
  - destruct (@ceil_reps_pos (ncols m) W HW) as (reps & -> & _ & _ & Hpos).
    destruct Hpos as [_ Hpos]; [lia|].
    cbn [bind]. eexists. split; [reflexivity|]. split.
    + rewrite range_of_nat. destruct reps; [lia|]. discriminate.
    + apply Forall_map. apply Forall_forall. intros i _.
      apply nrows_col_slice.
  - exists [m]. split; [reflexivity|]. split; [discriminate|].
    now constructor.
Qed.

Lemma split_rows_zero_limit mat :
  0 < nrows mat -> split_rows 0 mat = Raise ZeroDivisionError.
Proof.
  intros Hn. unfold split_rows.
  destruct (Z.gtb_spec (Z.of_nat (nrows mat)) 0); [reflexivity | lia].
Qed.

Lemma split_rows_negative_limit mat (H : Z) :
  (H < 0)%Z -> split_rows H mat = Ok [].
Proof.
  intros HH. unfold split_rows.
  destruct (Z.gtb_spec (Z.of_nat (nrows mat)) H); [|lia].
  destruct (ceil_reps (Z.of_nat (nrows mat)) H) as [reps|e] eqn:E.
  - apply ceil_reps_neg in E; [|assumption]. cbn [bind]. unfold range.
    now replace (Z.to_nat reps) with 0 by lia.
  - unfold ceil_reps, floordiv, modulo in E.
    destruct (Z.eqb_spec H 0); [lia | discriminate].
Qed.

(** X6. What the matrix tiler does with a limit that is zero or negative.
    A zero column limit on a matrix with a column, or a zero row limit on a
    matrix with a row, divides by zero; a negative column limit returns a
    grid without any column group; a negative row limit returns column
    groups without any chunk.  No matrix entry reaches the result. *)
Theorem split_matrix_bad_limits m (H W : Z) :
  (W = 0%Z -> 0 < ncols m ->
   split_matrix_into_chunks m H W = Raise ZeroDivisionError) /\
  ((W < 0)%Z -> split_matrix_into_chunks m H W = Ok []) /\
  ((0 < W)%Z -> H = 0%Z -> 0 < nrows m ->
   split_matrix_into_chunks m H W = Raise ZeroDivisionError) /\
  ((0 < W)%Z -> (H < 0)%Z ->
   exists n, 0 < n /\ split_matrix_into_chunks m H W = Ok (repeat [] n)).
Proof.
  unfold split_matrix_into_chunks. repeat split.
  - intros -> Hc. unfold split_columns.
    destruct (Z.gtb_spec (Z.of_nat (ncols m)) 0); [reflexivity | lia].
  - intros HW. unfold split_columns.
    destruct (Z.gtb_spec (Z.of_nat (ncols m)) W); [|lia].
    destruct (ceil_reps (Z.of_nat (ncols m)) W) as [reps|e] eqn:E.
    + apply ceil_reps_neg in E; [|assumption]. cbn [bind]. unfold range.
      now replace (Z.to_nat reps) with 0 by lia.
    + unfold ceil_reps, floordiv, modulo in E.
      destruct (Z.eqb_spec W 0); [lia | discriminate].
  - intros HW -> Hr.
    destruct (split_columns_nonempty m HW) as (out & -> & Hne & Hrows).
    cbn [bind]. destruct out as [|mat out]; [congruence|].
    inversion Hrows as [|? ? Hm _]. subst. cbn [mapM].
    rewrite split_rows_zero_limit by lia. reflexivity.
  - intros HW HH.
    destruct (split_columns_nonempty m HW) as (out & -> & Hne & _).
    cbn [bind]. exists (length out). split.
    + destruct out; [congruence | simpl; lia].
    + clear Hne. induction out as [|mat out IH]; [reflexivity|].
      cbn [mapM]. rewrite split_rows_negative_limit by assumption.
      cbn [bind]. rewrite IH. reflexivity.
Qed.

End BadLimits.

(** ** VectorTiler: where the bias is cut *)

Section VectorCuts.

Context {A : Type}.

Lemma grouper_slices (W : nat) (fuel : nat) (l : list A) (n : nat) :
  1 <= W -> length l <= fuel ->
  length l <= W * n -> (0 < length l -> W * (n - 1) < length l) ->
  (length l = 0 -> n = 0) ->
  map drop_none (grouper fuel W l)
  = map (fun k => firstn W (skipn (W * k) l)) (seq 0 n).
Proof.
  intros HW. revert l n. induction fuel as [|fuel IH]; intros l n Hf Hc Hl Hz.
  - destruct l; [|simpl in Hf; lia]. now rewrite (Hz eq_refl).
  - destruct l as [|x l'].
    + now rewrite (Hz eq_refl).
    + assert (E : grouper (S fuel) W (x :: l')
                  = (map Some (firstn W (x :: l'))
                       ++ repeat None (W - length (x :: l')))
                      :: grouper fuel W (skipn W (x :: l'))) by reflexivity.
      remember (x :: l') as l eqn:El.
      assert (Hpos : 0 < length l) by (subst l; simpl; lia).
      clear El x l' Hz. rewrite E. cbn [map]. rewrite drop_none_padded.
      destruct n as [|n]; [lia|]. specialize (Hl Hpos).
      cbn [seq map]. rewrite Nat.mul_0_r. cbn [skipn]. f_equal.
      rewrite (IH (skipn W l) n).
      * rewrite <- seq_shift, map_map. apply map_ext. intros k.
        rewrite skipn_skipn. do 2 f_equal. lia.
      * rewrite length_skipn. simpl in Hf. lia.
      * rewrite length_skipn. nia.
      * rewrite length_skipn. intros Hp. nia.
      * rewrite length_skipn. intros Hp0.
        destruct n; [reflexivity|]. exfalso. nia.
Qed.

Lemma split_vector_as_slices (vector : ndarray1 A) (W : Z) :
  (1 <= W)%Z ->
  split_vector_into_chunks vector W
  = map (fun i => slice (entries vector) (W * i) (W * i + W))
        (range (Z.of_nat (ceildiv (length (entries vector)) (Z.to_nat W)))).
Proof.
  intros HW.
  assert (E : split_vector_into_chunks vector W
              = map drop_none
                  (grouper (length (entries vector)) (Z.to_nat W)
                           (entries vector))).
  { unfold split_vector_into_chunks, zip_longest_same_iter.
    destruct (Z.leb_spec W 0); [lia|]. now destruct vector. }
  rewrite E. clear E. set (v := entries vector).
  destruct (@ceildiv_covers (length v) (Z.to_nat W) ltac:(lia)) as [Hc Hl].
  rewrite (@grouper_slices (Z.to_nat W) (length v) v
             (ceildiv (length v) (Z.to_nat W))); try lia; try assumption.
  - rewrite range_of_nat, map_map. apply map_ext. intros k.
    rewrite chunk_slice by lia. reflexivity.
  - intros Hz. unfold ceildiv. rewrite Hz. apply Nat.div_small. lia.
Qed.

(** X7. For a limit [W >= 1] the bias chunks are the slices
    [v[W*i : W*i+W]] for [i] below the ceiling of [len(v) / W], the same
    cuts the column loop of the matrix tiler makes (so an empty vector has
    no chunk); a limit [W <= 0] drops every entry. *)
Theorem split_vector_slices (vector : ndarray1 A) (W : Z) :
  ((1 <= W)%Z ->
   split_vector_into_chunks vector W
   = map (fun i => slice (entries vector) (W * i) (W * i + W))
         (range (Z.of_nat (ceildiv (length (entries vector)) (Z.to_nat W)))))
  /\ ((W <= 0)%Z -> split_vector_into_chunks vector W = []).
Proof.
  split; [apply split_vector_as_slices|].
  intros HW. unfold split_vector_into_chunks, zip_longest_same_iter.
  destruct (Z.leb_spec W 0); [reflexivity | lia].
Qed.

Lemma groups_ceildiv (n w : nat) : 0 < w -> 0 < n -> groups n w = ceildiv n w.
Proof.
  intros Hw Hn. unfold groups. destruct (Nat.ltb_spec w n); [reflexivity|].
  unfold ceildiv.
  apply (Nat.div_unique (n + w - 1) w 1 (n - 1)); lia.
Qed.

Lemma Forall2_map_same {T U V : Type} (R : U -> V -> Prop)
  (f : T -> U) (g : T -> V) (l : list T) :
  (forall x, In x l -> R (f x) (g x)) -> Forall2 R (map f l) (map g l).
Proof.
  induction l as [|x l IH]; intros Hr; simpl; constructor.
  - apply Hr. now left.
  - apply IH. intros y Hy. apply Hr. now right.
Qed.

(** X8. The bias chunks line up with the column groups.  For a rectangular
    matrix with at least one column, positive limits and a bias with one
    entry per column, there are as many bias chunks as column groups, and
    bias chunk [i] has as many entries as every chunk of column group [i]
    has columns. *)
Theorem bias_chunks_match_columns (m : matrix A) (bias : ndarray1 A)
  (H W : Z) :
  wf_matrix m -> (0 < H)%Z -> (0 < W)%Z ->
  0 < ncols m -> length (entries bias) = ncols m ->
  exists grid,
    split_matrix_into_chunks m H W = Ok grid /\
    Forall2 (fun col b => Forall (fun chunk => ncols chunk = length b) col)
            grid (split_vector_into_chunks bias W).
Proof.
  intros Hwf HH HW Hc Hb. rewrite split_matrix_closed by assumption.
  eexists. split; [reflexivity|].
  rewrite split_vector_as_slices by lia.
  rewrite Hb, (@groups_ceildiv (ncols m) (Z.to_nat W)) by lia.
  apply Forall2_map_same. intros i _.
  apply Forall_map. apply Forall_forall. intros j _.
  unfold submatrix. cbn [ncols row_slice col_slice].
  now rewrite slice_length, Hb.
Qed.

End VectorCuts.

(** ** ChannelTiler: the groups put back together *)

Section ChannelRoundTrip.

Context {A : Type}.
Implicit Types (k : kernel A).

Lemma concat_channel_chunks (o c fy fx : nat)
  (kd : list (list (list (list A)))) (C : Z) (n i : nat) :
  (0 < C)%Z ->
  foldM concat_channels2
    (map (fun j => channel_slice {| kshape := (o, c, fy, fx); kdata := kd |}
                     (C * j) (C * j + C))
         (map Z.of_nat (seq i n)))
    {| kshape := (o, Nat.min (Z.to_nat C * i) c, fy, fx);
       kdata := map (firstn (Z.to_nat C * i)) kd |}
  = Ok {| kshape := (o, Nat.min (Z.to_nat C * (i + n)) c, fy, fx);
          kdata := map (firstn (Z.to_nat C * (i + n))) kd |}.
Proof.
  intros HC. revert i. induction n as [|n IH]; intros i; simpl.
  - now rewrite Nat.add_0_r.
  - unfold concat_channels2 at 1. cbn [kshape kdata channel_slice].
    rewrite !Nat.eqb_refl. cbn [andb bind].
    rewrite chunk_slice_len by assumption. rewrite zip_app_map.
    replace (map (fun x => firstn (Z.to_nat C * i) x
                           ++ slice x (C * Z.of_nat i) (C * Z.of_nat i + C)) kd)
      with (map (firstn (Z.to_nat C * S i)) kd).
    + replace (Nat.min (Z.to_nat C * i) c
               + (Nat.min (Z.to_nat C * i + Z.to_nat C) c
                  - Nat.min (Z.to_nat C * i) c))
        with (Nat.min (Z.to_nat C * S i) c) by lia.
      rewrite IH. now rewrite Nat.add_succ_r.
    + apply map_ext. intros r. rewrite chunk_slice by assumption.
      rewrite <- firstn_add_skipn. f_equal. lia.
Qed.

(** X9. Cutting a kernel into channel groups loses nothing: for a kernel
    with more than [C >= 1] input channels, the groups
    [split_kernel_into_channels] returns, concatenated along the input
    channel axis, are the kernel again. *)
Theorem split_kernel_concat k (C : Z) :
  wf_kernel k -> (1 <= C)%Z -> (C < Z.of_nat (in_channels k))%Z ->
  exists groups,
    split_kernel_into_channels k C = Ok groups /\
    concat_channels groups = Ok k.
Proof.
  intros Hwf HC Hgt. unfold split_kernel_into_channels.
  destruct (Z.gtb_spec (Z.of_nat (in_channels k)) C) as [_|]; [|lia].
  destruct (@ceil_reps_pos (in_channels k) C ltac:(lia))
    as (reps & -> & Hcov & _ & Hpos).
  destruct Hpos as [_ Hreps]; [lia|].
  cbn [bind app]. eexists. split; [reflexivity|].
  rewrite range_of_nat. destruct reps as [|reps]; [lia|].
  destruct k as [[[[o c] fy] fx] kd]. unfold wf_kernel, in_channels in *.
  cbn [kshape kdata] in *. destruct Hwf as [Hlen Hrows].
  cbn [seq map concat_channels].
  pose proof (@concat_channel_chunks o c fy fx kd C reps 1 ltac:(lia)) as E.
  rewrite Nat.mul_1_r in E.
  replace (channel_slice {| kshape := (o, c, fy, fx); kdata := kd |}
             (C * Z.of_nat 0) (C * Z.of_nat 0 + C))
    with {| kshape := (o, Nat.min (Z.to_nat C) c, fy, fx);
            kdata := map (firstn (Z.to_nat C)) kd |}.
  - rewrite E. f_equal. f_equal.
    + do 3 f_equal. lia.
    + rewrite <- (map_id kd) at 2. apply map_ext_in. intros r Hr.
      apply firstn_all2. rewrite Forall_forall in Hrows.
      rewrite (Hrows r Hr). lia.
  - unfold channel_slice. cbn [kshape kdata].
    rewrite chunk_slice_len by lia. f_equal.
    + do 3 f_equal. lia.
    + apply map_ext. intros r. rewrite chunk_slice by lia.
      now rewrite Nat.mul_0_r.
Qed.

End ChannelRoundTrip.

(** ** The channel emitters *)

Section ChannelEmitterFacts.

Context {A : Type}.

(** X10. [split_conv_into_channels] never hands back a list of nodes:
    whenever it returns, it returns [None].  In particular a convolution
    whose input channels number at most [C], which needs no split, is not
    passed through. *)
Theorem split_conv_into_channels_returns_none (cnode : node A) (C : Z) :
  (forall r, split_conv_into_channels cnode C = Ok r -> r = None) /\
  (forall k, attr_kernel cnode = Ok k ->
             (Z.of_nat (in_channels k) <= C)%Z ->
             split_conv_into_channels cnode C = Ok None).
Proof.
  split.
  - intros r E. unfold split_conv_into_channels in E.
    apply bind_Ok_inv in E. destruct E as (k & _ & E).
    apply bind_Ok_inv in E. destruct E as (kernels & Ek & E).
    apply split_kernel_never_single in Ek.
    destruct (Nat.eqb_spec (length kernels) 1) as [|_]; [contradiction|].
    apply bind_Ok_inv in E. destruct E as (nodes & _ & E).
    now inversion E.
  - intros k Ek Hle. unfold split_conv_into_channels. rewrite Ek. cbn [bind].
    unfold split_kernel_into_channels.
    destruct (Z.gtb_spec (Z.of_nat (in_channels k)) C); [lia|]. reflexivity.
Qed.

(** X11. [split_dwc_into_chunks] never returns: every call ends in an
    exception.  When the kernel can be cut and the node has an output, the
    exception is the [NameError] of the unbound name [ksize]. *)
Theorem split_dwc_into_chunks_never_returns (cnode : dwc_node (A := A))
  (C : Z) :
  (forall nodes, split_dwc_into_chunks cnode C <> Returns nodes) /\
  (forall subkernels out0,
      split_kernel_into_channels (dwc_kernel cnode) C = Ok subkernels ->
      index (dwc_outputs cnode) 0 = Ok out0 ->
      split_dwc_into_chunks cnode C = NameError "ksize").
Proof.
  split.
  - intros nodes. unfold split_dwc_into_chunks.
    destruct (split_kernel_into_channels (dwc_kernel cnode) C)
      as [subkernels|e] eqn:Ek; [|discriminate].
    apply split_kernel_never_single in Ek.
    destruct (Nat.eqb_spec (length subkernels) 1) as [|_]; [contradiction|].
    destruct (index (dwc_outputs cnode) 0); discriminate.
  - intros subkernels out0 Ek Eo. unfold split_dwc_into_chunks.
    rewrite Ek, Eo. apply split_kernel_never_single in Ek.
    destruct (Nat.eqb_spec (length subkernels) 1) as [|_]; [contradiction|].
    reflexivity.
Qed.

End ChannelEmitterFacts.

(** ** SubgraphEmitter: the shape of the subgraph *)

Section EmitterWiring.

Context {A : Type}.
Implicit Types (cnode n : node A) (m : matrix A).

Lemma set_last_biases_wiring (nodes nodes' : list (node A)) (b : ndarray1 A) :
  set_last_biases nodes b = Ok nodes' ->
  map wiring nodes' = map wiring nodes.
Proof.
  intros E. apply set_last_biases_inv in E.
  destruct E as (before & n & -> & ->). now rewrite !map_app.
Qed.

Lemma set_from_type_wiring (t : string) (nodes : list (node A)) :
  map wiring (map (set_from_type t) nodes) = map wiring nodes.
Proof. rewrite map_map. now apply map_ext. Qed.

Lemma emit_chunks_Ok_inv cnode (sl : list string) (H : Z) (i : nat)
  (out0 : string) (l : list (nat * matrix A))
  (nodes nodes1 : list (node A)) (adders : list string) :
  index (outputs cnode) 0 = Ok out0 ->
  foldM (emit_chunk cnode sl H i) l (nodes, []) = Ok (nodes1, adders) ->
  nodes1 = nodes ++ flat_map (chunk_nodes out0 sl H i) l /\
  adders = addends out0 i l.
Proof.
  intros Eo E. rewrite (@emit_chunks_closed A cnode sl H i out0 l nodes [] Eo) in E.
  inversion E. split; reflexivity.
Qed.

Lemma gemm_column_wiring cnode (H : Z) (sb : list (list A)) (i : nat)
  (col : list (matrix A)) (nodes nodes' : list (node A))
  (cats cats' : list string) :
  gemm_column cnode H sb (nodes, cats) (i, col) = Ok (nodes', cats') ->
  map wiring nodes'
  = map wiring (nodes ++ gemm_column_plan (primary_output cnode)
                           (inputs cnode) H (i, col)) /\
  cats' = cats ++ [edge_name (primary_output cnode) (AdderOut i)].
Proof.
  intros E. simpl in E.
  apply bind_Ok_inv in E. destruct E as ([nodes1 adders] & E1 & E).
  apply bind_Ok_inv in E. destruct E as (b & _ & E).
  apply bind_Ok_inv in E. destruct E as (nodes2 & E2 & E).
  apply bind_Ok_inv in E. destruct E as (o & Eo & E).
  eapply emit_chunks_Ok_inv in E1; [|exact Eo]. destruct E1 as [-> ->].
  apply index_zero in Eo. destruct Eo as [<- _].
  inversion E. subst nodes' cats'. clear E. split; [|reflexivity].
  apply set_last_biases_wiring in E2.
  unfold gemm_column_plan. rewrite app_assoc, !map_app, E2.
  now rewrite map_app.
Qed.

Lemma gemm_columns_wiring cnode (H : Z) (sb : list (list A))
  (l : list (nat * list (matrix A))) :
  forall (nodes nodes' : list (node A)) (cats cats' : list string),
    foldM (gemm_column cnode H sb) l (nodes, cats) = Ok (nodes', cats') ->
    map wiring nodes'
    = map wiring (nodes ++ flat_map (gemm_column_plan (primary_output cnode)
                                       (inputs cnode) H) l) /\
    cats' = cats ++ map (fun ic => edge_name (primary_output cnode)
                                     (AdderOut (fst ic))) l.
Proof.
  induction l as [|[i col] l IH]; intros nodes nodes' cats cats' E.
  - simpl in E. inversion E. simpl. now rewrite !app_nil_r.
  - cbn [foldM] in E. apply bind_Ok_inv in E.
    destruct E as ([nodes1 cats1] & E1 & E).
    apply gemm_column_wiring in E1. destruct E1 as [W1 ->].
    apply IH in E. destruct E as [W2 ->]. split.
    + rewrite W2. cbn [flat_map]. rewrite app_assoc, !map_app, W1.
      now rewrite !map_app.
    + cbn [map fst]. now rewrite <- app_assoc.
Qed.

Lemma split_gemm_wiring cnode m (H W : Z) (grid : list (list (matrix A)))
  (nodes : list (node A)) :
  attr_matrix cnode = Ok m ->
  split_matrix_into_chunks m H W = Ok grid ->
  fits_one_tile grid = false ->
  split_gemm_into_chunks cnode H W = Ok nodes ->
  map wiring nodes = map wiring (gemm_plan cnode H grid).
Proof.
  intros Em Eg Hfit. unfold split_gemm_into_chunks.
  rewrite Em. cbn [bind]. rewrite Eg. cbn [bind]. intros E.
  apply bind_Ok_inv in E. destruct E as (b & _ & E). rewrite Hfit in E.
  apply bind_Ok_inv in E. destruct E as ([nodes1 cats] & E1 & E).
  inversion E. subst nodes. clear E.
  apply gemm_columns_wiring in E1. destruct E1 as [W1 ->].
  rewrite set_from_type_wiring. unfold gemm_plan.
  rewrite !map_app, W1. reflexivity.
Qed.

Lemma conv_column_wiring cnode (H : Z) (sb : list (list A)) (i : nat)
  (col : list (matrix A)) (nodes nodes' : list (node A))
  (cats cats' : list string) :
  outputs cnode <> [] ->
  conv_column cnode (edge_name (primary_output cnode) Tplitz) H sb
              (nodes, cats) (i, col) = Ok (nodes', cats') ->
  map wiring nodes'
  = map wiring (nodes ++ conv_column_plan (primary_output cnode) H (i, col)) /\
  cats' = cats ++ conv_column_result (primary_output cnode) (i, col).
Proof.
  intros Hout E.
  assert (Eo : index (outputs cnode) 0 = Ok (primary_output cnode)).
  { unfold primary_output. destruct (outputs cnode); [congruence|reflexivity]. }
  simpl in E.
  apply bind_Ok_inv in E. destruct E as ([nodes1 adders] & E1 & E).
  apply bind_Ok_inv in E. destruct E as (b & _ & E).
  apply bind_Ok_inv in E. destruct E as (nodes2 & E2 & E).
  eapply emit_chunks_Ok_inv in E1; [|exact Eo]. destruct E1 as [-> ->].
  apply set_last_biases_wiring in E2.
  unfold conv_column_plan, conv_column_result, addends in *.
  rewrite length_map in E.
  replace (length (enumerate col)) with (length col) in E
    by (unfold enumerate; rewrite length_combine, length_seq; lia).
  destruct (Nat.ltb 1 (length col)).
  - rewrite Eo in E. cbn [bind] in E. inversion E. subst nodes' cats'.
    split; [|reflexivity].
    rewrite app_assoc, !map_app, E2. now rewrite map_app.
  - inversion E. subst nodes' cats'. split; [|reflexivity].
    now rewrite app_nil_r, E2.
Qed.

Lemma conv_columns_wiring cnode (H : Z) (sb : list (list A))
  (l : list (nat * list (matrix A))) :
  outputs cnode <> [] ->
  forall (nodes nodes' : list (node A)) (cats cats' : list string),
    foldM (conv_column cnode (edge_name (primary_output cnode) Tplitz) H sb)
          l (nodes, cats) = Ok (nodes', cats') ->
    map wiring nodes'
    = map wiring (nodes ++ flat_map (conv_column_plan (primary_output cnode) H)
                                    l) /\
    cats' = cats ++ flat_map (conv_column_result (primary_output cnode)) l.
Proof.
  intros Hout.
  induction l as [|[i col] l IH]; intros nodes nodes' cats cats' E.
  - simpl in E. inversion E. simpl. now rewrite !app_nil_r.
  - cbn [foldM] in E. apply bind_Ok_inv in E.
    destruct E as ([nodes1 cats1] & E1 & E).
    apply conv_column_wiring in E1; [|assumption]. destruct E1 as [W1 ->].
    apply IH in E. destruct E as [W2 ->]. split.
    + rewrite W2. cbn [flat_map]. rewrite app_assoc, !map_app, W1.
      now rewrite !map_app.
    + cbn [flat_map]. now rewrite <- app_assoc.
Qed.

Lemma split_conv_wiring cnode m (ksize strides : Z) (H W : Z)
  (grid : list (list (matrix A))) (nodes : list (node A)) :
  attr_matrix cnode = Ok m ->
  attr_ksize cnode = Ok ksize ->
  attr_strides cnode = Ok strides ->
  split_matrix_into_chunks m H W = Ok grid ->
  fits_one_tile grid = false ->
  split_conv_into_chunks cnode H W = Ok nodes ->
  map wiring nodes = map wiring (conv_plan cnode ksize strides (ncols m) H grid).
Proof.
  intros Em Ek Es Eg Hfit. unfold split_conv_into_chunks.
  rewrite Em. cbn [bind]. rewrite Eg. cbn [bind]. intros E.
  apply bind_Ok_inv in E. destruct E as (b & _ & E).
  rewrite Ek, Es in E. cbn [bind] in E. rewrite Hfit in E.
  apply bind_Ok_inv in E. destruct E as (o & Eo & E).
  assert (Hout : outputs cnode <> []).
  { apply index_zero in Eo. destruct Eo as [_ (rest & ->)]. discriminate. }
  apply index_zero in Eo. destruct Eo as [<- _].
  apply bind_Ok_inv in E. destruct E as ([nodes1 cats] & E1 & E).
  inversion E. subst nodes. clear E.
  apply conv_columns_wiring in E1; [|assumption]. destruct E1 as [W1 ->].
  rewrite set_from_type_wiring. unfold conv_plan.
  rewrite !map_app, W1. rewrite !map_app. cbn [map app].
  rewrite <- !app_assoc. reflexivity.
Qed.

(** X12. The subgraph [split_gemm_into_chunks] emits for a weight matrix
    that does not fit one tile is, node for node, the plan of its grid: for
    every column group in turn a slicer and a MatMul per chunk and then one
    Add over the partial products of the group, and at the end one Concat
    (axis 0) of the sums onto the outputs of the original node.  Every
    node is tagged [gemm]. *)
Theorem split_gemm_follows_plan cnode m (H W : Z)
  (grid : list (list (matrix A))) (nodes : list (node A)) :
  attr_matrix cnode = Ok m ->
  split_matrix_into_chunks m H W = Ok grid ->
  fits_one_tile grid = false ->
  split_gemm_into_chunks cnode H W = Ok nodes ->
  map wiring nodes = map wiring (gemm_plan cnode H grid) /\
  Forall (fun n => from_type n = Some "gemm") nodes.
Proof.
  intros Em Eg Hfit E. split.
  - eapply split_gemm_wiring; eauto.
  - unfold split_gemm_into_chunks in E.
    rewrite Em in E. cbn [bind] in E. rewrite Eg in E. cbn [bind] in E.
    apply bind_Ok_inv in E. destruct E as (b & _ & E). rewrite Hfit in E.
    apply bind_Ok_inv in E. destruct E as ([nodes1 cats] & _ & E).
    inversion E. apply Forall_map. apply Forall_forall. reflexivity.
Qed.

(** X13. The subgraph [split_conv_into_chunks] emits for a lowered kernel
    that does not fit one tile is, node for node, the plan of its grid: the
    toeplitzizer with the kernel size and stride of the node, then for
    every column group a slicer and a MatMul per chunk, with an Add only
    when the group has two chunks or more, then one Concat (axis -1) of the
    sums, or of the lone partial products, and a reshaper to the column
    count of the lowered kernel onto the outputs of the original node.
    Every node is tagged [pointwise] for kernel size 1 and [conv]
    otherwise. *)
Theorem split_conv_follows_plan cnode m (ksize strides : Z) (H W : Z)
  (grid : list (list (matrix A))) (nodes : list (node A)) :
  attr_matrix cnode = Ok m ->
  attr_ksize cnode = Ok ksize ->
  attr_strides cnode = Ok strides ->
  split_matrix_into_chunks m H W = Ok grid ->
  fits_one_tile grid = false ->
  split_conv_into_chunks cnode H W = Ok nodes ->
  map wiring nodes
  = map wiring (conv_plan cnode ksize strides (ncols m) H grid) /\
  Forall (fun n => from_type n
                   = Some (if (ksize =? 1)%Z then "pointwise" else "conv"))
         nodes.
Proof.
  intros Em Ek Es Eg Hfit E. split.
  - eapply split_conv_wiring; eauto.
  - unfold split_conv_into_chunks in E.
    rewrite Em in E. cbn [bind] in E. rewrite Eg in E. cbn [bind] in E.
    apply bind_Ok_inv in E. destruct E as (b & _ & E).
    rewrite Ek, Es in E. cbn [bind] in E. rewrite Hfit in E.
    apply bind_Ok_inv in E. destruct E as (o & _ & E).
    apply bind_Ok_inv in E. destruct E as ([nodes1 cats] & _ & E).
    inversion E. apply Forall_map. apply Forall_forall. reflexivity.
Qed.

End EmitterWiring.

(** ** SubgraphEmitter: how many nodes, and in which order *)

Section EmitterCounts.

Context {A : Type}.
Implicit Types (cnode n : node A) (m : matrix A).

Lemma count_app (p : node A -> bool) (l1 l2 : list (node A)) :
  count p (l1 ++ l2) = count p l1 + count p l2.
Proof. unfold count. now rewrite filter_app, length_app. Qed.

Lemma count_wiring (q : op A -> bool) (l1 l2 : list (node A)) :
  map wiring l1 = map wiring l2 ->
  count (fun n => q (operator n)) l1 = count (fun n => q (operator n)) l2.
Proof.
  revert l2. induction l1 as [|x l1 IH]; intros [|y l2] E;
    try discriminate; [reflexivity|].
  cbn [map] in E. injection E as Eop _ _ E. apply IH in E.
  unfold count in *. cbn [filter]. rewrite Eop.
  destruct (q (operator y)); cbn [length]; now rewrite E.
Qed.

Lemma length_wiring (l1 l2 : list (node A)) :
  map wiring l1 = map wiring l2 -> length l1 = length l2.
Proof. intros E. apply (f_equal (@length _)) in E. now rewrite !length_map in E. Qed.

Lemma census_app (l1 l2 : list (node A)) :
  census (l1 ++ l2) = census_add (census l1) (census l2).
Proof. unfold census, census_add. now rewrite !count_app. Qed.

Lemma census_wiring (l1 l2 : list (node A)) :
  map wiring l1 = map wiring l2 -> census l1 = census l2.
Proof.
  intros E. unfold census.
  rewrite (count_wiring (fun o => match o with toeplitzizer _ _ => true
                                  | _ => false end) _ _ E : count is_toeplitz l1 = _).
  rewrite (count_wiring (fun o => match o with slicer _ => true
                                  | _ => false end) _ _ E : count is_slice l1 = _).
  rewrite (count_wiring (fun o => match o with gemm _ => true
                                  | _ => false end) _ _ E : count is_matmul l1 = _).
  rewrite (count_wiring (fun o => match o with add => true
                                  | _ => false end) _ _ E : count is_add l1 = _).
  rewrite (count_wiring (fun o => match o with cat _ => true
                                  | _ => false end) _ _ E : count is_concat l1 = _).
  rewrite (count_wiring (fun o => match o with reshaper _ => true
                                  | _ => false end) _ _ E : count is_reshape l1 = _).
  reflexivity.
Qed.

Lemma census_eq (a1 a2 a3 a4 a5 a6 b1 b2 b3 b4 b5 b6 : nat) :
  a1 = b1 -> a2 = b2 -> a3 = b3 -> a4 = b4 -> a5 = b5 -> a6 = b6 ->
  (a1, a2, a3, a4, a5, a6) = (b1, b2, b3, b4, b5, b6).
Proof. now intros -> -> -> -> -> ->. Qed.

Lemma census_chunks (out0 : string) (sl : list string) (H : Z) (i : nat)
  (l : list (nat * matrix A)) :
  census (flat_map (chunk_nodes out0 sl H i) l)
  = (0, length l, length l, 0, 0, 0).
Proof.
  induction l as [|[j mm] l IH]; [reflexivity|].
  cbn [flat_map]. rewrite census_app, IH. apply census_eq; cbn; unfold list_sum; lia.
Qed.

Lemma length_enumerate {T : Type} (l : list T) :
  length (enumerate l) = length l.
Proof. unfold enumerate. rewrite length_combine, length_seq. lia. Qed.

Lemma census_gemm_columns (out0 : string) (ins : list string) (H : Z)
  (l : list (nat * list (matrix A))) :
  census (flat_map (gemm_column_plan out0 ins H) l)
  = (0, list_sum (map (fun ic => length (snd ic)) l),
     list_sum (map (fun ic => length (snd ic)) l), length l, 0, 0).
Proof.
  induction l as [|[i col] l IH]; [reflexivity|].
  cbn [flat_map]. rewrite census_app, IH. unfold gemm_column_plan.
  rewrite census_app, census_chunks, length_enumerate.
  cbn [map snd list_sum fold_right length].
  apply census_eq; cbn; unfold list_sum; lia.
Qed.

Lemma census_conv_columns (out0 : string) (H : Z)
  (l : list (nat * list (matrix A))) :
  census (flat_map (conv_column_plan out0 H) l)
  = (0, list_sum (map (fun ic => length (snd ic)) l),
     list_sum (map (fun ic => length (snd ic)) l),
     length (filter (fun ic => Nat.ltb 1 (length (snd ic))) l), 0, 0).
Proof.
  induction l as [|[i col] l IH]; [reflexivity|].
  cbn [flat_map]. rewrite census_app, IH. unfold conv_column_plan.
  rewrite census_app, census_chunks, length_enumerate.
  cbn [filter snd map list_sum fold_right].
  destruct (Nat.ltb 1 (length col)); apply census_eq; cbn; unfold list_sum; lia.
Qed.

Lemma map_snd_combine_seq {T : Type} (l : list T) (k : nat) :
  map snd (combine (seq k (length l)) l) = l.
Proof.
  revert k. induction l as [|x l IH]; intros k; simpl; [reflexivity|].
  now rewrite IH.
Qed.

Lemma map_snd_enumerate {T : Type} (l : list T) : map snd (enumerate l) = l.
Proof. apply map_snd_combine_seq. Qed.

Lemma sum_lengths_const {T U : Type} (f : T -> list U) (l : list T) (n : nat) :
  (forall x, In x l -> length (f x) = n) ->
  list_sum (map (fun x => length (f x)) l) = length l * n.
Proof.
  induction l as [|x l IH]; intros Hf; simpl; [reflexivity|].
  rewrite IH by (intros y Hy; apply Hf; now right).
  rewrite (Hf x) by now left. reflexivity.
Qed.

(** The grid of a rectangular matrix under positive limits, as the emitter
    loops see it. *)
Lemma grid_dimensions m (H W : Z) (grid : list (list (matrix A))) :
  wf_matrix m -> (0 < H)%Z -> (0 < W)%Z ->
  split_matrix_into_chunks m H W = Ok grid ->
  length grid = groups (ncols m) (Z.to_nat W) /\
  Forall (fun col => length col = groups (nrows m) (Z.to_nat H)) grid.
Proof.
  intros Hwf HH HW. rewrite split_matrix_closed by assumption.
  intros E. inversion E. subst grid. clear E. rewrite !range_of_nat. split.
  - now rewrite !length_map, length_seq.
  - apply Forall_map. apply Forall_forall. intros i _.
    now rewrite !length_map, length_seq.
Qed.

Lemma fits_one_tile_dimensions (grid : list (list (matrix A))) (gc gr : nat) :
  length grid = gc -> Forall (fun col => length col = gr) grid ->
  fits_one_tile grid = true -> gc = 1 /\ gr = 1.
Proof.
  intros Hc Hr Hfit.
  destruct grid as [|[|x [|y col]] [|col' grid]]; try discriminate.
  inversion Hr. subst. split; reflexivity.
Qed.

Lemma enumerate_lengths (grid : list (list (matrix A))) (gr : nat) :
  Forall (fun col => length col = gr) grid ->
  list_sum (map (fun ic : nat * list (matrix A) => length (snd ic))
                (enumerate grid))
  = length grid * gr.
Proof.
  intros Hr. rewrite <- (length_enumerate grid).
  apply sum_lengths_const. intros [i col] Hin. cbn [snd].
  rewrite Forall_forall in Hr. apply Hr.
  rewrite <- (map_snd_enumerate grid). apply in_map_iff.
  now exists (i, col).
Qed.

Lemma enumerate_tall_columns (grid : list (list (matrix A))) (gr : nat) :
  Forall (fun col => length col = gr) grid ->
  length (filter (fun ic : nat * list (matrix A) =>
                    Nat.ltb 1 (length (snd ic))) (enumerate grid))
  = if Nat.ltb 1 gr then length grid else 0.
Proof.
  intros Hr. rewrite <- (length_enumerate grid).
  assert (Hin : Forall (fun ic : nat * list (matrix A) =>
                          length (snd ic) = gr) (enumerate grid)).
  { apply Forall_forall. intros [i col] Hin. cbn [snd].
    rewrite Forall_forall in Hr. apply Hr.
    rewrite <- (map_snd_enumerate grid). apply in_map_iff.
    now exists (i, col). }
  induction Hin as [|ic l Hic _ IH]; [now destruct (Nat.ltb 1 gr)|].
  cbn [filter length]. rewrite Hic.
  destruct (Nat.ltb 1 gr); cbn [length]; now rewrite IH.
Qed.

(** X14. How large the GEMM subgraph is.  For a rectangular weight matrix
    cut into [gc] column groups of [gr] row groups, more than one chunk in
    all, [split_gemm_into_chunks] emits [gc * gr] slicers, [gc * gr] MatMul
    nodes, [gc] Add nodes (one per column group, also when the group has a
    single chunk) and one Concat: [2 * gc * gr + gc + 1] nodes. *)
Theorem split_gemm_node_counts cnode m (H W : Z) (nodes : list (node A)) :
  wf_matrix m -> (0 < H)%Z -> (0 < W)%Z ->
  attr_matrix cnode = Ok m ->
  groups (ncols m) (Z.to_nat W) * groups (nrows m) (Z.to_nat H) <> 1 ->
  split_gemm_into_chunks cnode H W = Ok nodes ->
  let gc := groups (ncols m) (Z.to_nat W) in
  let gr := groups (nrows m) (Z.to_nat H) in
  count is_slice nodes = gc * gr /\
  count is_matmul nodes = gc * gr /\
  count is_add nodes = gc /\
  count is_concat nodes = 1 /\
  length nodes = 2 * (gc * gr) + gc + 1.
Proof.
  intros Hwf HH HW Em Hbig E gc gr.
  destruct (split_matrix_into_chunks m H W) as [grid|e] eqn:Eg.
  2:{ rewrite split_matrix_closed in Eg by assumption. discriminate. }
  destruct (grid_dimensions Hwf HH HW Eg) as [Hc Hr].
  fold gc in Hc. fold gr in Hr.
  assert (Hfit : fits_one_tile grid = false).
  { destruct (fits_one_tile grid) eqn:F; [|reflexivity].
    destruct (fits_one_tile_dimensions Hc Hr F) as [G1 G2].
    exfalso. apply Hbig. fold gc gr. rewrite G1, G2. reflexivity. }
  assert (Wi : map wiring nodes = map wiring (gemm_plan cnode H grid))
    by (eapply split_gemm_wiring; eauto).
  pose proof Wi as Ce. apply census_wiring in Ce.
  pose proof Wi as Le. apply length_wiring in Le.
  unfold gemm_plan in Ce, Le.
  rewrite census_app, census_gemm_columns in Ce.
  rewrite enumerate_lengths with (gr := gr) in Ce by assumption.
  rewrite length_enumerate, Hc in Ce.
  unfold census, census_add in Ce. cbn in Ce.
  injection Ce as _ C2 C3 C4 C5 _.
  rewrite C2, C3, C4, C5. repeat split; try lia.
  rewrite Le, length_app. cbn [length].
  assert (Hlen : forall l : list (nat * list (matrix A)),
            length (flat_map (gemm_column_plan (primary_output cnode)
                                (inputs cnode) H) l)
            = 2 * list_sum (map (fun ic => length (snd ic)) l) + length l).
  { induction l as [|[i col] l IH]; [reflexivity|].
    cbn [flat_map]. rewrite length_app, IH. unfold gemm_column_plan.
    rewrite length_app.
    rewrite (@length_flat_map_const _ _ _ 2) by (now intros [j mm]).
    rewrite length_enumerate. cbn [length map snd list_sum fold_right].
    unfold list_sum. lia. }
  rewrite Hlen, enumerate_lengths with (gr := gr) by assumption.
  rewrite length_enumerate, Hc. lia.
Qed.

(** X15. How large the convolution subgraph is.  For a rectangular lowered
    kernel cut into [gc] column groups of [gr] row groups, more than one
    chunk in all, [split_conv_into_chunks] emits one toeplitzizer,
    [gc * gr] slicers, [gc * gr] MatMul nodes, [gc] Add nodes when
    [gr > 1] and none otherwise, one Concat and one reshaper. *)
Theorem split_conv_node_counts cnode m (H W : Z) (nodes : list (node A)) :
  wf_matrix m -> (0 < H)%Z -> (0 < W)%Z ->
  attr_matrix cnode = Ok m ->
  groups (ncols m) (Z.to_nat W) * groups (nrows m) (Z.to_nat H) <> 1 ->
  split_conv_into_chunks cnode H W = Ok nodes ->
  let gc := groups (ncols m) (Z.to_nat W) in
  let gr := groups (nrows m) (Z.to_nat H) in
  let adds := if Nat.ltb 1 gr then gc else 0 in
  count is_toeplitz nodes = 1 /\
  count is_slice nodes = gc * gr /\
  count is_matmul nodes = gc * gr /\
  count is_add nodes = adds /\
  count is_concat nodes = 1 /\
  count is_reshape nodes = 1 /\
  length nodes = 2 * (gc * gr) + adds + 3.
Proof.
  intros Hwf HH HW Em Hbig E gc gr adds.
  destruct (split_matrix_into_chunks m H W) as [grid|e] eqn:Eg.
  2:{ rewrite split_matrix_closed in Eg by assumption. discriminate. }
  destruct (grid_dimensions Hwf HH HW Eg) as [Hc Hr].
  fold gc in Hc. fold gr in Hr.
  assert (Hfit : fits_one_tile grid = false).
  { destruct (fits_one_tile grid) eqn:F; [|reflexivity].
    destruct (fits_one_tile_dimensions Hc Hr F) as [G1 G2].
    exfalso. apply Hbig. fold gc gr. rewrite G1, G2. reflexivity. }
  assert (Ek : exists ksize strides,
             attr_ksize cnode = Ok ksize /\ attr_strides cnode = Ok strides).
  { unfold split_conv_into_chunks in E. rewrite Em in E. cbn [bind] in E.
    rewrite Eg in E. cbn [bind] in E.
    apply bind_Ok_inv in E. destruct E as (b & _ & E).
    apply bind_Ok_inv in E. destruct E as (ksize & Ek & E).
    apply bind_Ok_inv in E. destruct E as (strides & Es & E). eauto. }
  destruct Ek as (ksize & strides & Ek & Es).
  assert (Wi : map wiring nodes
               = map wiring (conv_plan cnode ksize strides (ncols m) H grid))
    by (eapply split_conv_wiring; eauto).
  pose proof Wi as Ce. apply census_wiring in Ce.
  pose proof Wi as Le. apply length_wiring in Le.
  unfold conv_plan in Ce, Le.
  rewrite !census_app, census_conv_columns in Ce.
  rewrite enumerate_lengths with (gr := gr) in Ce by assumption.
  rewrite enumerate_tall_columns with (gr := gr) in Ce by assumption.
  rewrite Hc in Ce. fold adds in Ce.
  unfold census, census_add in Ce. cbn in Ce.
  injection Ce as C1 C2 C3 C4 C5 C6.
  rewrite C1, C2, C3, C4, C5, C6. repeat split; try lia.
  rewrite Le, !length_app. cbn [length].
  assert (Hlen : forall l : list (nat * list (matrix A)),
            length (flat_map (conv_column_plan (primary_output cnode) H) l)
            = 2 * list_sum (map (fun ic => length (snd ic)) l)
              + length (filter (fun ic => Nat.ltb 1 (length (snd ic))) l)).
  { induction l as [|[i col] l IH]; [reflexivity|].
    cbn [flat_map]. rewrite length_app, IH. unfold conv_column_plan.
    rewrite length_app.
    rewrite (@length_flat_map_const _ _ _ 2) by (now intros [j mm]).
    rewrite length_enumerate. cbn [filter length map snd list_sum fold_right].
    unfold list_sum. destruct (Nat.ltb 1 (length col)); cbn [length]; lia. }
  rewrite Hlen, enumerate_lengths with (gr := gr) by assumption.
  rewrite enumerate_tall_columns with (gr := gr) by assumption.
  rewrite Hc. fold adds. lia.
Qed.

End EmitterCounts.

(** ** SubgraphEmitter: every edge is produced before it is read *)

Section EmitterOrder.

Context {A : Type}.
Implicit Types (cnode n : node A) (m : matrix A).

Lemma wired_mono (a a' : list string) (l : list (node A)) :
  incl a a' -> wired a l -> wired a' l.
Proof.
  revert a a'. induction l as [|n l IH]; intros a a' Hi; simpl; [auto|].
  intros [Hn Hl]. split.
  - eapply incl_tran; eauto.
  - eapply IH; [|exact Hl]. apply incl_app.
    + apply incl_appl, incl_refl.
    + now apply incl_appr.
Qed.

Lemma wired_app (a : list string) (l1 l2 : list (node A)) :
  wired a l1 -> wired (flat_map (@outputs A) l1 ++ a) l2 ->
  wired a (l1 ++ l2).
Proof.
  revert a. induction l1 as [|n l1 IH]; intros a; simpl; [auto|].
  intros [Hn Hl] H2. split; [assumption|].
  apply IH; [assumption|]. eapply wired_mono; [|exact H2].
  rewrite <- app_assoc. apply incl_app.
  - apply incl_appr, incl_appl, incl_refl.
  - apply incl_app.
    + apply incl_appl, incl_refl.
    + apply incl_appr, incl_appr, incl_refl.
Qed.

Lemma wired_wiring (a : list string) (l1 l2 : list (node A)) :
  map wiring l1 = map wiring l2 -> wired a l2 -> wired a l1.
Proof.
  revert a l2. induction l1 as [|x l1 IH]; intros a [|y l2] E;
    try discriminate; [auto|].
  cbn [map] in E. injection E as _ Ein Eout E. simpl.
  rewrite Ein, Eout. intros [Hy Hl]. split; [assumption|].
  eapply IH; eauto.
Qed.

Lemma wiring_last (nodes pre : list (node A)) (x : node A) :
  map wiring nodes = map wiring (pre ++ [x]) ->
  exists before final, nodes = before ++ [final] /\ outputs final = outputs x.
Proof.
  rewrite map_app. intros E. apply map_eq_app in E.
  destruct E as (before & tl & -> & _ & E).
  apply map_eq_cons in E. destruct E as (final & tl' & -> & Ef & E).
  destruct tl'; [|discriminate].
  exists before, final. split; [reflexivity|].
  unfold wiring in Ef. now injection Ef.
Qed.

Lemma wired_chunks (out0 : string) (sl : list string) (H : Z) (i : nat)
  (l : list (nat * matrix A)) (a : list string) :
  incl sl a -> wired a (flat_map (chunk_nodes out0 sl H i) l).
Proof.
  revert a. induction l as [|[j mm] l IH]; intros a Hsl; [exact I|].
  cbn [flat_map chunk_nodes app wired inputs outputs slicer_node gemm_node].
  split; [assumption|]. split.
  - intros e [<-|[]]. now left.
  - apply IH. intros e He. right. right. now apply Hsl.
Qed.

Lemma addends_produced (out0 : string) (sl : list string) (H : Z) (i : nat)
  (l : list (nat * matrix A)) :
  incl (addends out0 i l)
       (flat_map (@outputs A) (flat_map (chunk_nodes out0 sl H i) l)).
Proof.
  intros e He. unfold addends in He. apply in_map_iff in He.
  destruct He as ([j mm] & <- & Hin).
  apply in_flat_map.
  exists (gemm_node [edge_name out0 (SlicerOut i j)]
                    [edge_name out0 (GemmOut i j)] mm).
  split; [|now left].
  apply in_flat_map. exists (j, mm). split; [assumption|].
  simpl. auto.
Qed.

Lemma wired_gemm_columns (out0 : string) (ins : list string) (H : Z)
  (l : list (nat * list (matrix A))) (a : list string) :
  incl ins a -> wired a (flat_map (gemm_column_plan out0 ins H) l).
Proof.
  revert a. induction l as [|[i col] l IH]; intros a Hin; [exact I|].
  cbn [flat_map]. apply wired_app.
  - unfold gemm_column_plan. apply wired_app.
    + now apply wired_chunks.
    + simpl. split; [|exact I].
      apply incl_appl. apply addends_produced.
  - apply IH. now apply incl_appr.
Qed.

Lemma sums_produced (out0 : string) (ins : list string) (H : Z)
  (l : list (nat * list (matrix A))) :
  incl (map (fun ic : nat * list (matrix A) =>
               edge_name out0 (AdderOut (fst ic))) l)
       (flat_map (@outputs A) (flat_map (gemm_column_plan out0 ins H) l)).
Proof.
  intros e He. apply in_map_iff in He. destruct He as ([i col] & <- & Hin).
  apply in_flat_map.
  exists (add_node (addends out0 i (enumerate col))
                   [edge_name out0 (AdderOut i)]).
  split; [|now left].
  apply in_flat_map. exists (i, col). split; [assumption|].
  unfold gemm_column_plan. apply in_or_app. right. now left.
Qed.

Lemma wired_gemm_plan cnode (H : Z) (grid : list (list (matrix A))) :
  wired (inputs cnode) (gemm_plan cnode H grid).
Proof.
  unfold gemm_plan. apply wired_app.
  - apply wired_gemm_columns, incl_refl.
  - simpl. split; [|exact I]. apply incl_appl, sums_produced.
Qed.

Lemma wired_conv_columns (out0 : string) (H : Z)
  (l : list (nat * list (matrix A))) (a : list string) :
  incl [edge_name out0 Tplitz] a ->
  wired a (flat_map (conv_column_plan out0 H) l).
Proof.
  revert a. induction l as [|[i col] l IH]; intros a Hin; [exact I|].
  cbn [flat_map]. apply wired_app.
  - unfold conv_column_plan. apply wired_app.
    + now apply wired_chunks.
    + destruct (Nat.ltb 1 (length col)); [|exact I].
      simpl. split; [|exact I].
      apply incl_appl. apply addends_produced.
  - apply IH. now apply incl_appr.
Qed.

Lemma results_produced (out0 : string) (H : Z)
  (l : list (nat * list (matrix A))) :
  incl (flat_map (conv_column_result out0) l)
       (flat_map (@outputs A) (flat_map (conv_column_plan out0 H) l)).
Proof.
  intros e He. apply in_flat_map in He. destruct He as ([i col] & Hin & He).
  unfold conv_column_result in He.
  assert (Hcol : In e (flat_map (@outputs A) (conv_column_plan out0 H (i, col)))).
  { unfold conv_column_plan. rewrite flat_map_app. apply in_or_app.
    destruct (Nat.ltb 1 (length col)).
    - right. destruct He as [<-|[]]. now left.
    - left. eapply addends_produced. exact He. }
  apply in_flat_map in Hcol. destruct Hcol as (x & Hx & Hex).
  apply in_flat_map. exists x. split; [|assumption].
  apply in_flat_map. now exists (i, col).
Qed.

Lemma wired_conv_plan cnode (ksize strides : Z) (channels : nat) (H : Z)
  (grid : list (list (matrix A))) :
  wired (inputs cnode) (conv_plan cnode ksize strides channels H grid).
Proof.
  unfold conv_plan. cbn [app wired inputs outputs toeplitzizer_node].
  split; [apply incl_refl|].
  apply wired_app.
  - apply wired_conv_columns. intros e [<-|[]]. now left.
  - simpl. split; [|split; [|exact I]].
    + apply incl_appl, results_produced.
    + intros e [<-|[]]. now left.
Qed.

(** X16. An emitted subgraph can be run front to back.  Whatever
    [split_gemm_into_chunks] or [split_conv_into_chunks] returns, every
    node of it reads only inputs of the original node or outputs of nodes
    emitted before it, and its last node writes the outputs of the
    original node. *)
Theorem emitted_subgraph_wired cnode (H W : Z) (nodes : list (node A)) :
  split_gemm_into_chunks cnode H W = Ok nodes \/
  split_conv_into_chunks cnode H W = Ok nodes ->
  wired (inputs cnode) nodes /\
  exists before final,
    nodes = before ++ [final] /\ outputs final = outputs cnode.
Proof.
  assert (Single : forall n, inputs n = inputs cnode ->
            outputs n = outputs cnode ->
            wired (inputs cnode) [n] /\
            exists before final,
              [n] = before ++ [final] /\ outputs final = outputs cnode).
  { intros n Hi Ho. split.
    - simpl. rewrite Hi. split; [apply incl_refl | exact I].
    - now exists [], n. }
  intros [E|E].
  - pose proof E as E'. unfold split_gemm_into_chunks in E'.
    apply bind_Ok_inv in E'. destruct E' as (m & Em & E').
    apply bind_Ok_inv in E'. destruct E' as (grid & Eg & E').
    apply bind_Ok_inv in E'. destruct E' as (b & _ & E').
    destruct (fits_one_tile grid) eqn:Hfit.
    + inversion E'. now apply Single.
    + assert (Wi : map wiring nodes = map wiring (gemm_plan cnode H grid))
        by (eapply split_gemm_wiring; eauto).
      split.
      * eapply wired_wiring; [exact Wi|]. apply wired_gemm_plan.
      * unfold gemm_plan in Wi. apply wiring_last in Wi. exact Wi.
  - pose proof E as E'. unfold split_conv_into_chunks in E'.
    apply bind_Ok_inv in E'. destruct E' as (m & Em & E').
    apply bind_Ok_inv in E'. destruct E' as (grid & Eg & E').
    apply bind_Ok_inv in E'. destruct E' as (b & _ & E').
    apply bind_Ok_inv in E'. destruct E' as (ksize & Ek & E').
    apply bind_Ok_inv in E'. destruct E' as (strides & Es & E').
    destruct (fits_one_tile grid) eqn:Hfit.
    + inversion E'. now apply Single.
    + assert (Wi : map wiring nodes
                   = map wiring (conv_plan cnode ksize strides (ncols m) H grid))
        by (eapply split_conv_wiring; eauto).
      split.
      * eapply wired_wiring; [exact Wi|]. apply wired_conv_plan.
      * unfold conv_plan in Wi.
        change ([?x; ?y]) with ([x] ++ [y]) in Wi.
        rewrite !app_assoc in Wi. apply wiring_last in Wi. exact Wi.
Qed.

End EmitterOrder.

(** ** SubgraphEmitter: when the emitters return, and when they raise *)

Section EmitterOutcome.

Context {A : Type}.
Implicit Types (cnode n : node A) (m : matrix A).

Lemma ceildiv_mono (n n' w : nat) : n <= n' -> ceildiv n w <= ceildiv n' w.
Proof.
  intros Hn. unfold ceildiv. destruct w as [|w]; [reflexivity|].
  apply Nat.Div0.div_le_mono. lia.
Qed.

Lemma length_bias_chunks (bias : ndarray1 A) (W : Z) :
  (0 < W)%Z ->
  length (split_vector_into_chunks bias W)
  = ceildiv (length (entries bias)) (Z.to_nat W).
Proof.
  intros HW. rewrite split_vector_as_slices by lia.
  now rewrite range_of_nat, !length_map, length_seq.
Qed.

Lemma index_zero_nonempty cnode :
  outputs cnode <> [] ->
  index (outputs cnode) 0 = Ok (primary_output cnode).
Proof.
  unfold primary_output. destruct (outputs cnode); [congruence|reflexivity].
Qed.

Lemma index_beyond {T : Type} (l : list T) (i : nat) :
  length l <= i -> index l (Z.of_nat i) = Raise IndexError.
Proof.
  intros Hi. unfold index.
  destruct (Z.ltb_spec (Z.of_nat i) 0); [lia|].
  destruct (Z.ltb_spec (Z.of_nat i) 0); [lia|].
  rewrite Nat2Z.id. apply nth_error_None in Hi. now rewrite Hi.
Qed.

(** X17. The emitters return on well-formed input.  For a rectangular
    weight matrix with a column, positive limits, a bias with an entry for
    every column and a node with an output, [split_gemm_into_chunks]
    returns a subgraph, and so does [split_conv_into_chunks] on a
    convolution node. *)
Theorem emitters_return_when_aligned cnode m (bias : ndarray1 A) (H W : Z) :
  wf_matrix m -> (0 < H)%Z -> (0 < W)%Z ->
  attr_matrix cnode = Ok m ->
  biases cnode = Some bias ->
  0 < ncols m -> ncols m <= length (entries bias) ->
  outputs cnode <> [] ->
  (exists nodes, split_gemm_into_chunks cnode H W = Ok nodes) /\
  (forall k s cm, operator cnode = conv k m s cm ->
                  exists nodes, split_conv_into_chunks cnode H W = Ok nodes).
Proof.
  intros Hwf HH HW Em Eb Hc Hlen Hout.
  destruct (split_matrix_into_chunks m H W) as [grid|e] eqn:Eg.
  2:{ rewrite split_matrix_closed in Eg by assumption. discriminate. }
  destruct (grid_dimensions Hwf HH HW Eg) as [Hgc _].
  assert (Hb : attr_biases cnode = Ok bias)
    by (unfold attr_biases; now rewrite Eb).
  assert (Hal : length grid <= length (split_vector_into_chunks bias W)).
  { rewrite length_bias_chunks, Hgc by assumption.
    rewrite groups_ceildiv by lia. now apply ceildiv_mono. }
  destruct (emitters_return cnode W HH Em Hb Eg Hal Hout) as [Hg Hcv].
  split; [exact Hg|].
  intros k s cm Eop. apply (Hcv (Z.of_nat (kernel_width k)) s).
  - unfold attr_ksize. now rewrite Eop.
  - unfold attr_strides. now rewrite Eop.
Qed.

(** *** A bias that is too short *)

Lemma gemm_columns_short cnode (H : Z) (sb : list (list A)) :
  outputs cnode <> [] ->
  forall (grid : list (list (matrix A))) (k : nat)
         (st : list (node A) * list string),
    Forall (fun col => col <> []) grid ->
    k <= length sb -> length sb < k + length grid ->
    foldM (gemm_column cnode H sb) (combine (seq k (length grid)) grid) st
    = Raise IndexError.
Proof.
  intros Hout grid. pose proof (index_zero_nonempty cnode Hout) as Eo.
  induction grid as [|col grid IH]; intros k [nodes cats] Hne Hk Hs.
  - simpl in Hs. lia.
  - inversion Hne as [|? ? Hcol Hrest]. subst. cbn [length seq combine foldM].
    unfold gemm_column at 1.
    rewrite (emit_chunks_closed cnode (inputs cnode) H k _ _ _ Eo).
    cbn [bind].
    destruct (Nat.eq_dec k (length sb)) as [->|Hlt].
    + rewrite index_beyond by lia. reflexivity.
    + destruct (@index_in_range _ sb k ltac:(lia)) as (b & ->).
      cbn [bind].
      destruct (@set_last_biases_nonempty _
                  (nodes ++ flat_map (chunk_nodes (primary_output cnode)
                                        (inputs cnode) H k) (enumerate col))
                  (Arr1 b)
                  (column_nodes_nonempty _ _ H k nodes Hcol))
        as (nodes2 & ->).
      cbn [bind]. rewrite Eo. cbn [bind].
      apply IH; [assumption | lia | simpl in Hs; lia].
Qed.

Lemma conv_columns_short cnode (tpl : string) (H : Z) (sb : list (list A)) :
  outputs cnode <> [] ->
  forall (grid : list (list (matrix A))) (k : nat)
         (st : list (node A) * list string),
    Forall (fun col => col <> []) grid ->
    k <= length sb -> length sb < k + length grid ->
    foldM (conv_column cnode tpl H sb) (combine (seq k (length grid)) grid) st
    = Raise IndexError.
Proof.
  intros Hout grid. pose proof (index_zero_nonempty cnode Hout) as Eo.
  induction grid as [|col grid IH]; intros k [nodes cats] Hne Hk Hs.
  - simpl in Hs. lia.
  - inversion Hne as [|? ? Hcol Hrest]. subst. cbn [length seq combine foldM].
    unfold conv_column at 1.
    rewrite (emit_chunks_closed cnode [tpl] H k _ _ _ Eo).
    cbn [bind].
    destruct (Nat.eq_dec k (length sb)) as [->|Hlt].
    + rewrite index_beyond by lia. reflexivity.
    + destruct (@index_in_range _ sb k ltac:(lia)) as (b & ->).
      cbn [bind].
      destruct (@set_last_biases_nonempty _
                  (nodes ++ flat_map (chunk_nodes (primary_output cnode)
                                        [tpl] H k) (enumerate col))
                  (Arr1 b)
                  (column_nodes_nonempty _ _ H k nodes Hcol))
        as (nodes2 & ->).
      cbn [bind].
      destruct (Nat.ltb 1 _).
      * rewrite Eo. cbn [bind].
        apply IH; [assumption | lia | simpl in Hs; lia].
      * apply IH; [assumption | lia | simpl in Hs; lia].
Qed.

(** X18. When the emitters raise.  A node without a bias is never split,
    not even when its matrix fits one tile: both emitters raise
    [AttributeError].  For a rectangular matrix cut into more than one
    chunk under positive limits, a node without outputs makes both raise
    [IndexError], and so does a bias with fewer chunks than the matrix has
    column groups. *)
Theorem emitters_raise cnode m (H W : Z) :
  attr_matrix cnode = Ok m ->
  (forall grid,
      split_matrix_into_chunks m H W = Ok grid -> biases cnode = None ->
      split_gemm_into_chunks cnode H W = Raise AttributeError /\
      split_conv_into_chunks cnode H W = Raise AttributeError) /\
  (forall bias k s cm,
      wf_matrix m -> (0 < H)%Z -> (0 < W)%Z ->
      groups (ncols m) (Z.to_nat W) * groups (nrows m) (Z.to_nat H) <> 1 ->
      biases cnode = Some bias ->
      outputs cnode = [] \/
      ceildiv (length (entries bias)) (Z.to_nat W)
      < groups (ncols m) (Z.to_nat W) ->
      split_gemm_into_chunks cnode H W = Raise IndexError /\
      (operator cnode = conv k m s cm ->
       split_conv_into_chunks cnode H W = Raise IndexError)).
Proof.
  intros Em. split.
  - intros grid Eg Eb.
    unfold split_gemm_into_chunks, split_conv_into_chunks, attr_biases.
    rewrite Em. cbn [bind]. rewrite Eg. cbn [bind]. rewrite Eb.
    split; reflexivity.
  - intros bias k s cm Hwf HH HW Hbig Eb Hbad.
    destruct (split_matrix_into_chunks m H W) as [grid|e] eqn:Eg.
    2:{ rewrite split_matrix_closed in Eg by assumption. discriminate. }
    destruct (grid_dimensions Hwf HH HW Eg) as [Hc Hr].
    assert (Hfit : fits_one_tile grid = false).
    { destruct (fits_one_tile grid) eqn:F; [|reflexivity].
      destruct (fits_one_tile_dimensions Hc Hr F) as [G1 G2].
      exfalso. apply Hbig. rewrite G1, G2. reflexivity. }
    pose proof (split_matrix_columns_nonempty m W HH Eg) as Hne.
    assert (Hgrid : exists col rest, grid = col :: rest /\ col <> []).
    { destruct grid as [|col rest].
      - simpl in Hc. pose proof (@groups_pos (ncols m) (Z.to_nat W)). lia.
      - inversion Hne. eauto. }
    unfold split_gemm_into_chunks, split_conv_into_chunks, attr_biases.
    rewrite Em. cbn [bind]. rewrite Eg. cbn [bind]. rewrite Eb. cbn [bind].
    rewrite Hfit.
    destruct Hbad as [Hout|Hshort].
    + assert (Eo : index (outputs cnode) 0 = Raise IndexError)
        by (now rewrite Hout).
      destruct Hgrid as (col & rest & -> & Hcol). split.
      * unfold enumerate. cbn [length seq combine foldM].
        unfold gemm_column at 1.
        rewrite (@emit_chunks_raise _ cnode (inputs cnode) H 0 IndexError
                   (enumerate col) ([], []) Eo).
        -- reflexivity.
        -- destruct col; [congruence|discriminate].
      * intros Eop. unfold attr_ksize, attr_strides. rewrite Eop.
        cbn [bind]. now rewrite Eo.
    + assert (Hout : outputs cnode <> [] \/ outputs cnode = []).
      { destruct (outputs cnode); [now right | left; discriminate]. }
      rewrite <- Hc in Hshort.
      rewrite <- (length_bias_chunks bias HW) in Hshort.
      destruct Hout as [Hout|Hout].
      * split.
        -- unfold enumerate.
           rewrite (@gemm_columns_short cnode H _ Hout grid 0 ([], []) Hne);
             [reflexivity | lia | lia].
        -- intros Eop. unfold attr_ksize, attr_strides. rewrite Eop.
           cbn [bind]. rewrite (index_zero_nonempty cnode Hout). cbn [bind].
           unfold enumerate.
           match goal with
           | |- context [foldM ?body (combine _ grid) ?st] =>
               rewrite (@conv_columns_short cnode _ H _ Hout grid 0 st Hne)
           end; [reflexivity | lia | lia].
      * assert (Eo : index (outputs cnode) 0 = Raise IndexError)
          by (now rewrite Hout).
        destruct Hgrid as (col & rest & -> & Hcol). split.
        -- unfold enumerate. cbn [length seq combine foldM].
           unfold gemm_column at 1.
           rewrite (@emit_chunks_raise _ cnode (inputs cnode) H 0 IndexError
                      (enumerate col) ([], []) Eo).
           ++ reflexivity.
           ++ destruct col; [congruence|discriminate].
        -- intros Eop. unfold attr_ksize, attr_strides. rewrite Eop.
           cbn [bind]. now rewrite Eo.
Qed.

End EmitterOutcome.

(** ** WindowLowering: kernel size 1, odd strides, and the two layouts *)

Section FillLoop.

Context {A : Type}.

Variable pixel : Z -> matrix A -> Z -> result (matrix A).
Variable row_of : nat -> nat -> list A.
Variables nc ho wo : nat.

Hypothesis pixel_ok : forall (r c : nat) (out : matrix A),
  r < ho -> c < wo -> ncols out = nc -> r * wo + c < nrows out ->
  pixel (Z.of_nat r) out (Z.of_nat c)
  = Ok {| ncols := nc; rows := update (rows out) (r * wo + c) (row_of r c) |}.

Local Abbreviation rows_upto k :=
  (flat_map (fun r => map (row_of r) (seq 0 wo)) (seq 0 k)).

Lemma length_rows_filled (k : nat) : length (rows_upto k) = k * wo.
Proof.
  rewrite length_flat_map_const with (n := wo).
  - now rewrite length_seq.
  - intros x. now rewrite length_map, length_seq.
Qed.

Lemma fill_loop_row (r : nat) (pre old : list (list A)) (n k : nat) :
  r < ho -> length pre = r * wo -> wo <= length old -> k + n <= wo ->
  foldM (pixel (Z.of_nat r)) (map Z.of_nat (seq k n))
        {| ncols := nc;
           rows := pre ++ map (row_of r) (seq 0 k) ++ skipn k old |}
  = Ok {| ncols := nc;
          rows := pre ++ map (row_of r) (seq 0 (k + n))
                      ++ skipn (k + n) old |}.
Proof.
  intros Hr Hpre Hold. revert k. induction n as [|n IH]; intros k Hk.
  - simpl. now rewrite Nat.add_0_r.
  - cbn [seq map foldM]. rewrite pixel_ok.
    + cbn [bind ncols rows].
      destruct (@skipn_cons _ k old ltac:(lia)) as (x & Ex).
      rewrite Ex, app_assoc.
      replace (r * wo + k) with (length (pre ++ map (row_of r) (seq 0 k)))
        by (rewrite length_app, length_map, length_seq; lia).
      rewrite update_app_exact.
      specialize (IH (S k) ltac:(lia)).
      rewrite seq_S, map_app in IH. cbn [map Nat.add] in IH.
      rewrite <- !app_assoc in IH. cbn [app] in IH.
      rewrite <- app_assoc. rewrite IH.
      now rewrite Nat.add_succ_r.
    + assumption.
    + lia.
    + reflexivity.
    + unfold nrows. cbn [rows].
      rewrite !length_app, length_map, length_seq, length_skipn. lia.
Qed.

Lemma fill_loop_rows (init : list (list A)) (n k : nat) :
  length init = ho * wo -> k + n <= ho ->
  foldM (fun out r => foldM (pixel r) (range (Z.of_nat wo)) out)
        (map Z.of_nat (seq k n))
        {| ncols := nc; rows := rows_upto k ++ skipn (k * wo) init |}
  = Ok {| ncols := nc;
          rows := rows_upto (k + n) ++ skipn ((k + n) * wo) init |}.
Proof.
  intros Hinit. rewrite range_of_nat.
  revert k. induction n as [|n IH]; intros k Hk.
  - simpl. now rewrite Nat.add_0_r.
  - cbn [seq map foldM].
    pose proof (@fill_loop_row k (rows_upto k) (skipn (k * wo) init) wo 0) as E.
    cbn [seq map skipn app Nat.add] in E. rewrite E; clear E.
    + cbn [bind]. rewrite skipn_skipn.
      specialize (IH (S k) ltac:(lia)).
      replace (rows_upto (S k))
        with (rows_upto k ++ map (row_of k) (seq 0 wo)) in IH.
      * rewrite <- app_assoc in IH.
        replace (S k * wo) with (wo + k * wo) in IH by lia.
        rewrite IH. now rewrite Nat.add_succ_r.
      * rewrite seq_S, flat_map_app. simpl. now rewrite app_nil_r.
    + lia.
    + apply length_rows_filled.
    + rewrite length_skipn, Hinit. nia.
    + lia.
Qed.

Lemma fill_loop (init : list (list A)) :
  length init = ho * wo ->
  foldM (fun out r => foldM (pixel r) (range (Z.of_nat wo)) out)
        (range (Z.of_nat ho)) {| ncols := nc; rows := init |}
  = Ok {| ncols := nc; rows := rows_upto ho |}.
Proof.
  intros Hinit. rewrite (range_of_nat ho).
  pose proof (@fill_loop_rows init ho 0 Hinit ltac:(lia)) as E.
  cbn [seq flat_map app Nat.mul skipn Nat.add] in E. rewrite E.
  rewrite skipn_all2 by lia. now rewrite app_nil_r.
Qed.

End FillLoop.

Lemma nth_error_flat_blocks {T : Type} (F : nat -> list T) (n len i k : nat) :
  (forall j, length (F j) = n) -> i < len -> k < n ->
  nth_error (flat_map F (seq 0 len)) (i * n + k) = nth_error (F i) k.
Proof.
  intros Hn Hi Hk. induction len as [|len IH]; [lia|].
  rewrite seq_S, flat_map_app. cbn [flat_map Nat.add]. rewrite app_nil_r.
  assert (Hlen : length (flat_map F (seq 0 len)) = len * n).
  { rewrite length_flat_map_const with (n := n) by assumption.
    now rewrite length_seq. }
  destruct (Nat.eq_dec i len) as [->|Hne].
  - rewrite nth_error_app2 by lia. rewrite Hlen. f_equal. lia.
  - rewrite nth_error_app1 by (rewrite Hlen; nia). apply IH. lia.
Qed.

Section Pointwise.

Context {A : Type}.

Variable uninit : A.
Variable astype : A -> A.

Lemma index_tabulate {T : Type} (n : nat) (f : nat -> T) (i : nat) :
  i < n -> index (tabulate n f) (Z.of_nat i) = Ok (f i).
Proof.
  intros Hi. unfold index.
  destruct (Z.ltb_spec (Z.of_nat i) 0); [lia|].
  destruct (Z.ltb_spec (Z.of_nat i) 0); [lia|].
  rewrite Nat2Z.id. unfold tabulate.
  rewrite nth_error_map, nth_error_seq.
  destruct (Nat.ltb_spec i n); [reflexivity | lia].
Qed.

Lemma toeplitz_pixel1_ok (in_tensor : ndarray3 A) (C h w : nat)
  (cm : bool) (s wo r c : nat) (out : matrix A) :
  shape3 in_tensor = (C, h, w) ->
  s * r < h -> s * c < w ->
  ncols out = C -> r * wo + c < nrows out ->
  toeplitz_pixel uninit (transpose_120 uninit in_tensor) 1
                 (Z.of_nat s) (Z.of_nat wo) cm (Z.of_nat r) out (Z.of_nat c)
  = Ok {| ncols := C;
          rows := update (rows out) (r * wo + c)
                    (map (fun ch => get3 uninit in_tensor ch (s * r) (s * c))
                         (seq 0 C)) |}.
Proof.
  intros Hs Hr Hc Hn Hi. unfold toeplitz_pixel, get_recfield_for_pixel.
  cbn [Z.eqb Pos.eqb]. rewrite Bool.andb_false_r.
  replace (Z.of_nat s * Z.of_nat r)%Z with (Z.of_nat (s * r)) by lia.
  replace (Z.of_nat s * Z.of_nat c)%Z with (Z.of_nat (s * c)) by lia.
  replace (Z.of_nat r * Z.of_nat wo + Z.of_nat c)%Z
    with (Z.of_nat (r * wo + c)) by lia.
  rewrite (transpose_120_shape uninit _ Hs). cbn [data3].
  rewrite index_tabulate by assumption. cbn [bind].
  rewrite index_tabulate by assumption. cbn [bind flatten].
  rewrite set_row_ok.
  - now rewrite Hn.
  - assumption.
  - unfold tabulate. now rewrite length_map, length_seq.
Qed.

Lemma stride_fits (n s k : nat) : 1 <= s -> k < n / s -> s * k < n.
Proof.
  intros Hs Hk. pose proof (Nat.Div0.mul_div_le n s). nia.
Qed.

Lemma lowering_kernel1_closed_form (in_tensor : ndarray3 A) (C h w : nat)
  (zp : A) (cm : bool) (s : nat) :
  shape3 in_tensor = (C, h, w) -> 1 <= s ->
  toeplitzize_input uninit astype in_tensor 1 (Z.of_nat s) cm zp
  = Ok {| ncols := C;
          rows := flat_map (fun r =>
                    map (fun c =>
                           map (fun ch =>
                                  get3 uninit in_tensor ch (s * r) (s * c))
                               (seq 0 C))
                        (seq 0 (w / s)))
                    (seq 0 (h / s)) |}.
Proof.
  intros Hshape Hs. unfold toeplitzize_input.
  rewrite (transpose_120_shape uninit _ Hshape). cbn [shape3].
  unfold floordiv. destruct (Z.eqb_spec (Z.of_nat s) 0) as [|_]; [lia|].
  cbn [bind Z.eqb Pos.eqb].
  rewrite <- !Nat2Z.inj_div.
  unfold np_empty_rows.
  destruct (Z.ltb_spec (Z.of_nat (h / s) * Z.of_nat (w / s)) 0) as [|_];
    [lia|].
  cbn [bind].
  rewrite <- (transpose_120_shape uninit _ Hshape).
  replace (Z.to_nat (Z.of_nat (h / s) * Z.of_nat (w / s)))
    with (h / s * (w / s)) by lia.
  unfold np_empty. cbn [fst snd].
  apply (@fill_loop A
           (toeplitz_pixel uninit (transpose_120 uninit in_tensor) 1
                           (Z.of_nat s) (Z.of_nat (w / s)) cm)
           (fun r c => map (fun ch => get3 uninit in_tensor ch (s * r) (s * c))
                           (seq 0 C))
           C (h / s) (w / s)).
  - intros r c out Hr Hc Hn Hi.
    apply toeplitz_pixel1_ok with (h := h) (w := w); try assumption.
    + now apply stride_fits.
    + now apply stride_fits.
  - apply repeat_length.
Qed.

(** X19. Kernel size 1 takes every [strides]-th pixel.  For a stride of
    one or more, [toeplitzize_input] with [ksize = 1] on a (channel,
    height, width) tensor returns a matrix of shape
    [(H_out * W_out, C)] whose row [r * W_out + c] holds, at [ch], the
    input entry [(ch, strides*r, strides*c)]: nothing is padded, and
    neither [channel_minor] nor [zero_point] changes the result. *)
Theorem toeplitz_kernel1_rows (in_tensor : ndarray3 A) (C h w : nat)
  (strides : Z) (channel_minor : bool) (zero_point : A) :
  shape3 in_tensor = (C, h, w) -> (1 <= strides)%Z ->
  let s := Z.to_nat strides in
  exists out,
    toeplitzize_input uninit astype in_tensor 1 strides channel_minor zero_point
    = Ok out /\
    shape out = ((h / s) * (w / s), C) /\
    (forall r c ch, r < h / s -> c < w / s -> ch < C ->
       nth ch (nth (r * (w / s) + c) (rows out) []) uninit
       = get3 uninit in_tensor ch (s * r) (s * c)) /\
    (forall cm zp,
       toeplitzize_input uninit astype in_tensor 1 strides cm zp = Ok out).
Proof.
  intros Hshape Hs s.
  assert (E : forall cm zp,
            toeplitzize_input uninit astype in_tensor 1 strides cm zp
            = Ok {| ncols := C;
                    rows := flat_map (fun r =>
                      map (fun c =>
                             map (fun ch =>
                                    get3 uninit in_tensor ch (s * r) (s * c))
                                 (seq 0 C))
                          (seq 0 (w / s)))
                      (seq 0 (h / s)) |}).
  { intros cm zp.
    rewrite <- (@lowering_kernel1_closed_form in_tensor C h w zp cm s Hshape)
      by (unfold s; lia).
    unfold s. now rewrite Z2Nat.id by lia. }
  eexists. split; [apply E|]. split; [|split; [|apply E]].
  - unfold shape, nrows. cbn [rows ncols]. f_equal.
    rewrite length_flat_map_const with (n := w / s).
    + now rewrite length_seq.
    + intros x. now rewrite length_map, length_seq.
  - intros r c ch Hr Hc Hch. cbn [rows].
    rewrite (nth_error_nth _ _ []
               (@nth_error_flat_rows _
                  (fun r c => map (fun ch => get3 uninit in_tensor ch
                                               (s * r) (s * c)) (seq 0 C))
                  (w / s) (h / s) r c Hr Hc)).
    rewrite (nth_indep _ uninit (get3 uninit in_tensor 0 (s * r) (s * c)))
      by (now rewrite length_map, length_seq).
    rewrite (map_nth (fun ch => get3 uninit in_tensor ch (s * r) (s * c))).
    now rewrite seq_nth.
Qed.

Lemma foldM_noop {S T : Type} (body : S -> T -> result S) (l : list T)
  (s : S) :
  (forall x, body s x = Ok s) -> foldM body l s = Ok s.
Proof.
  intros Hb. induction l as [|x l IH]; simpl; [reflexivity|].
  now rewrite Hb.
Qed.

Lemma range_nonpos (n : Z) : (n <= 0)%Z -> range n = [].
Proof.
  intros Hn. unfold range. now replace (Z.to_nat n) with 0 by lia.
Qed.

(** X20. Strides that make no output pixel.  Whatever the kernel size,
    supported or not: a stride of zero raises [ZeroDivisionError]; a
    negative stride raises nothing and returns the buffer as [np.empty]
    made it, with [(h // strides) * (w // strides)] rows none of which was
    written, so for instance 16 undefined rows for a 4x4 input and stride
    -1; a stride larger than the height or the width returns a matrix
    without rows. *)
Theorem toeplitz_degenerate_strides (in_tensor : ndarray3 A) (C h w : nat)
  (ksize strides : Z) (channel_minor : bool) (zero_point : A) :
  shape3 in_tensor = (C, h, w) ->
  let cols := if (ksize =? 3)%Z then C * 9 else C in
  let call :=
    toeplitzize_input uninit astype in_tensor ksize strides channel_minor zero_point
  in
  (strides = 0%Z -> call = Raise ZeroDivisionError) /\
  ((strides < 0)%Z ->
   call = Ok (np_empty uninit
                (Z.to_nat (Z.of_nat h / strides * (Z.of_nat w / strides)),
                 cols))) /\
  ((Z.of_nat h < strides)%Z \/ (Z.of_nat w < strides)%Z ->
   call = Ok {| ncols := cols; rows := [] |}).
Proof.
  intros Hshape cols call. unfold call, toeplitzize_input.
  rewrite (transpose_120_shape uninit _ Hshape). cbn [shape3].
  unfold floordiv. split; [|split].
  - intros ->. reflexivity.
  - intros Hneg. destruct (Z.eqb_spec strides 0) as [|_]; [lia|].
    cbn [bind].
    assert (HH : (Z.of_nat h / strides <= 0)%Z).
    { pose proof (Z.div_mod (Z.of_nat h) strides ltac:(lia)).
      pose proof (Z.mod_neg_bound (Z.of_nat h) strides Hneg). nia. }
    assert (HW : (Z.of_nat w / strides <= 0)%Z).
    { pose proof (Z.div_mod (Z.of_nat w) strides ltac:(lia)).
      pose proof (Z.mod_neg_bound (Z.of_nat w) strides Hneg). nia. }
    unfold np_empty_rows, cols.
    destruct (Z.ltb_spec (Z.of_nat h / strides * (Z.of_nat w / strides)) 0);
      [nia|].
    rewrite (range_nonpos HH).
    destruct (ksize =? 3)%Z; reflexivity.
  - intros Hbig. destruct (Z.eqb_spec strides 0) as [|_]; [lia|].
    cbn [bind].
    assert (Hzero : (Z.of_nat h / strides * (Z.of_nat w / strides) = 0)%Z).
    { destruct Hbig as [Hb|Hb].
      - rewrite (Z.div_small (Z.of_nat h)) by lia. reflexivity.
      - rewrite (Z.div_small (Z.of_nat w)) by lia. lia. }
    assert (Hloop : forall (t2 : ndarray3 A) (out : matrix A),
              foldM (fun out r =>
                       foldM (toeplitz_pixel uninit t2 ksize strides
                                (Z.of_nat w / strides) channel_minor r)
                             (range (Z.of_nat w / strides)) out)
                    (range (Z.of_nat h / strides)) out
              = Ok out).
    { intros t2 out. destruct Hbig as [Hb|Hb].
      - rewrite (Z.div_small (Z.of_nat h)) by lia. reflexivity.
      - apply foldM_noop. intros r.
        rewrite (Z.div_small (Z.of_nat w)) by lia. reflexivity. }
    unfold np_empty_rows, cols. rewrite Hzero. cbn [Z.ltb Z.compare bind].
    destruct (ksize =? 3)%Z; cbn [bind]; rewrite Hloop; reflexivity.
Qed.

(** X21. What each entry of the lowered matrix holds, in both layouts.
    For kernel size 3 and a stride of one or more, in the row of output
    pixel [(r, c)] the entry of channel [ch] at window position [(y, x)]
    is the input, padded with the zero point converted to the dtype of the
    tensor, at [(strides*r + y, strides*c + x)]; it sits at index
    [ch*9 + 3*y + x] in the channel-major layout and at
    [(3*y + x)*C + ch] in the channel-minor one. *)
Theorem toeplitz_kernel3_entries (in_tensor : ndarray3 A) (C h w : nat)
  (strides : Z) (zero_point : A) :
  shape3 in_tensor = (C, h, w) -> (1 <= strides)%Z ->
  let s := Z.to_nat strides in
  exists major minor,
    toeplitzize_input uninit astype in_tensor 3 strides false zero_point
    = Ok major /\
    toeplitzize_input uninit astype in_tensor 3 strides true zero_point
    = Ok minor /\
    forall r c ch y x,
      r < h / s -> c < w / s -> ch < C -> y < 3 -> x < 3 ->
      nth (ch * 9 + (3 * y + x)) (nth (r * (w / s) + c) (rows major) []) uninit
      = padded_at uninit in_tensor (astype zero_point)
                  (s * r + y) (s * c + x) ch /\
      nth ((3 * y + x) * C + ch) (nth (r * (w / s) + c) (rows minor) []) uninit
      = padded_at uninit in_tensor (astype zero_point)
                  (s * r + y) (s * c + x) ch.
Proof.
  intros Hshape Hs s.
  assert (E : forall cm,
            toeplitzize_input uninit astype in_tensor 3 strides cm zero_point
            = Ok {| ncols := C * 9;
                    rows := lowered_rows uninit in_tensor (astype zero_point) s
                                         cm
                                         (w / s) (h / s) |}).
  { intros cm.
    pose proof (@lowering_kernel3_closed_form A uninit astype in_tensor C h w
                  zero_point cm s Hshape ltac:(unfold s; lia)) as E.
    unfold s in E. rewrite Z2Nat.id in E by lia. exact E. }
  eexists. eexists. split; [apply E|]. split; [apply E|].
  intros r c ch y x Hr Hc Hch Hy Hx. cbn [rows]. unfold lowered_rows.
  rewrite !(nth_error_nth _ _ []
              (@nth_error_flat_rows _
                 (fun r c => receptive_row uninit in_tensor (astype zero_point)
                                        s _ r c)
                 (w / s) (h / s) r c Hr Hc)).
  rewrite !(@receptive_row_unfold A uninit in_tensor C h w (astype zero_point) s _
              r c Hshape).
  split.
  - apply nth_error_nth.
    rewrite (@nth_error_flat_blocks _
               (fun ch => flat_map (fun y =>
                  map (fun x => padded_at uninit in_tensor (astype zero_point)
                                  (s * r + y) (s * c + x) ch) (seq 0 3))
                  (seq 0 3)) 9 C ch (3 * y + x)); try assumption; try lia.
    + replace (3 * y + x) with (y * 3 + x) by lia.
      now apply (@nth_error_flat_rows _
                   (fun y x => padded_at uninit in_tensor (astype zero_point)
                                 (s * r + y) (s * c + x) ch) 3 3 y x).
    + intros k. rewrite length_flat_map_const with (n := 3).
      * now rewrite length_seq.
      * intros y0. now rewrite length_map, length_seq.
  - apply nth_error_nth.
    replace ((3 * y + x) * C + ch) with (y * (3 * C) + (x * C + ch)) by lia.
    rewrite (@nth_error_flat_blocks _
               (fun y => flat_map (fun x =>
                  map (fun ch => padded_at uninit in_tensor (astype zero_point)
                                   (s * r + y) (s * c + x) ch) (seq 0 C))
                  (seq 0 3)) (3 * C) 3 y (x * C + ch)); try assumption.
    + now apply (@nth_error_flat_rows _
                   (fun x ch => padded_at uninit in_tensor (astype zero_point)
                                  (s * r + y) (s * c + x) ch) C 3 x ch).
    + intros k. rewrite length_flat_map_const with (n := C).
      * rewrite length_seq. lia.
      * intros x0. now rewrite length_map, length_seq.
    + nia.
Qed.

End Pointwise.

(** ** SubgraphEmitter: no edge is written twice *)

Lemma append_inj_l (p a b : string) : (p ++ a)%string = (p ++ b)%string -> a = b.
Proof.
  induction p as [|c p IH]; simpl; intros E; [exact E|].
  injection E as E. now apply IH.
Qed.

Lemma append_ne_self (p s : string) :
  s <> EmptyString -> p <> (p ++ s)%string.
Proof.
  intros Hs. induction p as [|c p IH]; simpl.
  - intros E. now apply Hs.
  - intros E. injection E as E. now apply IH.
Qed.

Lemma uint_no_dash (d : Decimal.uint) :
  has_dash (NilEmpty.string_of_uint d) = false.
Proof. induction d; simpl; auto. Qed.

Lemma str_no_dash (n : nat) : has_dash (str n) = false.
Proof. apply uint_no_dash. Qed.

Lemma str_inj (a b : nat) : str a = str b -> a = b.
Proof.
  unfold str. intros E.
  apply (f_equal NilEmpty.uint_of_string) in E.
  rewrite !NilEmpty.usu in E. injection E as E.
  now apply DecimalNat.Unsigned.to_uint_inj.
Qed.

Lemma dash_split (s1 s2 t1 t2 : string) :
  has_dash s1 = false -> has_dash s2 = false ->
  (s1 ++ "-" ++ t1)%string = (s2 ++ "-" ++ t2)%string ->
  s1 = s2 /\ t1 = t2.
Proof.
  revert s2. induction s1 as [|c s1 IH]; intros [|c2 s2] H1 H2 E;
    simpl in *.
  - injection E as E. now split.
  - injection E as Ec E. subst c2. simpl in H2. discriminate.
  - injection E as Ec E. subst c. simpl in H1. discriminate.
  - injection E as Ec E. subst c2.
    apply Bool.orb_false_iff in H1. apply Bool.orb_false_iff in H2.
    destruct (IH s2 (proj2 H1) (proj2 H2) E) as [-> ->]. now split.
Qed.

Lemma indices_inj (i j i' j' : nat) :
  (str i ++ "-" ++ str j)%string = (str i' ++ "-" ++ str j')%string ->
  i = i' /\ j = j'.
Proof.
  intros E. apply dash_split in E; try apply str_no_dash.
  destruct E as [Ei Ej]. split; now apply str_inj.
Qed.

(** The naming convention gives different roles different identifiers. *)
Lemma edge_name_inj (out0 : string) (r1 r2 : role) :
  edge_name out0 r1 = edge_name out0 r2 -> r1 = r2.
Proof.
  destruct r1 as [|i j|i j|i|], r2 as [|i' j'|i' j'|i'|]; simpl; intros E;
    apply append_inj_l in E; try discriminate; try reflexivity.
  - injection E as E. apply indices_inj in E. destruct E as [-> ->].
    reflexivity.
  - injection E as E. apply indices_inj in E. destruct E as [-> ->].
    reflexivity.
  - injection E as E. apply str_inj in E. now subst.
Qed.

Lemma edge_name_fresh (out0 : string) (r : role) : out0 <> edge_name out0 r.
Proof. destruct r; simpl; apply append_ne_self; discriminate. Qed.

Lemma NoDup_map_injective {X Y : Type} (f : X -> Y) (l : list X) :
  (forall x y, f x = f y -> x = y) -> NoDup l -> NoDup (map f l).
Proof.
  intros Hf Hl. induction Hl as [|x l Hx _ IH]; simpl; constructor;
    [|assumption].
  intros Hin. apply in_map_iff in Hin. destruct Hin as (y & Ey & Hy).
  apply Hf in Ey. now subst.
Qed.

Lemma NoDup_flat_map_keyed {X Y : Type} (F : X -> list Y) (key : Y -> nat)
  (kx : X -> nat) (l : list X) :
  NoDup (map kx l) ->
  (forall x, In x l -> NoDup (F x)) ->
  (forall x y, In x l -> In y (F x) -> key y = kx x) ->
  NoDup (flat_map F l).
Proof.
  induction l as [|x l IH]; intros Hk HF Hkey; simpl; [constructor|].
  inversion Hk as [|? ? Hx Hk']. subst.
  apply NoDup_app.
  - apply HF. now left.
  - apply IH; [assumption| |].
    + intros y Hy. apply HF. now right.
    + intros y z Hy Hz. apply Hkey; [now right | assumption].
  - intros a Ha Hb. apply in_flat_map in Hb. destruct Hb as (x' & Hx' & Ha').
    apply Hx. apply in_map_iff. exists x'. split; [|assumption].
    rewrite <- (Hkey x' a (or_intror Hx') Ha').
    apply (Hkey x a); [now left | assumption].
Qed.

Lemma map_fst_enumerate {T : Type} (l : list T) :
  map fst (enumerate l) = seq 0 (length l).
Proof.
  unfold enumerate. generalize 0.
  induction l as [|x l IH]; intros k; simpl; [reflexivity|].
  now rewrite IH.
Qed.

Section SingleAssignment.

Context {A : Type}.
Implicit Types (cnode n : node A) (m : matrix A).

Lemma outputs_wiring (l1 l2 : list (node A)) :
  map wiring l1 = map wiring l2 ->
  flat_map (@outputs A) l1 = flat_map (@outputs A) l2.
Proof.
  revert l2. induction l1 as [|x l1 IH]; intros [|y l2] E;
    try discriminate; [reflexivity|].
  cbn [map] in E. injection E as _ _ Eout E. simpl.
  now rewrite Eout, (IH l2 E).
Qed.

Lemma outputs_chunks (out0 : string) (sl : list string) (H : Z) (i : nat)
  (l : list (nat * matrix A)) :
  flat_map (@outputs A) (flat_map (chunk_nodes out0 sl H i) l)
  = map (edge_name out0) (flat_map (chunk_roles i) l).
Proof.
  induction l as [|[j mm] l IH]; [reflexivity|].
  cbn [flat_map chunk_nodes chunk_roles app outputs slicer_node gemm_node
       map fst].
  now rewrite IH.
Qed.

Lemma outputs_gemm_columns (out0 : string) (ins : list string) (H : Z)
  (l : list (nat * list (matrix A))) :
  flat_map (@outputs A) (flat_map (gemm_column_plan out0 ins H) l)
  = map (edge_name out0) (flat_map (column_roles (fun _ => true)) l).
Proof.
  induction l as [|[i col] l IH]; [reflexivity|].
  cbn [flat_map]. rewrite flat_map_app, map_app, IH. f_equal.
  unfold gemm_column_plan, column_roles.
  rewrite flat_map_app, map_app, outputs_chunks. reflexivity.
Qed.

Lemma outputs_conv_columns (out0 : string) (H : Z)
  (l : list (nat * list (matrix A))) :
  flat_map (@outputs A) (flat_map (conv_column_plan out0 H) l)
  = map (edge_name out0)
        (flat_map (column_roles (fun col => Nat.ltb 1 (length col))) l).
Proof.
  induction l as [|[i col] l IH]; [reflexivity|].
  cbn [flat_map]. rewrite flat_map_app, map_app, IH. f_equal.
  unfold conv_column_plan, column_roles.
  rewrite flat_map_app, map_app, outputs_chunks.
  now destruct (Nat.ltb 1 (length col)).
Qed.

Lemma NoDup_chunk_roles (i : nat) (col : list (matrix A)) :
  NoDup (flat_map (chunk_roles i) (enumerate col)).
Proof.
  apply NoDup_flat_map_keyed with (key := role_row) (kx := fst).
  - rewrite map_fst_enumerate. apply seq_NoDup.
  - intros [j mm] _. unfold chunk_roles. cbn [fst].
    constructor; [|constructor; [|constructor]]; simpl; intuition discriminate.
  - intros [j mm] r _ Hr. unfold chunk_roles in Hr. cbn [fst] in *.
    destruct Hr as [<-|[<-|[]]]; reflexivity.
Qed.

Lemma in_column_roles (ws : list (matrix A) -> bool) (i : nat)
  (col : list (matrix A)) (r : role) :
  In r (column_roles ws (i, col)) -> role_column r = i /\ of_column r = true.
Proof.
  unfold column_roles. intros Hin. apply in_app_or in Hin.
  destruct Hin as [Hin|Hin].
  - apply in_flat_map in Hin. destruct Hin as ([j mm] & _ & Hr).
    destruct Hr as [<-|[<-|[]]]; split; reflexivity.
  - destruct (ws col); [|contradiction].
    destruct Hin as [<-|[]]. split; reflexivity.
Qed.

Lemma NoDup_column_roles (ws : list (matrix A) -> bool)
  (grid : list (list (matrix A))) :
  NoDup (flat_map (column_roles ws) (enumerate grid)).
Proof.
  apply NoDup_flat_map_keyed with (key := role_column) (kx := fst).
  - rewrite map_fst_enumerate. apply seq_NoDup.
  - intros [i col] _. unfold column_roles. apply NoDup_app.
    + apply NoDup_chunk_roles.
    + destruct (ws col); repeat constructor. intros [].
    + intros r Hr Hs. destruct (ws col); [|contradiction].
      destruct Hs as [<-|[]].
      apply in_flat_map in Hr. destruct Hr as ([j mm] & _ & Hr).
      destruct Hr as [E|[E|[]]]; discriminate.
  - intros [i col] r _ Hr. cbn [fst]. now apply in_column_roles in Hr.
Qed.

Lemma NoDup_snoc {T : Type} (l : list T) (x : T) :
  NoDup l -> ~ In x l -> NoDup (l ++ [x]).
Proof.
  intros Hl Hx. apply NoDup_app; [assumption | repeat constructor; intros [] |].
  intros a Ha [<-|[]]. contradiction.
Qed.

(** X22. No edge is written twice.  For a node with a single output,
    whatever [split_gemm_into_chunks] or [split_conv_into_chunks] returns,
    the output edges of its nodes are pairwise different: every generated
    identifier names one edge, and none of them is the output of the
    original node. *)
Theorem emitted_subgraph_single_assignment cnode (out0 : string) (H W : Z)
  (nodes : list (node A)) :
  outputs cnode = [out0] ->
  split_gemm_into_chunks cnode H W = Ok nodes \/
  split_conv_into_chunks cnode H W = Ok nodes ->
  NoDup (flat_map (@outputs A) nodes).
Proof.
  intros Hout.
  assert (Hp : primary_output cnode = out0)
    by (unfold primary_output; now rewrite Hout).
  assert (Single : forall n, outputs n = outputs cnode ->
            NoDup (flat_map (@outputs A) [n])).
  { intros n Ho. simpl. rewrite Ho, Hout. repeat constructor. intros []. }
  assert (Fresh : forall roles, ~ In out0 (map (edge_name out0) roles)).
  { intros roles Hin. apply in_map_iff in Hin. destruct Hin as (r & Er & _).
    symmetry in Er. now apply edge_name_fresh in Er. }
  intros [E|E].
  - pose proof E as E'. unfold split_gemm_into_chunks in E'.
    apply bind_Ok_inv in E'. destruct E' as (m & Em & E').
    apply bind_Ok_inv in E'. destruct E' as (grid & Eg & E').
    apply bind_Ok_inv in E'. destruct E' as (b & _ & E').
    destruct (fits_one_tile grid) eqn:Hfit.
    + inversion E'. now apply Single.
    + assert (Wi : map wiring nodes = map wiring (gemm_plan cnode H grid))
        by (eapply split_gemm_wiring; eauto).
      apply outputs_wiring in Wi. rewrite Wi. unfold gemm_plan.
      rewrite flat_map_app, outputs_gemm_columns. rewrite Hp, Hout.
      cbn [flat_map outputs cat_node app].
      apply NoDup_snoc; [|apply Fresh].
      apply NoDup_map_injective; [apply edge_name_inj|].
      apply NoDup_column_roles.
  - pose proof E as E'. unfold split_conv_into_chunks in E'.
    apply bind_Ok_inv in E'. destruct E' as (m & Em & E').
    apply bind_Ok_inv in E'. destruct E' as (grid & Eg & E').
    apply bind_Ok_inv in E'. destruct E' as (b & _ & E').
    apply bind_Ok_inv in E'. destruct E' as (ksize & Ek & E').
    apply bind_Ok_inv in E'. destruct E' as (strides & Es & E').
    destruct (fits_one_tile grid) eqn:Hfit.
    + inversion E'. now apply Single.
    + assert (Wi : map wiring nodes
                   = map wiring (conv_plan cnode ksize strides (ncols m) H grid))
        by (eapply split_conv_wiring; eauto).
      apply outputs_wiring in Wi. rewrite Wi. unfold conv_plan.
      rewrite !flat_map_app, outputs_conv_columns. rewrite Hp, Hout.
      cbn [flat_map outputs toeplitzizer_node cat_node reshaper_node app].
      set (roles := flat_map (column_roles (fun col => Nat.ltb 1 (length col)))
                             (enumerate grid)).
      change (edge_name out0 Tplitz
                :: map (edge_name out0) roles
                ++ [edge_name out0 CatOut; out0])
        with (map (edge_name out0) [Tplitz] ++ map (edge_name out0) roles
                ++ map (edge_name out0) [CatOut] ++ [out0]).
      rewrite !app_assoc, <- !map_app.
      apply NoDup_snoc; [|apply Fresh].
      apply NoDup_map_injective; [apply edge_name_inj|].
      assert (Hcol : forall r, In r roles -> of_column r = true).
      { intros r Hr. unfold roles in Hr. apply in_flat_map in Hr.
        destruct Hr as ([i col] & _ & Hr). now apply in_column_roles in Hr. }
      apply NoDup_snoc.
      * cbn [app]. constructor; [|apply NoDup_column_roles].
        intros Hin. apply Hcol in Hin. discriminate.
      * cbn [app]. intros [Hin|Hin]; [discriminate|].
        apply Hcol in Hin. discriminate.
Qed.

End SingleAssignment.

(** ** SubgraphEmitter: determinism and the naming of edges *)

Section EmissionNaming.

Context {A : Type}.
Implicit Types (cnode : node A) (m : matrix A).

(** The convolution emitter never reads the provenance tag of its node. *)
Lemma split_conv_ignores_tag (o : op A) (ins outs : list string)
  (b : option (ndarray1 A)) (t1 t2 : option string) (H W : Z) :
  split_conv_into_chunks (mk_node o ins outs b t1) H W
  = split_conv_into_chunks (mk_node o ins outs b t2) H W.
Proof. reflexivity. Qed.

(** Nor does the GEMM emitter, which hands the tag on only when it passes
    the node through. *)
Lemma split_gemm_ignores_tag (o : op A) (ins outs : list string)
  (b : option (ndarray1 A)) (t1 t2 : option string) (H W : Z) :
  split_gemm_into_chunks (mk_node o ins outs b t1) H W
  = split_gemm_into_chunks (mk_node o ins outs b t2) H W \/
  (split_gemm_into_chunks (mk_node o ins outs b t1) H W
   = Ok [mk_node o ins outs b t1] /\
   split_gemm_into_chunks (mk_node o ins outs b t2) H W
   = Ok [mk_node o ins outs b t2]).
Proof.
  unfold split_gemm_into_chunks.
  change (attr_matrix (mk_node o ins outs b t2))
    with (attr_matrix (mk_node o ins outs b t1)).
  destruct (attr_matrix (mk_node o ins outs b t1)) as [m|e];
    [|left; reflexivity].
  cbn [bind]. destruct (split_matrix_into_chunks m H W) as [grid|e];
    [|left; reflexivity].
  cbn [bind].
  change (attr_biases (mk_node o ins outs b t2))
    with (attr_biases (mk_node o ins outs b t1)).
  destruct (attr_biases (mk_node o ins outs b t1)) as [bias|e];
    [|left; reflexivity].
  cbn [bind]. destruct (fits_one_tile grid).
  - right. split; reflexivity.
  - left. reflexivity.
Qed.

(** C9. Emission is deterministic and its edge names are fixed by the
    chunk indices.  The emitters read of their node only the operator, the
    inputs, the outputs and the bias: two nodes that agree on these, such
    as a node before and after a run has tagged it in place, give the same
    result with [split_conv_into_chunks], and with
    [split_gemm_into_chunks] either the same result or each its own
    unchanged node.  A node whose matrix fits one tile gets no new edge.
    Otherwise the emitted nodes read and write, node for node, the edges
    of the plan of the chunk grid, in which the slicer and the MatMul of
    chunk [(i, j)] write [out0_slicer_i-j] and [out0_gemm_i-j], the Add of
    column group [i] writes [out0_adder_i], and the toeplitzizer and the
    Concat of a convolution write [out0_tplitz] and [out0_cat], [out0]
    being the primary output of the original node.  Different roles or
    chunk indices give different identifiers. *)
Theorem emission_deterministic_and_named :
  (forall (c1 c2 : node A) (H W : Z),
      operator c1 = operator c2 -> inputs c1 = inputs c2 ->
      outputs c1 = outputs c2 -> biases c1 = biases c2 ->
      split_conv_into_chunks c1 H W = split_conv_into_chunks c2 H W /\
      (split_gemm_into_chunks c1 H W = split_gemm_into_chunks c2 H W \/
       (split_gemm_into_chunks c1 H W = Ok [c1] /\
        split_gemm_into_chunks c2 H W = Ok [c2]))) /\
  (forall cnode m (H W : Z) (grid : list (list (matrix A)))
          (nodes : list (node A)),
      attr_matrix cnode = Ok m ->
      split_matrix_into_chunks m H W = Ok grid ->
      split_gemm_into_chunks cnode H W = Ok nodes ->
      if fits_one_tile grid then nodes = [cnode]
      else map wiring nodes = map wiring (gemm_plan cnode H grid)) /\
  (forall cnode m (ksize strides H W : Z) (grid : list (list (matrix A)))
          (nodes : list (node A)),
      attr_matrix cnode = Ok m ->
      attr_ksize cnode = Ok ksize ->
      attr_strides cnode = Ok strides ->
      split_matrix_into_chunks m H W = Ok grid ->
      split_conv_into_chunks cnode H W = Ok nodes ->
      if fits_one_tile grid
      then nodes = [set_from_type (conv_from_type ksize) cnode]
      else map wiring nodes
           = map wiring (conv_plan cnode ksize strides (ncols m) H grid)) /\
  (forall (out0 : string) (r1 r2 : role),
      edge_name out0 r1 = edge_name out0 r2 -> r1 = r2).
Proof.
  split; [|split; [|split]].
  - intros [o1 i1 u1 b1 t1] [o2 i2 u2 b2 t2] H W. cbn [operator inputs
      outputs biases]. intros -> -> -> ->. split.
    + apply split_conv_ignores_tag.
    + apply split_gemm_ignores_tag.
  - intros cnode m H W grid nodes Em Eg E.
    destruct (fits_one_tile grid) eqn:Hfit.
    + unfold split_gemm_into_chunks in E.
      rewrite Em in E. cbn [bind] in E. rewrite Eg in E. cbn [bind] in E.
      apply bind_Ok_inv in E. destruct E as (b & _ & E).
      rewrite Hfit in E. now inversion E.
    + eapply split_gemm_wiring; eauto.
  - intros cnode m ksize strides H W grid nodes Em Ek Es Eg E.
    destruct (fits_one_tile grid) eqn:Hfit.
    + unfold split_conv_into_chunks in E.
      rewrite Em in E. cbn [bind] in E. rewrite Eg in E. cbn [bind] in E.
      apply bind_Ok_inv in E. destruct E as (b & _ & E).
      rewrite Ek, Es in E. cbn [bind] in E.
      rewrite Hfit in E. now inversion E.
    + eapply split_conv_wiring; eauto.
  - apply edge_name_inj.
Qed.

End EmissionNaming.

(** ** onnx_utils: initializers and nodes by name *)

Section OnnxLookups.

Variables V W : Type.

Implicit Types (m : Onnx.ModelProto V W) (t init : Onnx.TensorProto V).

Local Abbreviation named name :=
  (fun t : Onnx.TensorProto V => Onnx.tensor_name t = name).
Local Abbreviation not_named name :=
  (fun t : Onnx.TensorProto V => Onnx.tensor_name t <> name).

Lemma first_named_some (inits : list (Onnx.TensorProto V)) (name : string)
  init :
  Onnx.first_named inits name = Some init ->
  Onnx.tensor_name init = name /\
  exists pre post,
    inits = pre ++ init :: post /\ Forall (not_named name) pre.
Proof.
  induction inits as [|x inits IH]; simpl; [discriminate|].
  destruct (String.eqb_spec (Onnx.tensor_name x) name) as [Ex|Ex].
  - intros E. inversion E. subst x. split; [assumption|].
    now exists [], inits.
  - intros E. destruct (IH E) as (Hn & pre & post & -> & Hpre).
    split; [assumption|]. exists (x :: pre), post. split; [reflexivity|].
    now constructor.
Qed.

Lemma first_named_none (inits : list (Onnx.TensorProto V)) (name : string) :
  Onnx.first_named inits name = None <-> Forall (not_named name) inits.
Proof.
  induction inits as [|x inits IH]; simpl.
  - split; [constructor | reflexivity].
  - destruct (String.eqb_spec (Onnx.tensor_name x) name) as [Ex|Ex].
    + split; [discriminate|]. intros Hall. inversion Hall. contradiction.
    + rewrite IH. split.
      * intros Hall. now constructor.
      * intros Hall. now inversion Hall.
Qed.

Lemma first_named_skip (pre post : list (Onnx.TensorProto V))
  (name : string) :
  Forall (not_named name) pre ->
  Onnx.first_named (pre ++ post) name = Onnx.first_named post name.
Proof.
  induction pre as [|x pre IH]; intros Hpre; simpl; [reflexivity|].
  inversion Hpre as [|? ? Hx Hrest]. subst.
  destruct (String.eqb_spec (Onnx.tensor_name x) name); [contradiction|].
  now apply IH.
Qed.

Lemma delete_first_split (pre post : list (Onnx.TensorProto V)) init
  (name : string) :
  Forall (not_named name) pre -> Onnx.tensor_name init = name ->
  Onnx.delete_first (pre ++ init :: post) name = pre ++ post.
Proof.
  intros Hpre Hn. induction pre as [|x pre IH]; simpl.
  - now rewrite Hn, String.eqb_refl.
  - inversion Hpre as [|? ? Hx Hrest]. subst.
    destruct (String.eqb_spec (Onnx.tensor_name x) (Onnx.tensor_name init));
      [contradiction|].
    now rewrite IH.
Qed.

Lemma delete_first_absent (inits : list (Onnx.TensorProto V))
  (name : string) :
  Forall (not_named name) inits -> Onnx.delete_first inits name = inits.
Proof.
  induction inits as [|x inits IH]; intros Hall; simpl; [reflexivity|].
  inversion Hall as [|? ? Hx Hrest]. subst.
  destruct (String.eqb_spec (Onnx.tensor_name x) name); [contradiction|].
  now rewrite IH.
Qed.

Lemma first_named_delete_other (inits : list (Onnx.TensorProto V))
  (name other : string) :
  other <> name ->
  Onnx.first_named (Onnx.delete_first inits name) other
  = Onnx.first_named inits other.
Proof.
  intros Hne. induction inits as [|x inits IH]; simpl; [reflexivity|].
  destruct (String.eqb_spec (Onnx.tensor_name x) name) as [Ex|Ex].
  - simpl. destruct (String.eqb_spec (Onnx.tensor_name x) other); congruence.
  - simpl. now rewrite IH.
Qed.

Lemma first_named_snoc_other (inits : list (Onnx.TensorProto V)) t
  (other : string) :
  Onnx.tensor_name t <> other ->
  Onnx.first_named (inits ++ [t]) other = Onnx.first_named inits other.
Proof.
  intros Hne. induction inits as [|x inits IH]; simpl.
  - now destruct (String.eqb_spec (Onnx.tensor_name t) other).
  - now rewrite IH.
Qed.

(** X23. Looking an initializer up by name.  [get_initializer_by_name]
    returns the first initializer of that name, and then [is_initializer]
    answers ['initializer']; it raises [LookupError] exactly when no
    initializer has the name, and then [is_initializer] answers [False]. *)
Theorem initializer_lookup m (name : string) :
  match Onnx.get_initializer_by_name m name with
  | inr init =>
      Onnx.tensor_name init = name /\
      Onnx.is_initializer m name = inl "initializer" /\
      exists pre post,
        Onnx.initializer (Onnx.graph m) = pre ++ init :: post /\
        Forall (not_named name) pre
  | inl e =>
      e = Onnx.LookupError ("Could not find initializer with name " ++ name) /\
      Onnx.is_initializer m name = inr false /\
      Forall (not_named name) (Onnx.initializer (Onnx.graph m))
  end.
Proof.
  unfold Onnx.get_initializer_by_name, Onnx.is_initializer.
  destruct (Onnx.first_named (Onnx.initializer (Onnx.graph m)) name)
    as [init|] eqn:E.
  - apply first_named_some in E. destruct E as (Hn & Hsplit).
    split; [assumption|]. split; [reflexivity | assumption].
  - split; [reflexivity|]. split; [reflexivity|].
    now apply first_named_none.
Qed.

(** X24. Deleting an initializer by name removes the first initializer of
    that name and nothing else: the nodes and the graph outputs stay, the
    initializers before and after it keep their order, every other name
    looks up as before, and a model without such an initializer is left
    as it was.  With unique names the name is no initializer afterwards;
    a second initializer of the same name survives the deletion. *)
Theorem delete_initializer_effect m (name : string) :
  let m' := Onnx.delete_initializer_by_name m name in
  Onnx.node (Onnx.graph m') = Onnx.node (Onnx.graph m) /\
  Onnx.graph_output (Onnx.graph m') = Onnx.graph_output (Onnx.graph m) /\
  (forall other, other <> name ->
     Onnx.get_initializer_by_name m' other
     = Onnx.get_initializer_by_name m other) /\
  match Onnx.get_initializer_by_name m name with
  | inr init =>
      exists pre post,
        Onnx.initializer (Onnx.graph m) = pre ++ init :: post /\
        Onnx.initializer (Onnx.graph m') = pre ++ post /\
        Forall (not_named name) pre /\
        (Onnx.is_initializer m' name = inr false
         <-> Forall (not_named name) post)
  | inl _ =>
      Onnx.initializer (Onnx.graph m') = Onnx.initializer (Onnx.graph m)
  end.
Proof.
  intros m'. split; [reflexivity|]. split; [reflexivity|]. split.
  - intros other Hne. unfold Onnx.get_initializer_by_name, m'. simpl.
    now rewrite first_named_delete_other.
  - unfold Onnx.get_initializer_by_name.
    destruct (Onnx.first_named (Onnx.initializer (Onnx.graph m)) name)
      as [init|] eqn:E.
    + apply first_named_some in E. destruct E as (Hn & pre & post & E & Hpre).
      exists pre, post. split; [assumption|].
      assert (Ed : Onnx.initializer (Onnx.graph m') = pre ++ post).
      { unfold m'. simpl. rewrite E. now apply delete_first_split. }
      split; [assumption|]. split; [assumption|].
      unfold Onnx.is_initializer. rewrite Ed.
      rewrite first_named_skip by assumption.
      rewrite <- first_named_none.
      destruct (Onnx.first_named post name); split; congruence.
    + unfold m'. simpl. apply delete_first_absent.
      now apply first_named_none.
Qed.

(** X25. Replacing an initializer by a drawn value.  When the name is
    found, [randomize_initializer_to_binary] removes its first initializer
    and appends a tensor of the same name with the drawn value: the
    initializers are as many as before, every other name looks up as
    before, and the name itself looks up the new tensor when no second
    initializer carries it.  When the name is not found it raises
    [LookupError]. *)
Theorem randomize_initializer_effect m (name : string) (new_value : V) :
  match Onnx.get_initializer_by_name m name with
  | inr init =>
      exists m' pre post,
        Onnx.randomize_initializer_to_binary m name new_value = inr m' /\
        Onnx.initializer (Onnx.graph m) = pre ++ init :: post /\
        Onnx.initializer (Onnx.graph m')
        = pre ++ post ++ [Onnx.mk_tensor name new_value] /\
        (forall other, other <> name ->
           Onnx.get_initializer_by_name m' other
           = Onnx.get_initializer_by_name m other) /\
        (Forall (not_named name) post ->
         Onnx.get_initializer_by_name m' name
         = inr (Onnx.mk_tensor name new_value))
  | inl e =>
      Onnx.randomize_initializer_to_binary m name new_value = inl e
  end.
Proof.
  unfold Onnx.randomize_initializer_to_binary.
  destruct (Onnx.get_initializer_by_name m name) as [e|init] eqn:Eg;
    [reflexivity|].
  unfold Onnx.get_initializer_by_name in Eg.
  destruct (Onnx.first_named (Onnx.initializer (Onnx.graph m)) name)
    as [init'|] eqn:E; [|discriminate].
  inversion Eg. subst init'. clear Eg.
  apply first_named_some in E. destruct E as (Hn & pre & post & E & Hpre).
  eexists. exists pre, post. split; [reflexivity|].
  split; [assumption|]. cbn [Onnx.graph Onnx.initializer].
  unfold Onnx.delete_initializer_by_name. cbn [Onnx.graph Onnx.initializer].
  rewrite E, delete_first_split by assumption.
  split; [now rewrite <- app_assoc|]. split.
  - intros other Hne. unfold Onnx.get_initializer_by_name.
    cbn [Onnx.graph Onnx.initializer].
    rewrite first_named_snoc_other by (simpl; congruence).
    rewrite E.
    rewrite <- (@delete_first_split pre post init name Hpre Hn).
    now rewrite first_named_delete_other.
  - intros Hpost. unfold Onnx.get_initializer_by_name.
    cbn [Onnx.graph Onnx.initializer].
    rewrite first_named_skip by (apply Forall_app; now split).
    simpl. now rewrite String.eqb_refl.
Qed.

Implicit Types (n : Onnx.NodeProto W).

(** X26. Looking a node up by its output.  [get_node_by_output] returns
    the first node whose first output is the name; the nodes before it all
    have a first output, a different one.  It raises [IndexError], not
    [LookupError], as soon as it meets a node without outputs before any
    match, and [LookupError] only when every node has a first output and
    none is the name. *)
Theorem node_lookup m (output_name : string) :
  let writes_other n :=
    exists o rest, Onnx.output n = o :: rest /\ o <> output_name in
  match Onnx.get_node_by_output m output_name with
  | inr n =>
      (exists rest, Onnx.output n = output_name :: rest) /\
      exists pre post,
        Onnx.node (Onnx.graph m) = pre ++ n :: post /\
        Forall writes_other pre
  | inl Onnx.IndexError =>
      exists pre n post,
        Onnx.node (Onnx.graph m) = pre ++ n :: post /\
        Forall writes_other pre /\ Onnx.output n = []
  | inl (Onnx.LookupError message) =>
      message = ("Could not find node with output " ++ output_name)%string /\
      Forall writes_other (Onnx.node (Onnx.graph m))
  end.
Proof.
  intros writes_other. unfold Onnx.get_node_by_output.
  induction (Onnx.node (Onnx.graph m)) as [|x nodes IH]; simpl.
  - split; [reflexivity | constructor].
  - destruct (Onnx.output x) as [|o rest] eqn:Eo.
    + exists [], x, nodes. split; [reflexivity|]. split; [constructor|assumption].
    + destruct (String.eqb_spec o output_name) as [->|Hne].
      * split; [now exists rest|]. exists [], nodes. split; [reflexivity|constructor].
      * assert (Hx : writes_other x) by (now exists o, rest).
        destruct (Onnx.first_writing nodes output_name) as [[msg|]|n].
        -- destruct IH as [-> Hall]. split; [reflexivity | now constructor].
        -- destruct IH as (pre & n & post & -> & Hpre & Hn).
           exists (x :: pre), n, post. split; [reflexivity|].
           split; [now constructor | assumption].
        -- destruct IH as (Hn & pre & post & -> & Hpre).
           split; [assumption|]. exists (x :: pre), post.
           split; [reflexivity | now constructor].
Qed.

End OnnxLookups.

(** * Concrete instances *)

Module Instances.

Import Samples.

Example reassemble_1x1 :
  (grid <- split_matrix_into_chunks m1x1 4 4 ;; reassemble grid) = Ok m1x1.
Proof. reflexivity. Qed.

Example reassemble_1x5 :
  (grid <- split_matrix_into_chunks m1x5 2 2 ;; reassemble grid) = Ok m1x5.
Proof. reflexivity. Qed.

Example reassemble_5x1 :
  (grid <- split_matrix_into_chunks m5x1 2 2 ;; reassemble grid) = Ok m5x1.
Proof. reflexivity. Qed.

(** Outside the positive limits: a zero limit divides by zero, a negative
    one leaves no chunk. *)
Example split_matrix_zero_limit :
  split_matrix_into_chunks m2x3 2 0 = Raise ZeroDivisionError.
Proof. reflexivity. Qed.

Example split_matrix_negative_limit :
  split_matrix_into_chunks m2x3 2 (-1) = Ok [].
Proof. reflexivity. Qed.

Lemma split_matrix_reassemble_witness :
  wf_matrix m2x3 /\ (0 < 1)%Z /\ (0 < 2)%Z /\
  exists grid,
    split_matrix_into_chunks m2x3 1 2 = Ok grid /\ reassemble grid = Ok m2x3.
Proof.
  assert (Hwf : wf_matrix m2x3) by (repeat constructor).
  split; [exact Hwf|]. split; [lia|]. split; [lia|].
  apply (@split_matrix_reassemble Z m2x3 1 2); [exact Hwf | lia | lia].
Defined.

Example shapes_4x10 :
  split_shape_into_chunks 0%Z (4, 10) 4 4 = Ok [[(4, 4)]; [(4, 4)]; [(4, 2)]].
Proof. reflexivity. Qed.

Example shapes_9x4 :
  split_shape_into_chunks 0%Z (9, 4) 4 4 = Ok [[(4, 4); (4, 4); (1, 4)]].
Proof. reflexivity. Qed.

Example shapes_8x8 :
  split_shape_into_chunks 0%Z (8, 8) 4 4
  = Ok [[(4, 4); (4, 4)]; [(4, 4); (4, 4)]].
Proof. reflexivity. Qed.

Example split_vector_5_2 :
  split_vector_into_chunks (Arr1 [1; 2; 3; 4; 5]%Z) 2
  = [[1; 2]; [3; 4]; [5]]%Z.
Proof. reflexivity. Qed.

Lemma split_vector_chunks_witness :
  [1; 2; 3; 4; 5]%Z <> [] /\ (1 <= 2)%Z /\
  (exists init tail_chunk,
     split_vector_into_chunks (Arr1 [1; 2; 3; 4; 5]%Z) 2
     = init ++ [tail_chunk] /\
     Forall (fun c => Z.of_nat (length c) = 2%Z) init /\
     (1 <= Z.of_nat (length tail_chunk) <= 2)%Z /\
     concat (split_vector_into_chunks (Arr1 [1; 2; 3; 4; 5]%Z) 2)
     = [1; 2; 3; 4; 5]%Z) /\
  (forall x : Z,
     split_vector_into_chunks (Scalar x) 2
     = split_vector_into_chunks (Arr1 [x]) 2).
Proof.
  split; [discriminate|]. split; [lia|].
  apply (@split_vector_chunks Z [1; 2; 3; 4; 5]%Z 2); [discriminate | lia].
Defined.

Lemma split_kernel_no_split_witness :
  (Z.of_nat (in_channels k1x1) <= 1)%Z /\
  split_kernel_into_channels k1x1 1 = Ok [].
Proof.
  assert (Hle : (Z.of_nat (in_channels k1x1) <= 1)%Z) by (simpl; lia).
  split; [exact Hle|]. exact (@split_kernel_no_split Z k1x1 1 Hle).
Defined.

Lemma split_gemm_fits_unchanged_witness :
  operator gemm4x10 = gemm m4x10 /\
  biases gemm4x10 = Some (Arr1 bias10) /\
  (Z.of_nat (nrows m4x10) <= 4)%Z /\ (Z.of_nat (ncols m4x10) <= 16)%Z /\
  split_gemm_into_chunks gemm4x10 4 16 = Ok [gemm4x10].
Proof.
  assert (Hr : (Z.of_nat (nrows m4x10) <= 4)%Z) by (simpl; lia).
  assert (Hc : (Z.of_nat (ncols m4x10) <= 16)%Z) by (simpl; lia).
  split; [reflexivity|]. split; [reflexivity|].
  split; [exact Hr|]. split; [exact Hc|].
  exact (@split_gemm_fits_unchanged Z gemm4x10 m4x10 (Arr1 bias10) 4 16
           eq_refl eq_refl Hr Hc).
Defined.

(** C7, a counterexample.  A GEMM node as the emitters build them, without
    a bias: its 4x10 matrix fits a 4x16 tile, and the call raises
    [AttributeError] instead of returning the node. *)
Lemma split_gemm_fits_without_bias :
  operator (gemm_node ["x"] ["y"] m4x10) = gemm m4x10 /\
  (Z.of_nat (nrows m4x10) <= 4)%Z /\ (Z.of_nat (ncols m4x10) <= 16)%Z /\
  split_gemm_into_chunks (gemm_node ["x"] ["y"] m4x10) 4 16
  = Raise AttributeError /\
  split_gemm_into_chunks (gemm_node ["x"] ["y"] m4x10) 4 16
  <> Ok [gemm_node ["x"] ["y"] m4x10].
Proof.
  split; [reflexivity|]. split; [simpl; lia|]. split; [simpl; lia|].
  split; [reflexivity | discriminate].
Qed.

Lemma split_gemm_4x10_counts_witness :
  operator gemm4x10 = gemm m4x10 /\ shape m4x10 = (4, 10) /\
  biases gemm4x10 = Some (Arr1 bias10) /\ length bias10 = 10 /\
  outputs gemm4x10 <> [] /\
  exists nodes,
    split_gemm_into_chunks gemm4x10 4 4 = Ok nodes /\
    count is_matmul nodes = 3 /\ count is_slice nodes = 3 /\
    count is_add nodes = 3 /\ count is_concat nodes = 1 /\
    length nodes = 10 /\
    Forall (fun n => is_add n = true -> length (inputs n) = 1) nodes.
Proof.
  assert (Hout : outputs gemm4x10 <> []) by discriminate.
  split; [reflexivity|]. split; [reflexivity|]. split; [reflexivity|].
  split; [reflexivity|]. split; [exact Hout|].
  exact (@split_gemm_4x10_counts Z gemm4x10 m4x10 bias10
           eq_refl eq_refl eq_refl eq_refl Hout).
Defined.

Lemma bias_on_last_matmul_witness :
  (0 < 2)%Z /\
  attr_matrix conv5x6 = Ok m5x6 /\
  attr_biases conv5x6 = Ok (Arr1 bias6) /\
  split_matrix_into_chunks m5x6 2 4 = Ok grid5x6 /\
  fits_one_tile grid5x6 = false /\
  (exists nodes,
     split_gemm_into_chunks conv5x6 2 4 = Ok nodes /\
     filter is_matmul nodes
     = expected_matmuls (Some "gemm") "y"
                        (split_vector_into_chunks (Arr1 bias6) 4) grid5x6) /\
  (exists nodes,
     split_conv_into_chunks conv5x6 2 4 = Ok nodes /\
     filter is_matmul nodes
     = expected_matmuls (Some "pointwise") "y"
                        (split_vector_into_chunks (Arr1 bias6) 4) grid5x6).
Proof.
  assert (HH : (0 < 2)%Z) by lia.
  assert (Eg : split_matrix_into_chunks m5x6 2 4 = Ok grid5x6)
    by (vm_compute; reflexivity).
  assert (Hfit : fits_one_tile grid5x6 = false) by reflexivity.
  destruct (@bias_on_last_matmul Z conv5x6 m5x6 (Arr1 bias6) 2 4 grid5x6
              HH eq_refl eq_refl Eg Hfit) as [Hgemm Hconv].
  split; [exact HH|]. split; [reflexivity|]. split; [reflexivity|].
  split; [exact Eg|]. split; [exact Hfit|]. split.
  - destruct (split_gemm_into_chunks conv5x6 2 4) as [nodes|e] eqn:E;
      [|vm_compute in E; discriminate].
    exists nodes. split; [reflexivity|]. exact (proj1 (Hgemm nodes eq_refl)).
  - destruct (split_conv_into_chunks conv5x6 2 4) as [nodes|e] eqn:E;
      [|vm_compute in E; discriminate].
    exists nodes. split; [reflexivity|].
    destruct (Hconv nodes eq_refl) as (ksize & Ek & F & _).
    vm_compute in Ek. inversion Ek. subst ksize. exact F.
Defined.

Lemma emission_deterministic_and_named_witness :
  split_conv_into_chunks (set_from_type "pointwise" conv5x6) 2 4
  = split_conv_into_chunks conv5x6 2 4 /\
  exists nodes,
    split_conv_into_chunks conv5x6 2 4 = Ok nodes /\
    map wiring nodes = map wiring (conv_plan conv5x6 1 1 6 2 grid5x6).
Proof.
  destruct (@emission_deterministic_and_named Z) as (Hdet & _ & Hconv & _).
  split.
  - exact (proj1 (Hdet (set_from_type "pointwise" conv5x6) conv5x6 2%Z 4%Z
                    eq_refl eq_refl eq_refl eq_refl)).
  - destruct (split_conv_into_chunks conv5x6 2 4) as [nodes|e] eqn:E;
      [|vm_compute in E; discriminate].
    exists nodes. split; [reflexivity|].
    assert (Eg : split_matrix_into_chunks m5x6 2 4 = Ok grid5x6)
      by (vm_compute; reflexivity).
    exact (Hconv conv5x6 m5x6 1%Z 1%Z 2%Z 4%Z grid5x6 nodes
             eq_refl eq_refl eq_refl Eg E).
Defined.

(** The edges of the convolution sample: chunk [(1, 2)] is sliced into
    [y_slicer_1-2] and multiplied into [y_gemm_1-2]. *)
Example conv5x6_chunk_edges :
  match split_conv_into_chunks conv5x6 2 4 with
  | Ok nodes => map (@outputs Z) (firstn 2 (skipn 12 nodes))
  | Raise _ => []
  end = [["y_slicer_1-2"]; ["y_gemm_1-2"]].
Proof. reflexivity. Qed.

Lemma toeplitz_kernel3_rows_witness :
  shape3 t1x2x2 = (1, 2, 2) /\ astype_int uint8 128 = 128%Z /\
  exists out,
    toeplitzize_input 0%Z (astype_int uint8) t1x2x2 3 1 false 128%Z = Ok out /\
    shape out = (4, 9) /\
    forall r c y x, r < 2 -> c < 2 -> y < 3 -> x < 3 ->
      out_of_bounds t1x2x2 (r + y) (c + x) = true ->
      nth (y * 3 + x) (nth (r * 2 + c) (rows out) []) 0%Z = 128%Z.
Proof.
  split; [reflexivity|]. split; [reflexivity|].
  destruct (@toeplitz_kernel3_rows 0%Z (astype_int uint8) t1x2x2 1 2 2 eq_refl)
    as [Hgen Hone].
  destruct (Hgen 1%Z false 128%Z ltac:(lia)) as (out & E & Hshape & _).
  destruct (Hone eq_refl false) as (out' & E' & H128).
  rewrite E in E'. inversion E'. subst out'.
  exists out. split; [exact E|]. split; [exact Hshape|].
  intros r c y x Hr Hc Hy Hx Ho.
  exact (proj2 (H128 r c y x Hr Hc Hy Hx Ho) eq_refl).
Defined.

(** C6, a counterexample.  On an int8 tensor the zero point 128 does not
    fit the dtype: the border of the padded tensor holds -128, and so does
    the out-of-bounds position 0 of the row of output pixel (0, 0). *)
Lemma toeplitz_int8_zero_point :
  shape3 t1x2x2 = (1, 2, 2) /\
  out_of_bounds t1x2x2 (0 + 0) (0 + 0) = true /\
  exists out,
    toeplitzize_input 0%Z (astype_int int8) t1x2x2 3 1 false 128%Z = Ok out /\
    nth (0 * 3 + 0) (nth (0 * 2 + 0) (rows out) []) 0%Z = (-128)%Z /\
    nth (0 * 3 + 0) (nth (0 * 2 + 0) (rows out) []) 0%Z <> 128%Z.
Proof.
  split; [reflexivity|]. split; [reflexivity|].
  eexists. split; [reflexivity|]. split; [reflexivity | discriminate].
Qed.

(** What the integer dtypes make of a scalar. *)
Example astype_int_values :
  astype_int uint8 300 = 44%Z /\ astype_int int8 128 = (-128)%Z /\
  astype_int uint8 128 = 128%Z /\ astype_int int8 (-1) = (-1)%Z /\
  astype_int uint8 (-1) = 255%Z /\ astype_int int16 128 = 128%Z.
Proof. repeat split; reflexivity. Qed.

Example toeplitz_1x2x2 :
  toeplitzize_input 0%Z (astype_int uint8) t1x2x2 3 1 false 128%Z
  = Ok {| ncols := 9;
          rows := [[128; 128; 128; 128; 1; 2; 128; 3; 4];
                   [128; 128; 128; 1; 2; 128; 3; 4; 128];
                   [128; 1; 2; 128; 3; 4; 128; 128; 128];
                   [1; 2; 128; 3; 4; 128; 128; 128; 128]]%Z |}.
Proof. reflexivity. Qed.

(** C8, a counterexample.  Kernel size 5 is outside {1, 3}, and on a 1x1
    one-channel tensor with stride 2 there is no output pixel:
    [toeplitzize_input] returns the empty 0x1 matrix instead of failing. *)
Lemma toeplitz_ksize5_returns :
  (5 <> 1)%Z /\ (5 <> 3)%Z /\
  toeplitzize_input 0%Z (astype_int uint8) t1x1x1 5 2 false 0%Z = Ok {| ncols := 1; rows := [] |}.
Proof. split; [lia|]. split; [lia|]. reflexivity. Qed.

Lemma toeplitz_other_ksize_raises_witness :
  shape3 t1x2x2 = (1, 2, 2) /\ (5 <> 1)%Z /\ (5 <> 3)%Z /\
  (1 <= 1)%Z /\ (1 <= Z.of_nat 2)%Z /\ (1 <= Z.of_nat 2)%Z /\
  toeplitzize_input 0%Z (astype_int uint8) t1x2x2 5 1 false 0%Z = Raise AttributeError.
Proof.
  assert (K1 : (5 <> 1)%Z) by lia. assert (K3 : (5 <> 3)%Z) by lia.
  assert (S1 : (1 <= 1)%Z) by lia. assert (S2 : (1 <= Z.of_nat 2)%Z) by lia.
  split; [reflexivity|]. split; [exact K1|]. split; [exact K3|].
  split; [exact S1|]. split; [exact S2|]. split; [exact S2|].
  exact (@toeplitz_other_ksize_raises Z 0%Z (astype_int uint8) t1x2x2 1 2 2 5 1 false 0%Z
           eq_refl K1 K3 S1 S2 S2).
Defined.

End Instances.

Module MoreInstances.

Import Samples.
Import MoreSamples.

Lemma wf_m2x3 : wf_matrix m2x3.
Proof. repeat constructor. Defined.

Lemma wf_m4x10 : wf_matrix m4x10.
Proof. repeat constructor. Defined.

Lemma wf_m5x6 : wf_matrix m5x6.
Proof. repeat constructor. Defined.

Lemma split_matrix_grid_witness :
  wf_matrix m2x3 /\ (0 < 1)%Z /\ (0 < 2)%Z /\
  exists grid,
    split_matrix_into_chunks m2x3 1 2 = Ok grid /\
    length grid = 2 /\
    forall i col, nth_error grid i = Some col ->
      length col = 2 /\
      forall j chunk, nth_error col j = Some chunk ->
        forall a b,
          entry chunk a b
          = if (a <? 1)%nat && (b <? 2)%nat
            then entry m2x3 (1 * j + a) (2 * i + b)
            else None.
Proof.
  assert (HH : (0 < 1)%Z) by lia. assert (HW : (0 < 2)%Z) by lia.
  split; [exact wf_m2x3|]. split; [exact HH|]. split; [exact HW|].
  exact (@split_matrix_grid Z m2x3 1 2 wf_m2x3 HH HW).
Defined.

Example grid_entry_m2x3 :
  match split_matrix_into_chunks m2x3 1 2 with
  | Ok grid => option_map (fun col => nth_error col 1) (nth_error grid 1)
  | Raise _ => None
  end = Some (Some {| ncols := 1; rows := [[6%Z]] |}).
Proof. reflexivity. Qed.

Lemma split_matrix_chunks_fit_witness :
  wf_matrix m2x3 /\ (0 < 1)%Z /\ (0 < 2)%Z /\
  exists grid,
    split_matrix_into_chunks m2x3 1 2 = Ok grid /\
    Forall (Forall (fun chunk =>
              wf_matrix chunk /\
              (Z.of_nat (nrows chunk) <= 1)%Z /\
              (Z.of_nat (ncols chunk) <= 2)%Z /\
              (0 < nrows m2x3 -> 0 < ncols m2x3 ->
               0 < nrows chunk /\ 0 < ncols chunk))) grid.
Proof.
  assert (HH : (0 < 1)%Z) by lia. assert (HW : (0 < 2)%Z) by lia.
  split; [exact wf_m2x3|]. split; [exact HH|]. split; [exact HW|].
  exact (@split_matrix_chunks_fit Z m2x3 1 2 wf_m2x3 HH HW).
Defined.

Lemma split_shape_plan_witness :
  (0 < 4)%Z /\ (0 < 4)%Z /\
  exists plan,
    split_shape_into_chunks 0%Z (9, 10) 4 4 = Ok plan /\
    length plan = 3 /\
    Forall (fun col => length col = 3) plan /\
    Forall (Forall (fits_tile 4 4)) plan /\
    total_area (concat plan) = 90.
Proof.
  assert (HH : (0 < 4)%Z) by lia.
  split; [exact HH|]. split; [exact HH|].
  exact (@split_shape_plan Z 0%Z (9, 10) 4 4 HH HH).
Defined.

Lemma split_shapelist_tiles_witness :
  (0 < 4)%Z /\ (0 < 4)%Z /\
  exists tiles,
    split_shapelist_into_chunks 0%Z [(4, 10); (9, 4)] 4 4 = Ok tiles /\
    Forall (fits_tile 4 4) tiles /\
    total_area tiles = 76 /\
    length tiles = 6.
Proof.
  assert (HH : (0 < 4)%Z) by lia.
  split; [exact HH|]. split; [exact HH|].
  exact (@split_shapelist_tiles Z 0%Z [(4, 10); (9, 4)] 4 4 HH HH).
Defined.

Example shapelist_4x10_9x4 :
  split_shapelist_into_chunks 0%Z [(4, 10); (9, 4)] 4 4
  = Ok [(4, 4); (4, 4); (4, 2); (4, 4); (4, 4); (1, 4)].
Proof. reflexivity. Qed.

Lemma split_shapelist_idempotent_witness :
  (0 < 4)%Z /\ (0 < 4)%Z /\
  exists t1 t2,
    split_shapelist_into_chunks 0%Z [(4, 10)] 4 4 = Ok t1 /\
    split_shapelist_into_chunks 0%Z [(9, 4)] 4 4 = Ok t2 /\
    split_shapelist_into_chunks 0%Z ([(4, 10)] ++ [(9, 4)]) 4 4
    = Ok (t1 ++ t2) /\
    split_shapelist_into_chunks 0%Z t1 4 4 = Ok t1.
Proof.
  assert (HH : (0 < 4)%Z) by lia.
  split; [exact HH|]. split; [exact HH|].
  exact (@split_shapelist_idempotent Z 0%Z [(4, 10)] [(9, 4)] 4 4 HH HH).
Defined.

Example split_matrix_negative_row_limit :
  split_matrix_into_chunks m2x3 (-1) 2 = Ok [[]; []].
Proof. reflexivity. Qed.

Example split_vector_empty :
  split_vector_into_chunks (Arr1 (@nil Z)) 2 = [].
Proof. reflexivity. Qed.

Lemma bias_chunks_match_columns_witness :
  wf_matrix m4x10 /\ (0 < 4)%Z /\ (0 < 4)%Z /\ 0 < ncols m4x10 /\
  length (entries (Arr1 bias10)) = ncols m4x10 /\
  exists grid,
    split_matrix_into_chunks m4x10 4 4 = Ok grid /\
    Forall2 (fun col b => Forall (fun chunk => ncols chunk = length b) col)
            grid (split_vector_into_chunks (Arr1 bias10) 4).
Proof.
  assert (HH : (0 < 4)%Z) by lia.
  assert (Hc : 0 < ncols m4x10) by (simpl; lia).
  split; [exact wf_m4x10|]. split; [exact HH|]. split; [exact HH|].
  split; [exact Hc|]. split; [reflexivity|].
  exact (@bias_chunks_match_columns Z m4x10 (Arr1 bias10) 4 4
           wf_m4x10 HH HH Hc eq_refl).
Defined.

Lemma split_kernel_concat_witness :
  wf_kernel k6x5 /\ (1 <= 2)%Z /\ (2 < Z.of_nat (in_channels k6x5))%Z /\
  exists groups,
    split_kernel_into_channels k6x5 2 = Ok groups /\
    concat_channels groups = Ok k6x5.
Proof.
  assert (Hwf : wf_kernel k6x5) by (split; [reflexivity | repeat constructor]).
  assert (HC : (1 <= 2)%Z) by lia.
  assert (Hgt : (2 < Z.of_nat (in_channels k6x5))%Z) by (simpl; lia).
  split; [exact Hwf|]. split; [exact HC|]. split; [exact Hgt|].
  exact (@split_kernel_concat Z k6x5 2 Hwf HC Hgt).
Defined.

Example split_conv_into_channels_drops :
  split_conv_into_channels conv5x6 2 = Ok None /\
  split_conv_into_channels conv5x6 8 = Ok None /\
  split_conv_into_channels conv5x6_nobias 2 = Ok None /\
  split_conv_into_channels gemm4x10 2 = Raise AttributeError.
Proof. repeat split; reflexivity. Qed.

Example split_dwc_into_chunks_fails :
  split_dwc_into_chunks (mk_dwc_node k6x5 1 ["x"] ["y"]) 2 = NameError "ksize"
  /\ split_dwc_into_chunks (mk_dwc_node k6x5 1 ["x"] ["y"]) 0
     = Raises ZeroDivisionError
  /\ split_dwc_into_chunks (mk_dwc_node k6x5 1 ["x"] []) 8
     = Raises IndexError.
Proof. repeat split; reflexivity. Qed.

Lemma split_gemm_follows_plan_witness :
  attr_matrix gemm4x10 = Ok m4x10 /\
  exists grid nodes,
    split_matrix_into_chunks m4x10 4 4 = Ok grid /\
    fits_one_tile grid = false /\
    split_gemm_into_chunks gemm4x10 4 4 = Ok nodes /\
    map wiring nodes = map wiring (gemm_plan gemm4x10 4 grid) /\
    Forall (fun n => from_type n = Some "gemm") nodes.
Proof.
  split; [reflexivity|].
  destruct (split_matrix_into_chunks m4x10 4 4) as [grid|e] eqn:Eg;
    [|vm_compute in Eg; discriminate].
  destruct (split_gemm_into_chunks gemm4x10 4 4) as [nodes|e] eqn:E;
    [|vm_compute in E; discriminate].
  assert (Hfit : fits_one_tile grid = false).
  { vm_compute in Eg. inversion Eg. reflexivity. }
  exists grid, nodes. split; [reflexivity|]. split; [exact Hfit|].
  split; [reflexivity|].
  exact (@split_gemm_follows_plan Z gemm4x10 m4x10 4 4 grid nodes
           eq_refl Eg Hfit E).
Defined.

Lemma split_conv_follows_plan_witness :
  attr_matrix conv5x6 = Ok m5x6 /\
  attr_ksize conv5x6 = Ok 1%Z /\ attr_strides conv5x6 = Ok 1%Z /\
  split_matrix_into_chunks m5x6 2 4 = Ok grid5x6 /\
  fits_one_tile grid5x6 = false /\
  exists nodes,
    split_conv_into_chunks conv5x6 2 4 = Ok nodes /\
    map wiring nodes = map wiring (conv_plan conv5x6 1 1 6 2 grid5x6) /\
    Forall (fun n => from_type n = Some "pointwise") nodes.
Proof.
  assert (Eg : split_matrix_into_chunks m5x6 2 4 = Ok grid5x6)
    by (vm_compute; reflexivity).
  assert (Hfit : fits_one_tile grid5x6 = false) by reflexivity.
  split; [reflexivity|]. split; [reflexivity|]. split; [reflexivity|].
  split; [exact Eg|]. split; [exact Hfit|].
  destruct (split_conv_into_chunks conv5x6 2 4) as [nodes|e] eqn:E;
    [|vm_compute in E; discriminate].
  exists nodes. split; [reflexivity|].
  exact (@split_conv_follows_plan Z conv5x6 m5x6 1 1 2 4 grid5x6 nodes
           eq_refl eq_refl eq_refl Eg Hfit E).
Defined.

Lemma split_gemm_node_counts_witness :
  wf_matrix m4x10 /\ (0 < 4)%Z /\ (0 < 4)%Z /\
  attr_matrix gemm4x10 = Ok m4x10 /\
  groups (ncols m4x10) (Z.to_nat 4) * groups (nrows m4x10) (Z.to_nat 4) <> 1 /\
  exists nodes,
    split_gemm_into_chunks gemm4x10 4 4 = Ok nodes /\
    count is_slice nodes = 3 /\ count is_matmul nodes = 3 /\
    count is_add nodes = 3 /\ count is_concat nodes = 1 /\
    length nodes = 10.
Proof.
  assert (HH : (0 < 4)%Z) by lia.
  assert (Hbig : groups (ncols m4x10) (Z.to_nat 4)
                 * groups (nrows m4x10) (Z.to_nat 4) <> 1)
    by (vm_compute; discriminate).
  split; [exact wf_m4x10|]. split; [exact HH|]. split; [exact HH|].
  split; [reflexivity|]. split; [exact Hbig|].
  destruct (split_gemm_into_chunks gemm4x10 4 4) as [nodes|e] eqn:E;
    [|vm_compute in E; discriminate].
  exists nodes. split; [reflexivity|].
  exact (@split_gemm_node_counts Z gemm4x10 m4x10 4 4 nodes
           wf_m4x10 HH HH eq_refl Hbig E).
Defined.

Lemma split_conv_node_counts_witness :
  wf_matrix m5x6 /\ (0 < 2)%Z /\ (0 < 4)%Z /\
  attr_matrix conv5x6 = Ok m5x6 /\
  groups (ncols m5x6) (Z.to_nat 4) * groups (nrows m5x6) (Z.to_nat 2) <> 1 /\
  exists nodes,
    split_conv_into_chunks conv5x6 2 4 = Ok nodes /\
    count is_toeplitz nodes = 1 /\
    count is_slice nodes = 6 /\ count is_matmul nodes = 6 /\
    count is_add nodes = 2 /\ count is_concat nodes = 1 /\
    count is_reshape nodes = 1 /\
    length nodes = 17.
Proof.
  assert (HH : (0 < 2)%Z) by lia. assert (HW : (0 < 4)%Z) by lia.
  assert (Hbig : groups (ncols m5x6) (Z.to_nat 4)
                 * groups (nrows m5x6) (Z.to_nat 2) <> 1)
    by (vm_compute; discriminate).
  split; [exact wf_m5x6|]. split; [exact HH|]. split; [exact HW|].
  split; [reflexivity|]. split; [exact Hbig|].
  destruct (split_conv_into_chunks conv5x6 2 4) as [nodes|e] eqn:E;
    [|vm_compute in E; discriminate].
  exists nodes. split; [reflexivity|].
  exact (@split_conv_node_counts Z conv5x6 m5x6 2 4 nodes
           wf_m5x6 HH HW eq_refl Hbig E).
Defined.

(** With a row limit that one row group meets, the convolution subgraph
    has no Add node at all. *)
Example split_conv_without_adds :
  match split_conv_into_chunks conv5x6 8 4 with
  | Ok nodes => Some (count is_add nodes, length nodes)
  | Raise _ => None
  end = Some (0, 7).
Proof. reflexivity. Qed.

Lemma emitted_subgraph_wired_witness :
  exists nodes,
    split_conv_into_chunks conv5x6 2 4 = Ok nodes /\
    wired (inputs conv5x6) nodes /\
    exists before final,
      nodes = before ++ [final] /\ outputs final = outputs conv5x6.
Proof.
  destruct (split_conv_into_chunks conv5x6 2 4) as [nodes|e] eqn:E;
    [|vm_compute in E; discriminate].
  exists nodes. split; [reflexivity|].
  exact (@emitted_subgraph_wired Z conv5x6 2 4 nodes (or_intror E)).
Defined.

Lemma emitters_return_when_aligned_witness :
  wf_matrix m5x6 /\ (0 < 2)%Z /\ (0 < 4)%Z /\
  attr_matrix conv5x6 = Ok m5x6 /\ biases conv5x6 = Some (Arr1 bias6) /\
  0 < ncols m5x6 /\ ncols m5x6 <= length (entries (Arr1 bias6)) /\
  outputs conv5x6 <> [] /\
  (exists nodes, split_gemm_into_chunks conv5x6 2 4 = Ok nodes) /\
  (exists nodes, split_conv_into_chunks conv5x6 2 4 = Ok nodes).
Proof.
  assert (HH : (0 < 2)%Z) by lia. assert (HW : (0 < 4)%Z) by lia.
  assert (Hc : 0 < ncols m5x6) by (simpl; lia).
  assert (Hb : ncols m5x6 <= length (entries (Arr1 bias6))) by (simpl; lia).
  assert (Hout : outputs conv5x6 <> []) by discriminate.
  split; [exact wf_m5x6|]. split; [exact HH|]. split; [exact HW|].
  split; [reflexivity|]. split; [reflexivity|]. split; [exact Hc|].
  split; [exact Hb|]. split; [exact Hout|].
  destruct (@emitters_return_when_aligned Z conv5x6 m5x6 (Arr1 bias6) 2 4
              wf_m5x6 HH HW eq_refl eq_refl Hc Hb Hout) as [Hg Hcv].
  split; [exact Hg|]. exact (Hcv k6x5 1%Z false eq_refl).
Defined.

Lemma emitters_raise_witness :
  attr_matrix conv5x6_nobias = Ok m5x6 /\
  split_matrix_into_chunks m5x6 8 8 = Ok [[m5x6]] /\
  biases conv5x6_nobias = None /\
  split_gemm_into_chunks conv5x6_nobias 8 8 = Raise AttributeError /\
  split_conv_into_chunks conv5x6_nobias 8 8 = Raise AttributeError.
Proof.
  assert (Eg : split_matrix_into_chunks m5x6 8 8 = Ok [[m5x6]])
    by reflexivity.
  split; [reflexivity|]. split; [exact Eg|]. split; [reflexivity|].
  exact (proj1 (@emitters_raise Z conv5x6_nobias m5x6 8 8 eq_refl)
           [[m5x6]] Eg eq_refl).
Defined.

(** A bias of four entries gives one chunk for two column groups. *)
Example split_gemm_short_bias :
  split_gemm_into_chunks
    (mk_node (gemm m5x6) ["x"] ["y"] (Some (Arr1 [1; 2; 3; 4]%Z)) None) 2 4
  = Raise IndexError.
Proof. reflexivity. Qed.

Lemma toeplitz_kernel1_rows_witness :
  shape3 t2x2x2 = (2, 2, 2) /\ (1 <= 2)%Z /\
  exists out,
    toeplitzize_input 0%Z (astype_int uint8) t2x2x2 1 2 true 128%Z = Ok out /\
    shape out = (1, 2) /\
    (forall r c ch, r < 1 -> c < 1 -> ch < 2 ->
       nth ch (nth (r * 1 + c) (rows out) []) 0%Z
       = get3 0%Z t2x2x2 ch (2 * r) (2 * c)) /\
    (forall cm zp, toeplitzize_input 0%Z (astype_int uint8) t2x2x2 1 2 cm zp = Ok out).
Proof.
  assert (Hs : (1 <= 2)%Z) by lia.
  split; [reflexivity|]. split; [exact Hs|].
  exact (@toeplitz_kernel1_rows Z 0%Z (astype_int uint8) t2x2x2 2 2 2 2 true 128%Z eq_refl Hs).
Defined.

Example toeplitz_pointwise_2x2x2 :
  toeplitzize_input 0%Z (astype_int uint8) t2x2x2 1 1 false 128%Z
  = Ok {| ncols := 2; rows := [[1; 5]; [2; 6]; [3; 7]; [4; 8]]%Z |}.
Proof. reflexivity. Qed.

Lemma toeplitz_degenerate_strides_witness :
  shape3 t2x2x2 = (2, 2, 2) /\
  toeplitzize_input 0%Z (astype_int uint8) t2x2x2 3 (-1) false 128%Z
  = Ok (np_empty 0%Z (4, 18)).
Proof.
  split; [reflexivity|].
  exact (proj1 (proj2 (@toeplitz_degenerate_strides Z 0%Z (astype_int uint8) t2x2x2 2 2 2 3 (-1)
                         false 128%Z eq_refl)) ltac:(lia)).
Defined.

Lemma toeplitz_kernel3_entries_witness :
  shape3 t2x2x2 = (2, 2, 2) /\ (1 <= 1)%Z /\
  exists major minor,
    toeplitzize_input 0%Z (astype_int uint8) t2x2x2 3 1 false 128%Z = Ok major /\
    toeplitzize_input 0%Z (astype_int uint8) t2x2x2 3 1 true 128%Z = Ok minor /\
    forall r c ch y x,
      r < 2 -> c < 2 -> ch < 2 -> y < 3 -> x < 3 ->
      nth (ch * 9 + (3 * y + x)) (nth (r * 2 + c) (rows major) []) 0%Z
      = padded_at 0%Z t2x2x2 128%Z (1 * r + y) (1 * c + x) ch /\
      nth ((3 * y + x) * 2 + ch) (nth (r * 2 + c) (rows minor) []) 0%Z
      = padded_at 0%Z t2x2x2 128%Z (1 * r + y) (1 * c + x) ch.
Proof.
  assert (Hs : (1 <= 1)%Z) by lia.
  split; [reflexivity|]. split; [exact Hs|].
  exact (@toeplitz_kernel3_entries Z 0%Z (astype_int uint8) t2x2x2 2 2 2 1 128%Z eq_refl Hs).
Defined.

Example toeplitz_layouts_2x2x2 :
  option_map (fun out => nth 0 (rows out) [])
    (match toeplitzize_input 0%Z (astype_int uint8) t2x2x2 3 1 false 128%Z with
     | Ok out => Some out | Raise _ => None end)
  = Some [128; 128; 128; 128; 1; 2; 128; 3; 4;
          128; 128; 128; 128; 5; 6; 128; 7; 8]%Z /\
  option_map (fun out => nth 0 (rows out) [])
    (match toeplitzize_input 0%Z (astype_int uint8) t2x2x2 3 1 true 128%Z with
     | Ok out => Some out | Raise _ => None end)
  = Some [128; 128; 128; 128; 128; 128; 128; 128; 1; 5; 2; 6;
          128; 128; 3; 7; 4; 8]%Z.
Proof. split; reflexivity. Qed.

Lemma emitted_subgraph_single_assignment_witness :
  outputs conv5x6 = ["y"] /\
  exists nodes,
    split_conv_into_chunks conv5x6 2 4 = Ok nodes /\
    NoDup (flat_map (@outputs Z) nodes).
Proof.
  split; [reflexivity|].
  destruct (split_conv_into_chunks conv5x6 2 4) as [nodes|e] eqn:E;
    [|vm_compute in E; discriminate].
  exists nodes. split; [reflexivity|].
  exact (@emitted_subgraph_single_assignment Z conv5x6 "y" 2 4 nodes
           eq_refl (or_intror E)).
Defined.

(** A node without outputs before the match: the lookup raises
    [IndexError]. *)
Example node_lookup_index_error :
  Onnx.get_node_by_output
    (Onnx.mk_model
       (Onnx.mk_graph (@nil (Onnx.TensorProto Z))
          [Onnx.mk_node_proto "Identity" ["a"] [] (@nil (Onnx.AttributeProto Z));
           Onnx.mk_node_proto "Relu" ["a"] ["b"] []]
          []))
    "b"
  = inl Onnx.IndexError.
Proof. reflexivity. Qed.

(** With two initializers of one name, the lookup after the replacement
    gives the old second one. *)
Example randomize_with_duplicate :
  match Onnx.randomize_initializer_to_binary
          (Onnx.mk_model
             (Onnx.mk_graph
                [Onnx.mk_tensor "w" 1%Z; Onnx.mk_tensor "w" 2%Z]
                (@nil (Onnx.NodeProto Z)) []))
          "w" 0%Z with
  | inr m' => Some (Onnx.get_initializer_by_name m' "w")
  | inl _ => None
  end = Some (inr (Onnx.mk_tensor "w" 2%Z)).
Proof. reflexivity. Qed.

End MoreInstances.
